(** * CodeDeck Mailer: a shallow embedding of [mailer.py]

    The development follows the layout of the script: text helpers, the
    random source, the spintax processor and the template expander, the
    progress tracker, the recipient fetchers and the campaign runner.
    The definitions come first, the properties after them.

    Modelling choices.
    - Text is a list of characters over 7-bit ASCII; the case mappings and
      the whitespace class are the ones Python's [str] has on that range.
    - [random], the clock and the Gmail service are oracles: streams the
      program reads from, one element for each call.
    - The files used by the script are represented by what [json.load]
      makes of them.
    - [print] is recorded as a trace of structured events. *)

From Stdlib Require Import String Ascii List ZArith Lia Bool Arith Permutation.
Import ListNotations.

Set Implicit Arguments.

Local Open Scope list_scope.

(* ====================================================================== *)
(** * Text                                                                *)
(* ====================================================================== *)

Definition text := list ascii.

(** A literal, written [txt "..."]. *)
Definition txt (s : string) : text := list_ascii_of_string s.

Definition text_eqb (a b : text) : bool :=
  if list_eq_dec ascii_dec a b then true else false.

(** [str.isspace] on ASCII: TAB, LF, VT, FF, CR, FS, GS, RS, US, SPACE. *)
Definition is_space (c : ascii) : bool :=
  let n := nat_of_ascii c in
  ((9 <=? n) && (n <=? 13)) || ((28 <=? n) && (n <=? 32)).

Definition lower_char (c : ascii) : ascii :=
  let n := nat_of_ascii c in
  if (65 <=? n) && (n <=? 90) then ascii_of_nat (n + 32) else c.

Definition upper_char (c : ascii) : ascii :=
  let n := nat_of_ascii c in
  if (97 <=? n) && (n <=? 122) then ascii_of_nat (n - 32) else c.

(** [s.lower()] *)
Definition lower (s : text) : text := map lower_char s.

(** [s.capitalize()] *)
Definition capitalize (s : text) : text :=
  match s with
  | [] => []
  | c :: s' => upper_char c :: lower s'
  end.

Fixpoint lstrip (s : text) : text :=
  match s with
  | c :: s' => if is_space c then lstrip s' else s
  | [] => []
  end.

Definition rstrip (s : text) : text := rev (lstrip (rev s)).

(** [s.strip()] *)
Definition strip (s : text) : text := rstrip (lstrip s).

(** [s.split()]: the maximal runs of characters that are not whitespace.
    [cur] is the run being read, reversed. *)
Fixpoint split_ws_from (cur : text) (s : text) : list text :=
  match s with
  | [] => match cur with [] => [] | _ => [rev cur] end
  | c :: s' =>
      if is_space c
      then match cur with
           | [] => split_ws_from [] s'
           | _ => rev cur :: split_ws_from [] s'
           end
      else split_ws_from (c :: cur) s'
  end.

Definition split_ws (s : text) : list text := split_ws_from [] s.

(** [s.split(sep)] for a separator of one character; never empty. *)
Fixpoint split_on (sep : ascii) (s : text) : list text :=
  match s with
  | [] => [[]]
  | c :: s' =>
      if Ascii.eqb c sep then [] :: split_on sep s'
      else match split_on sep s' with
           | h :: t => (c :: h) :: t
           | [] => [[c]]
           end
  end.

(** [p] is a prefix of [s]: what is left of [s] after it. *)
Fixpoint strip_prefix (p s : text) : option text :=
  match p, s with
  | [], _ => Some s
  | a :: p', b :: s' => if Ascii.eqb a b then strip_prefix p' s' else None
  | _ :: _, [] => None
  end.

(** [needle in hay] *)
Fixpoint contains (needle hay : text) : bool :=
  match strip_prefix needle hay with
  | Some _ => true
  | None => match hay with
            | [] => false
            | _ :: hay' => contains needle hay'
            end
  end.

(** [s.replace(old, new)] for a non-empty [old]: the occurrences of [old]
    are found from the left, each search starting after the last one
    found. The recursion is on a counter that the length of [s] bounds. *)
Fixpoint replace_from (n : nat) (old new s : text) : text :=
  match n with
  | 0 => s
  | S n' =>
      match strip_prefix old s with
      | Some rest => new ++ replace_from n' old new rest
      | None => match s with
                | [] => []
                | c :: s' => c :: replace_from n' old new s'
                end
      end
  end.

(** With an empty [old] Python puts [new] before every character and at
    the end. *)
Definition str_replace (old new s : text) : text :=
  match old with
  | [] => new ++ flat_map (fun c => c :: new) s
  | _ => replace_from (length s) old new s
  end.

(** [s.split(old)] for a non-empty [old], with the same search. *)
Fixpoint split_from (n : nat) (old s : text) : list text :=
  match n with
  | 0 => [s]
  | S n' =>
      match strip_prefix old s with
      | Some rest => [] :: split_from n' old rest
      | None => match s with
                | [] => [[]]
                | c :: s' => match split_from n' old s' with
                             | h :: t => (c :: h) :: t
                             | [] => [[c]]
                             end
                end
      end
  end.

Definition str_split (old s : text) : list text := split_from (length s) old s.

(** [sep.join(parts)] *)
Fixpoint join (sep : text) (parts : list text) : text :=
  match parts with
  | [] => []
  | [p] => p
  | p :: ps => p ++ sep ++ join sep ps
  end.

(** Python's [l[:n]] for an integer [n]: a negative bound counts from the
    end. *)
Definition slice_to (A : Type) (l : list A) (n : Z) : list A :=
  if (0 <=? n)%Z then firstn (Z.to_nat n) l
  else firstn (Z.to_nat (Z.of_nat (length l) + n)) l.

(* ====================================================================== *)
(** * Oracles                                                             *)
(* ====================================================================== *)

(** What the program reads from outside, one element for each call. *)
Definition stream (A : Type) := nat -> A.

Definition shead (A : Type) (s : stream A) : A := s 0.
Definition stail (A : Type) (s : stream A) : stream A := fun n => s (S n).

(** The generator behind [random]: each call draws one number. *)
Definition rng := stream nat.

(** [random.choice(options)]: the draw, reduced to an index. *)
Definition random_choice (options : list text) (g : rng) : text * rng :=
  (nth (shead g mod length options) options [], stail g).

(* ====================================================================== *)
(** * Spintax processor                                                   *)
(* ====================================================================== *)

Definition is_brace (c : ascii) : bool := Ascii.eqb c "{"%char || Ascii.eqb c "}"%char.

(** The longest run of [[^{}]] at the head of [s], and what follows it. *)
Fixpoint span_plain (s : text) : text * text :=
  match s with
  | [] => ([], [])
  | c :: s' =>
      if is_brace c then ([], s)
      else let (b, r) := span_plain s' in (c :: b, r)
  end.

(** The pattern [\{([^{}]+)\}] matched at the head of [s]: group 1 and the
    text after the match. The class excludes the closing brace, so the
    only candidate is the longest run. *)
Definition match_group (s : text) : option (text * text) :=
  match s with
  | "{"%char :: s' =>
      match span_plain s' with
      | (c :: b, "}"%char :: r) => Some (c :: b, r)
      | _ => None
      end
  | _ => None
  end.

(** [re.search(pattern, text)] as a truth value. *)
Fixpoint re_search (s : text) : bool :=
  match match_group s with
  | Some _ => true
  | None => match s with
            | [] => false
            | _ :: s' => re_search s'
            end
  end.

(** [replace_spin]: one of the options of the group. *)
Definition replace_spin (group1 : text) (g : rng) : text * rng :=
  random_choice (split_on "|"%char group1) g.

(** [re.sub(pattern, replace_spin, text)]: the matches are found from the
    left and do not overlap; what replaces a match is not searched again
    in the same pass. *)
Fixpoint re_sub_from (n : nat) (s : text) (g : rng) : text * rng :=
  match n with
  | 0 => (s, g)
  | S n' =>
      match match_group s with
      | Some (group1, rest) =>
          let (o, g1) := replace_spin group1 g in
          let (out, g2) := re_sub_from n' rest g1 in
          (o ++ out, g2)
      | None =>
          match s with
          | [] => ([], g)
          | c :: s' => let (out, g2) := re_sub_from n' s' g in (c :: out, g2)
          end
      end
  end.

Definition re_sub (s : text) (g : rng) : text * rng :=
  re_sub_from (length s) s g.

(** The [while] loop of [process_spintax], at most [n] passes. *)
Fixpoint spin_passes (n : nat) (s : text) (g : rng) : text * rng :=
  match n with
  | 0 => (s, g)
  | S n' =>
      if re_search s
      then let (s', g') := re_sub s g in spin_passes n' s' g'
      else (s, g)
  end.

(** [process_spintax(text)]. A pass that finds a group makes the text
    shorter, so its length bounds the number of passes
    ([process_spintax_eq] is the loop as the source has it). *)
Definition process_spintax (s : text) (g : rng) : text * rng :=
  spin_passes (length s) s g.

(* ====================================================================== *)
(** * Template expander                                                   *)
(* ====================================================================== *)

(** [f"{{{{{key}}}}}"] *)
Definition placeholder (key : text) : text := txt "{{" ++ key ++ txt "}}".

(** [replace_variables(text, variables)]: [variables] lists the items of
    the dictionary in its order. *)
Fixpoint replace_variables (s : text) (variables : list (text * text)) : text :=
  match variables with
  | [] => s
  | (key, value) :: rest =>
      replace_variables (str_replace (placeholder key) value s) rest
  end.

(** [build_message(first_name, subject_template, body_template)] *)
Definition build_message (first_name subject_template body_template : text)
    (g : rng) : (text * text) * rng :=
  let variables := [(txt "first_name", first_name)] in
  let subject := replace_variables subject_template variables in
  let (subject', g1) := process_spintax subject g in
  let body := replace_variables body_template variables in
  let (body', g2) := process_spintax body g1 in
  ((subject', body'), g2).

(* ====================================================================== *)
(** * Values read from JSON documents                                     *)
(* ====================================================================== *)

(** What [json.load] returns (numbers are integers in this model). An
    object keeps its items in order, as a Python [dict] does. *)
#[warnings="-register-all"]
Inductive json : Type :=
| JNull
| JBool (b : bool)
| JNum (n : Z)
| JStr (s : text)
| JArr (items : list json)
| JObj (items : list (text * json)).

Inductive exn : Type :=
| KeyError
| TypeError
| AttributeError
| IndexError
| UnicodeDecodeError
| SystemExit (code : Z)
| NotALedger.
(** [NotALedger] is not a Python exception: it marks a progress file that
    loads but does not hold a record of the shape the program writes; what
    the campaign does with such a document is outside this model. *)

(** A file as the program sees it. *)
Inductive file : Type :=
| Missing                (* [exists()] is false *)
| Garbled                (* reading raises [UnicodeDecodeError] *)
| Unparsable             (* [json.load] raises [json.JSONDecodeError] *)
| Document (j : json).   (* [json.load] returns [j] *)

Section Dict.
Variable A : Type.

(** [d.get(k)] *)
Fixpoint dict_get (k : text) (d : list (text * A)) : option A :=
  match d with
  | [] => None
  | (k', v) :: d' => if text_eqb k k' then Some v else dict_get k d'
  end.

(** [k in d] *)
Definition dict_has (k : text) (d : list (text * A)) : bool :=
  match dict_get k d with Some _ => true | None => false end.

(** [d[k] = v]: a known key keeps its place, a new one goes last. *)
Fixpoint dict_set (k : text) (v : A) (d : list (text * A)) : list (text * A) :=
  match d with
  | [] => [(k, v)]
  | (k', v') :: d' =>
      if text_eqb k k' then (k, v) :: d' else (k', v') :: dict_set k v d'
  end.
End Dict.

(** [j[k]] for a string [k] *)
Definition subscript (j : json) (k : text) : exn + json :=
  match j with
  | JObj items => match dict_get k items with
                  | Some v => inr v
                  | None => inl KeyError
                  end
  | _ => inl TypeError
  end.

(** [len(j)] *)
Definition py_len (j : json) : exn + nat :=
  match j with
  | JArr items => inr (length items)
  | JObj items => inr (length items)
  | JStr s => inr (length s)
  | _ => inl TypeError
  end.

(** [j.get(k, default)] *)
Definition py_get (j : json) (k : text) (default : json) : exn + json :=
  match j with
  | JObj items => match dict_get k items with
                  | Some v => inr v
                  | None => inr default
                  end
  | _ => inl AttributeError
  end.

(** [for x in j] *)
Definition py_iter (j : json) : exn + list json :=
  match j with
  | JArr items => inr items
  | JObj items => inr (map (fun kv => JStr (fst kv)) items)
  | JStr s => inr (map (fun c => JStr [c]) s)
  | _ => inl TypeError
  end.

(** [not j] *)
Definition falsy (j : json) : bool :=
  match j with
  | JNull | JBool false | JNum 0%Z | JStr [] | JArr [] | JObj [] => true
  | _ => false
  end.

(* ====================================================================== *)
(** * The world and the effects                                           *)
(* ====================================================================== *)

(** [datetime.now(timezone.utc)]: its date and its full ISO form. *)
Record datetime : Type := { utc_date : text; utc_stamp : text }.

(** The [mongodb] section of the configuration; [None] stands for a key
    that is not there. *)
Record mongo_config : Type := {
  mongo_enabled : bool;
  mongo_uri : option text;
  mongo_database : option text;
  mongo_collection : option text;
  mongo_email_field : option text;
  mongo_name_field : option text
}.

(** [config/config.json], the keys the program reads. *)
Record config : Type := {
  cfg_sender_name : option text;
  cfg_daily_limit : option Z;
  cfg_mongodb : option mongo_config
}.

(** What iterating the MongoDB cursor gives, step by step. *)
Inductive cursor_step : Type :=
| Doc (d : list (text * json))
| CursorFails.

Inductive mongo_server : Type :=
| MongoDown
| MongoCursor (steps : list cursor_step).

Record recipient : Type := { email : text; first_name : text; source : text }.

Inductive wait : Type :=
| Cooldown (seconds : Z)
| Jittered (draw : nat).

Inductive message : Type :=
| Banner
| LoadedProgress (n_sent n_failed : nat)
| ProgressUnparsable
| ProgressReset
| DailyLimitReached (limit : Z)
| DailyQuota (count limit remaining : Z)
| TestMode (to : text)
| FetchingRecipients
| MongoConnecting (database collection : text)
| MongoFound (n : nat)
| MongoError
| JsonFound (n : nat)
| JsonError
| TotalUnique (n : nat)
| NoRecipients
| PendingEmails (n_pending n_skipped : nat)
| AllSent
| LimitedTo (limit : Z)
| CappedAt (remaining : Z)
| DryRunHeader
| PreviewLine (i : nat) (r : recipient) (subject : text)
| AndMore (n : nat)
| SamplePreview (to sender subject body : text)
| Authenticated
| Starting (n : nat)
| Sending (i n : nat) (to : text)
| SentOk
| SendFailed (error_msg : text)
| RateLimitHit
| Summary (sent_count total_sent total_failed : nat) (remaining : Z).

Inductive event : Type :=
| Print (m : message)
| SendEmail (to subject body sender : text) (outcome : option text)
    (* [gmail.send_email] and how it ended: [None] when it returned,
       the text of the exception when it raised *)
| WriteTemp          (* [json.dump] to the temporary file *)
| ReplaceProgress    (* [temp_path.replace(PROGRESS_PATH)] *)
| Wait (d : wait).   (* [wait_with_countdown] *)

Record world : Type := {
  config_file : option config;             (* [None]: missing *)
  template_file : option (text * text);    (* [None]: missing or malformed *)
  progress_file : file;
  progress_tmp : file;
  emails_file : file;
  mongo : mongo_server;
  credentials_ok : bool;
  gmail : stream (option text);   (* each send: [None] or the error text *)
  clock : stream datetime;
  random : rng
}.

Definition set_random (g : rng) (w : world) : world :=
  {| config_file := config_file w; template_file := template_file w;
     progress_file := progress_file w; progress_tmp := progress_tmp w;
     emails_file := emails_file w; mongo := mongo w;
     credentials_ok := credentials_ok w; gmail := gmail w; clock := clock w;
     random := g |}.

Definition set_clock (c : stream datetime) (w : world) : world :=
  {| config_file := config_file w; template_file := template_file w;
     progress_file := progress_file w; progress_tmp := progress_tmp w;
     emails_file := emails_file w; mongo := mongo w;
     credentials_ok := credentials_ok w; gmail := gmail w; clock := c;
     random := random w |}.

Definition set_gmail (s : stream (option text)) (w : world) : world :=
  {| config_file := config_file w; template_file := template_file w;
     progress_file := progress_file w; progress_tmp := progress_tmp w;
     emails_file := emails_file w; mongo := mongo w;
     credentials_ok := credentials_ok w; gmail := s; clock := clock w;
     random := random w |}.

Definition set_progress (f tmp : file) (w : world) : world :=
  {| config_file := config_file w; template_file := template_file w;
     progress_file := f; progress_tmp := tmp;
     emails_file := emails_file w; mongo := mongo w;
     credentials_ok := credentials_ok w; gmail := gmail w; clock := clock w;
     random := random w |}.

(** A computation returns or raises; either way it leaves a world behind
    and the events it caused, in order. *)
Inductive result (A : Type) : Type :=
| Ok (a : A) (w : world) (out : list event)
| Raise (e : exn) (w : world) (out : list event).

Arguments Raise {A} e w out.

Definition M (A : Type) : Type := world -> result A.

Definition ret (A : Type) (a : A) : M A := fun w => Ok a w [].

Definition bind (A B : Type) (m : M A) (f : A -> M B) : M B :=
  fun w => match m w with
           | Ok a w1 out1 =>
               match f a w1 with
               | Ok b w2 out2 => Ok b w2 (out1 ++ out2)
               | Raise e w2 out2 => Raise e w2 (out1 ++ out2)
               end
           | Raise e w1 out1 => Raise e w1 out1
           end.

Definition raise (A : Type) (e : exn) : M A := fun w => Raise e w [].

Arguments raise {A} e.

Declare Scope monad_scope.
Delimit Scope monad_scope with monad.
Notation "x <- m ;; k" := (bind m (fun x => k))
  (at level 61, m at next level, right associativity) : monad_scope.
Notation "' pat <- m ;; k" := (bind m (fun x => match x with pat => k end))
  (at level 61, pat pattern, m at next level, right associativity) : monad_scope.
Notation "m ;; k" := (bind m (fun _ => k))
  (at level 61, right associativity) : monad_scope.
Local Open Scope monad_scope.

Definition final (A : Type) (r : result A) : world :=
  match r with Ok _ w _ => w | Raise _ w _ => w end.

Definition events (A : Type) (r : result A) : list event :=
  match r with Ok _ _ out => out | Raise _ _ out => out end.

Definition log (e : event) : M unit := fun w => Ok tt w [e].

Definition print (m : message) : M unit := log (Print m).

(** [datetime.now(timezone.utc)] *)
Definition now : M datetime :=
  fun w => Ok (shead (clock w)) (set_clock (stail (clock w)) w) [].

(** A computation that reads the random source. *)
Definition with_random (A : Type) (f : rng -> A * rng) : M A :=
  fun w => let (a, g) := f (random w) in Ok a (set_random g w) [].

(* ====================================================================== *)
(** * Progress tracker                                                    *)
(* ====================================================================== *)

(** [self.data], in the shape the program gives it and writes to disk. *)
Record ledger : Type := {
  campaign : text;
  sent : list text;
  failed : list (text * text);
  last_updated : option text;
  daily_count : Z;
  daily_date : option text
}.

(** The dictionary [__init__] and [reset] build. *)
Definition default_data : ledger :=
  {| campaign := txt "email-campaign"; sent := []; failed := [];
     last_updated := None; daily_count := 0; daily_date := None |}.

Definition json_of_opt (o : option text) : json :=
  match o with Some s => JStr s | None => JNull end.

(** The document [json.dump(self.data, f)] writes. *)
Definition json_of_ledger (l : ledger) : json :=
  JObj [ (txt "campaign", JStr (campaign l));
         (txt "sent", JArr (map JStr (sent l)));
         (txt "failed", JObj (map (fun kv => (fst kv, JStr (snd kv))) (failed l)));
         (txt "last_updated", json_of_opt (last_updated l));
         (txt "daily_count", JNum (daily_count l));
         (txt "daily_date", json_of_opt (daily_date l)) ].

Definition opt_of_json (j : json) : option (option text) :=
  match j with
  | JNull => Some None
  | JStr s => Some (Some s)
  | _ => None
  end.

Fixpoint strings_of (items : list json) : option (list text) :=
  match items with
  | [] => Some []
  | JStr s :: rest => option_map (cons s) (strings_of rest)
  | _ :: _ => None
  end.

Fixpoint reasons_of (items : list (text * json)) : option (list (text * text)) :=
  match items with
  | [] => Some []
  | (k, JStr s) :: rest => option_map (cons (k, s)) (reasons_of rest)
  | _ :: _ => None
  end.

(** The reading of a loaded document as a ledger: exactly the six keys, in
    the order the program writes them, with values of the expected kind. *)
Definition ledger_of_json (j : json) : option ledger :=
  match j with
  | JObj [ (k1, JStr c); (k2, JArr s); (k3, JObj f); (k4, lu);
           (k5, JNum n); (k6, dd) ] =>
      if text_eqb k1 (txt "campaign") && text_eqb k2 (txt "sent")
         && text_eqb k3 (txt "failed") && text_eqb k4 (txt "last_updated")
         && text_eqb k5 (txt "daily_count") && text_eqb k6 (txt "daily_date")
      then
        match strings_of s, reasons_of f, opt_of_json lu, opt_of_json dd with
        | Some s', Some f', Some lu', Some dd' =>
            Some {| campaign := c; sent := s'; failed := f';
                    last_updated := lu'; daily_count := n; daily_date := dd' |}
        | _, _, _, _ => None
        end
      else None
  | _ => None
  end.

(** [ProgressTracker._load]: [data] is [self.data] before the call, the
    result is [self.data] after it. Only [json.JSONDecodeError] is caught;
    the assignment comes before the [print] that reads both lengths. *)
Definition _load (data : json) : M json :=
  fun w =>
    match progress_file w with
    | Missing => Ok data w []
    | Garbled => Raise UnicodeDecodeError w []
    | Unparsable => Ok data w [Print ProgressUnparsable]
    | Document j =>
        match subscript j (txt "sent") with
        | inl e => Raise e w []
        | inr s =>
            match py_len s with
            | inl e => Raise e w []
            | inr n_sent =>
                match subscript j (txt "failed") with
                | inl e => Raise e w []
                | inr f =>
                    match py_len f with
                    | inl e => Raise e w []
                    | inr n_failed =>
                        Ok j w [Print (LoadedProgress n_sent n_failed)]
                    end
                end
            end
        end
    end.

(** [ProgressTracker.__init__], then the reading of [self.data] as a
    ledger. The source goes on with any document whose [sent] and
    [failed] have a length; this model follows it on the documents of the
    six keys and stops elsewhere, so what is stated of a run that loads
    the tracker takes [stored_ledger (progress_file w) = Some l] as a
    hypothesis, or holds of the source on the other documents too. *)
Definition ProgressTracker : M ledger :=
  data <- _load (json_of_ledger default_data) ;;
  match ledger_of_json data with
  | Some l => ret l
  | None => raise NotALedger
  end.

Definition with_sent (l : ledger) (s : list text) : ledger :=
  {| campaign := campaign l; sent := s; failed := failed l;
     last_updated := last_updated l; daily_count := daily_count l;
     daily_date := daily_date l |}.

Definition with_failed (l : ledger) (f : list (text * text)) : ledger :=
  {| campaign := campaign l; sent := sent l; failed := f;
     last_updated := last_updated l; daily_count := daily_count l;
     daily_date := daily_date l |}.

Definition with_last_updated (l : ledger) (t : option text) : ledger :=
  {| campaign := campaign l; sent := sent l; failed := failed l;
     last_updated := t; daily_count := daily_count l;
     daily_date := daily_date l |}.

Definition with_daily (l : ledger) (n : Z) (d : option text) : ledger :=
  {| campaign := campaign l; sent := sent l; failed := failed l;
     last_updated := last_updated l; daily_count := n; daily_date := d |}.

(** [ProgressTracker._save]: the timestamp, the temporary file, the
    rename over the progress file. *)
Definition _save (self : ledger) : M ledger :=
  t <- now ;;
  let self' := with_last_updated self (Some (utc_stamp t)) in
  (fun w => Ok tt (set_progress (progress_file w)
                                (Document (json_of_ledger self')) w)
               [WriteTemp]) ;;
  (fun w => Ok tt (set_progress (progress_tmp w) Missing w)
               [ReplaceProgress]) ;;
  ret self'.

(** [x in l] for texts *)
Definition mem (x : text) (l : list text) : bool := existsb (text_eqb x) l.

(** [ProgressTracker.is_sent] *)
Definition is_sent (self : ledger) (e : text) : bool :=
  mem (lower e) (map lower (sent self)).

Definition same_date (d : option text) (today : text) : bool :=
  match d with Some t => text_eqb t today | None => false end.

(** [ProgressTracker._update_daily_count] *)
Definition _update_daily_count (self : ledger) : M ledger :=
  t <- now ;;
  let today := utc_date t in
  if negb (same_date (daily_date self) today)
  then ret (with_daily self 1 (Some today))
  else ret (with_daily self (daily_count self + 1) (daily_date self)).

(** [ProgressTracker.mark_sent] *)
Definition mark_sent (self : ledger) (e : text) : M ledger :=
  self1 <- _update_daily_count (with_sent self (sent self ++ [e])) ;;
  _save self1.

(** [ProgressTracker.mark_failed] *)
Definition mark_failed (self : ledger) (e reason : text) : M ledger :=
  _save (with_failed self (dict_set e reason (failed self))).

(** [ProgressTracker.get_daily_count] *)
Definition get_daily_count (self : ledger) : M Z :=
  t <- now ;;
  let today := utc_date t in
  if negb (same_date (daily_date self) today) then ret 0%Z
  else ret (daily_count self).

(** [ProgressTracker.reset] *)
Definition reset (self : ledger) : M ledger :=
  self' <- _save default_data ;;
  print ProgressReset ;;
  ret self'.

(* ====================================================================== *)
(** * Recipient fetcher                                                   *)
(* ====================================================================== *)

(** [extract_first_name]; the argument is whatever the entry holds. *)
Definition extract_first_name (full_name : json) : exn + text :=
  if falsy full_name then inr (txt "there")
  else match full_name with
       | JStr s =>
           match strip s with
           | [] => inr (txt "there")
           | s' => match split_ws s' with
                   | t :: _ => inr t
                   | [] => inl IndexError
                   end
           end
       | _ => inl AttributeError
       end.

Definition recipients := list (text * recipient).

(** The body of the loops of [fetch_from_mongodb] and [fetch_from_json],
    which differ in the names of the two fields and in the source tag.
    [inr] is also the result of every [continue]. *)
Definition record_entry (email_field name_field tag : text)
    (rs : recipients) (entry : json) : exn + recipients :=
  match py_get entry email_field JNull with
  | inl e => inl e
  | inr (JStr (c :: e0)) =>
      let e := lower (strip (c :: e0)) in
      match e with
      | [] => inr rs
      | _ =>
          if negb (contains (txt "@") e) then inr rs
          else if dict_has e rs then inr rs
          else
            match py_get entry name_field JNull with
            | inl x => inl x
            | inr full_name =>
                match extract_first_name full_name with
                | inl x => inl x
                | inr fn =>
                    inr (dict_set e {| email := e; first_name := fn;
                                       source := tag |} rs)
                end
            end
      end
  | inr _ => inr rs
  end.

(** The [for] loop over the entries: it stops at the first exception and
    keeps what was recorded before it. *)
Fixpoint record_all (email_field name_field tag : text)
    (rs : recipients) (entries : list json) : recipients * option exn :=
  match entries with
  | [] => (rs, None)
  | entry :: rest =>
      match record_entry email_field name_field tag rs entry with
      | inl e => (rs, Some e)
      | inr rs' => record_all email_field name_field tag rs' rest
      end
  end.

(** The same loop over a cursor, which can itself fail at any step. *)
Fixpoint record_cursor (email_field name_field tag : text)
    (rs : recipients) (steps : list cursor_step) : recipients * bool :=
  match steps with
  | [] => (rs, false)
  | CursorFails :: _ => (rs, true)
  | Doc d :: rest =>
      match record_entry email_field name_field tag rs (JObj d) with
      | inl _ => (rs, true)
      | inr rs' => record_cursor email_field name_field tag rs' rest
      end
  end.

Definition or_default (A : Type) (o : option A) (d : A) : A :=
  match o with Some a => a | None => d end.

(** [mongo_config["uri"]], [mongo_config["database"]] and
    [mongo_config["collection"]] (lines 293-295), read before the [try]:
    the database and the collection when the three keys are there,
    [None] where a subscript raises [KeyError]. *)
Definition mongo_keys (mc : mongo_config) : option (text * text) :=
  match mongo_uri mc, mongo_database mc, mongo_collection mc with
  | Some _, Some db_name, Some coll_name => Some (db_name, coll_name)
  | _, _, _ => None
  end.

(** The MongoDB source is enabled and one of the three keys is not
    there. *)
Definition mongo_keys_missing (cfg : config) : bool :=
  match cfg_mongodb cfg with
  | Some mc => mongo_enabled mc
               && match mongo_keys mc with Some _ => false | None => true end
  | None => false
  end.

(** [fetch_from_mongodb(config)] *)
Definition fetch_from_mongodb (cfg : config) : M recipients :=
  match cfg_mongodb cfg with
  | None => ret []
  | Some mc =>
      if negb (mongo_enabled mc) then ret []
      else
        match mongo_keys mc with
        | None => raise KeyError
        | Some (db_name, coll_name) =>
            let email_field :=
              or_default (mongo_email_field mc) (txt "email") in
            let name_field := or_default (mongo_name_field mc) (txt "name") in
            print (MongoConnecting db_name coll_name) ;;
            fun w =>
              match mongo w with
              | MongoDown => Ok [] w [Print MongoError]
              | MongoCursor steps =>
                  match record_cursor email_field name_field (txt "MongoDB")
                                      [] steps with
                  | (rs, true) => Ok rs w [Print MongoError]
                  | (rs, false) => Ok rs w [Print (MongoFound (length rs))]
                  end
              end
        end
  end.

(** [fetch_from_json()] *)
Definition fetch_from_json : M recipients :=
  fun w =>
    match emails_file w with
    | Missing => Ok [] w []
    | Garbled | Unparsable => Ok [] w [Print JsonError]
    | Document data =>
        match py_get data (txt "recipients") (JArr []) with
        | inl _ => Ok [] w [Print JsonError]
        | inr v =>
            match py_iter v with
            | inl _ => Ok [] w [Print JsonError]
            | inr entries =>
                match record_all (txt "email") (txt "name") (txt "JSON")
                                 [] entries with
                | (rs, Some _) => Ok rs w [Print JsonError]
                | (rs, None) => Ok rs w [Print (JsonFound (length rs))]
                end
            end
        end
    end.

(** [x[i], x[j] = x[j], x[i]] *)
Fixpoint set_nth (A : Type) (i : nat) (a : A) (l : list A) : list A :=
  match l, i with
  | [], _ => []
  | _ :: l', 0 => a :: l'
  | b :: l', S i' => b :: set_nth i' a l'
  end.

Definition swap (A : Type) (d : A) (i j : nat) (l : list A) : list A :=
  set_nth j (nth i l d) (set_nth i (nth j l d) l).

(** [random.shuffle(x)]: for [i] from the last index down to 1, the
    element at [i] changes places with one at a drawn index [j <= i]. *)
Fixpoint shuffle_from (A : Type) (d : A) (i : nat) (x : list A) (g : rng)
    : list A * rng :=
  match i with
  | 0 => (x, g)
  | S i' => shuffle_from d i' (swap d i (shead g mod S i) x) (stail g)
  end.

Definition shuffle (A : Type) (x : list A) (g : rng) : list A * rng :=
  match x with
  | [] => ([], g)
  | d :: _ => shuffle_from d (length x - 1) x g
  end.

(** The [for] loop of [fetch_recipients] over the JSON recipients. *)
Fixpoint merge_new (all_recipients : recipients) (json_recipients : recipients)
    : recipients :=
  match json_recipients with
  | [] => all_recipients
  | (e, data) :: rest =>
      merge_new (if dict_has e all_recipients then all_recipients
                 else dict_set e data all_recipients) rest
  end.

(** [d.update(other)] *)
Definition dict_update (A : Type) (d other : list (text * A)) : list (text * A) :=
  fold_left (fun acc kv => dict_set (fst kv) (snd kv) acc) other d.

(** [fetch_recipients(config)] *)
Definition fetch_recipients (cfg : config) : M (list recipient) :=
  mongo_recipients <- fetch_from_mongodb cfg ;;
  let all_recipients := dict_update [] mongo_recipients in
  json_recipients <- fetch_from_json ;;
  let all_recipients := merge_new all_recipients json_recipients in
  rs <- with_random (shuffle (map snd all_recipients)) ;;
  print (TotalUnique (length rs)) ;;
  ret rs.

(* ====================================================================== *)
(** * Rate limiter                                                        *)
(* ====================================================================== *)

(** [calculate_delay(config)]: one draw for the jitter; the number of
    seconds it stands for is not computed here. *)
Definition calculate_delay : M wait :=
  with_random (fun g => (Jittered (shead g), stail g)).

(** [wait_with_countdown(seconds)] *)
Definition wait_with_countdown (d : wait) : M unit := log (Wait d).

(* ====================================================================== *)
(** * Main runner                                                         *)
(* ====================================================================== *)

(** [load_config()] *)
Definition load_config : M config :=
  fun w => match config_file w with
           | Some c => Ok c w []
           | None => Raise (SystemExit 1) w []
           end.

(** [load_template()] *)
Definition load_template : M (text * text) :=
  fun w => match template_file w with
           | Some t => Ok t w []
           | None => Raise (SystemExit 1) w []
           end.

(** [GmailAuth.authenticate] *)
Definition authenticate : M unit :=
  fun w => if credentials_ok w then Ok tt w [Print Authenticated]
           else Raise (SystemExit 1) w [].

(** [GmailAuth.send_email]: [None] when it returns, the text of the
    exception when it raises. *)
Definition send_email (to subject body sender : text) : M (option text) :=
  fun w => let outcome := shead (gmail w) in
           Ok outcome (set_gmail (stail (gmail w)) w)
              [SendEmail to subject body sender outcome].

(** The recipient of test mode (lines 466-468). *)
Definition test_recipient (test_email : text) : recipient :=
  let name_part := hd [] (split_on "@"%char test_email) in
  {| email := test_email;
     first_name := capitalize (hd [] (split_on "."%char name_part));
     source := txt "Test" |}.

(** [if limit: pending = pending[:limit]] *)
Definition apply_limit (limit : option Z) (pending : list recipient)
    : list recipient :=
  match limit with
  | None | Some 0%Z => pending
  | Some n => slice_to pending n
  end.

Definition limit_given (limit : option Z) : option Z :=
  match limit with
  | None | Some 0%Z => None
  | Some n => Some n
  end.

(** [if len(pending) > remaining_today: pending = pending[:remaining_today]] *)
Definition cap_daily (remaining_today : Z) (pending : list recipient)
    : list recipient :=
  if (Z.of_nat (length pending) >? remaining_today)%Z
  then slice_to pending remaining_today
  else pending.

(** Lines 487-494: the limit first, then the cap. *)
Definition apply_limits (limit : option Z) (remaining_today : Z)
    (pending : list recipient) : list recipient :=
  cap_daily remaining_today (apply_limit limit pending).

(** The [for] loop of the dry run, [i] counting from 1. *)
Fixpoint preview_lines (subject_template body_template : text) (i : nat)
    (shown : list recipient) : M unit :=
  match shown with
  | [] => ret tt
  | r :: rest =>
      '(subject, _) <- with_random
          (build_message (first_name r) subject_template body_template) ;;
      print (PreviewLine i r subject) ;;
      preview_lines subject_template body_template (S i) rest
  end.

(** Lines 497-516. *)
Definition dry_run_preview (sender_name subject_template body_template : text)
    (pending : list recipient) : M unit :=
  print DryRunHeader ;;
  preview_lines subject_template body_template 1 (slice_to pending 20) ;;
  (if 20 <? length pending then print (AndMore (length pending - 20))
   else ret tt) ;;
  match pending with
  | [] => raise IndexError
  | sample :: _ =>
      '(subject, body) <- with_random
          (build_message (first_name sample) subject_template body_template) ;;
      print (SamplePreview (email sample) sender_name subject body)
  end.

(** ["429" in error_msg or "quota" in error_msg.lower()] *)
Definition rate_limited (error_msg : text) : bool :=
  contains (txt "429") error_msg || contains (txt "quota") (lower error_msg).

(** The sending loop (lines 526-553): [i] is the index of the head of
    [todo], [n] is [len(pending)]. *)
Fixpoint send_loop (sender_name subject_template body_template : text)
    (n i : nat) (progress : ledger) (sent_count : nat) (todo : list recipient)
    : M (ledger * nat) :=
  match todo with
  | [] => ret (progress, sent_count)
  | r :: rest =>
      '(subject, body) <- with_random
          (build_message (first_name r) subject_template body_template) ;;
      print (Sending i n (email r)) ;;
      outcome <- send_email (email r) subject body sender_name ;;
      '(progress', sent_count') <-
        match outcome with
        | None =>
            p <- mark_sent progress (email r) ;;
            print SentOk ;;
            ret (p, S sent_count)
        | Some error_msg =>
            p <- mark_failed progress (email r) error_msg ;;
            print (SendFailed error_msg) ;;
            (if rate_limited error_msg
             then print RateLimitHit ;; wait_with_countdown (Cooldown 300)
             else ret tt) ;;
            ret (p, sent_count)
        end ;;
      (if i <? n
       then delay <- calculate_delay ;; wait_with_countdown delay
       else ret tt) ;;
      send_loop sender_name subject_template body_template n (S i)
                progress' sent_count' rest
  end.

(** [not test_email] *)
Definition test_email_given (test_email : option text) : option text :=
  match test_email with
  | Some (c :: s) => Some (c :: s)
  | _ => None
  end.

(** [run_campaign(dry_run, limit, test_email)] *)
Definition run_campaign (dry_run : bool) (limit : option Z)
    (test_email : option text) : M unit :=
  print Banner ;;
  cfg <- load_config ;;
  let sender_name := or_default (cfg_sender_name cfg) (txt "Mailer") in
  let daily_limit := or_default (cfg_daily_limit cfg) 100%Z in
  '(subject_template, body_template) <- load_template ;;
  progress <- ProgressTracker ;;
  daily_count <- get_daily_count progress ;;
  if (daily_count >=? daily_limit)%Z
  then print (DailyLimitReached daily_limit)
  else
    let remaining_today := (daily_limit - daily_count)%Z in
    print (DailyQuota daily_count daily_limit remaining_today) ;;
    recipients <-
      match test_email_given test_email with
      | Some e => print (TestMode e) ;; ret [test_recipient e]
      | None => print FetchingRecipients ;; fetch_recipients cfg
      end ;;
    match recipients with
    | [] => print NoRecipients
    | _ =>
        let pending :=
          filter (fun r => negb (is_sent progress (email r))) recipients in
        print (PendingEmails (length pending)
                             (length recipients - length pending)) ;;
        match pending with
        | [] => print AllSent
        | _ =>
            let pending1 := apply_limit limit pending in
            match limit_given limit with
            | Some n => print (LimitedTo n)
            | None => ret tt
            end ;;
            let pending2 := cap_daily remaining_today pending1 in
            (if (Z.of_nat (length pending1) >? remaining_today)%Z
             then print (CappedAt remaining_today) else ret tt) ;;
            if dry_run
            then dry_run_preview sender_name subject_template body_template
                                 pending2
            else
              authenticate ;;
              print (Starting (length pending2)) ;;
              '(progress', sent_count) <-
                send_loop sender_name subject_template body_template
                          (length pending2) 1 progress 0 pending2 ;;
              print (Summary sent_count (length (sent progress'))
                       (length (failed progress'))
                       (Z.of_nat (length recipients)
                        - Z.of_nat (length (sent progress'))
                        - Z.of_nat (length (failed progress'))))
        end
    end.

(** The command line, as [argparse] reads it. *)
Record args : Type := {
  arg_dry_run : bool;
  arg_limit : option Z;
  arg_reset : bool;
  arg_to : option text
}.

(** [main()] *)
Definition main (a : args) : M unit :=
  stop <-
    (if arg_reset a
     then tracker <- ProgressTracker ;;
          reset tracker ;;
          ret (negb (arg_dry_run a)
               && match arg_limit a with None => true | Some _ => false end)
     else ret false) ;;
  if (stop : bool) then ret tt
  else run_campaign (arg_dry_run a) (arg_limit a) (arg_to a).

(** What a run did, read from its trace. *)
Definition sent_to (e : event) : list text :=
  match e with SendEmail to _ _ _ _ => [to] | _ => [] end.

Definition delivered_to (e : event) : list text :=
  match e with SendEmail to _ _ _ None => [to] | _ => [] end.

(** The addresses [send_email] was called with, in order. *)
Definition sends (tr : list event) : list text := flat_map sent_to tr.

(** The addresses the service accepted a message for. *)
Definition delivered (tr : list event) : list text := flat_map delivered_to tr.

Definition is_write (e : event) : bool :=
  match e with WriteTemp | ReplaceProgress => true | _ => false end.

Definition is_preview_line (e : event) : bool :=
  match e with Print (PreviewLine _ _ _) => true | _ => false end.

(** The ledger a run starts from, when the progress file gives one. *)
Definition stored_ledger (f : file) : option ledger :=
  match f with
  | Missing | Unparsable => Some default_data
  | Garbled => None
  | Document j => ledger_of_json j
  end.

(* ====================================================================== *)
(** * Sample inputs                                                       *)
(* ====================================================================== *)

(** A random source that always draws 0, and one that always draws 1. *)
Definition always_first : rng := fun _ => 0.
Definition always_second : rng := fun _ => 1.

Definition noon : datetime :=
  {| utc_date := txt "2024-05-01";
     utc_stamp := txt "2024-05-01T12:00:00+00:00" |}.

Definition sample_config : config :=
  {| cfg_sender_name := Some (txt "Ana"); cfg_daily_limit := Some 100%Z;
     cfg_mongodb := None |}.

(** A world with the given progress file and recipient file, a Gmail
    service that accepts every message and a clock that stands at noon. *)
Definition sample_world (progress emails : file) : world :=
  {| config_file := Some sample_config;
     template_file := Some (txt "Hi {{first_name}}",
                            txt "{Hello|Hi} {{first_name}}, welcome");
     progress_file := progress; progress_tmp := Missing;
     emails_file := emails; mongo := MongoDown; credentials_ok := true;
     gmail := fun _ => None; clock := fun _ => noon;
     random := always_first |}.

Definition entry_of (e n : string) : json :=
  JObj [(txt "email", JStr (txt e)); (txt "name", JStr (txt n))].

Definition person (e n : string) : recipient :=
  {| email := txt e; first_name := txt n; source := txt "JSON" |}.

Definition ledger_with_sent (s : list text) : ledger :=
  with_sent default_data s.

Definition emails_document (entries : list json) : file :=
  Document (JObj [(txt "recipients", JArr entries)]).

Definition mongo_on : mongo_config :=
  {| mongo_enabled := true; mongo_uri := Some (txt "mongodb://localhost");
     mongo_database := Some (txt "crm");
     mongo_collection := Some (txt "users"); mongo_email_field := None;
     mongo_name_field := None |}.

Definition config_with_mongo : config :=
  {| cfg_sender_name := None; cfg_daily_limit := None;
     cfg_mongodb := Some mongo_on |}.



Definition with_mongo (m : mongo_server) (w : world) : world :=
  {| config_file := config_file w; template_file := template_file w;
     progress_file := progress_file w; progress_tmp := progress_tmp w;
     emails_file := emails_file w; mongo := m;
     credentials_ok := credentials_ok w; gmail := gmail w; clock := clock w;
     random := random w |}.

Definition two_recipients : file :=
  emails_document [entry_of "a@x.org" "Al"; entry_of "b@x.org" "Bo"].

(** A world where both sources list the same person. *)
Definition both_sources : world :=
  with_mongo
    (MongoCursor [Doc [(txt "email", JStr (txt "A@x.org "));
                       (txt "name", JStr (txt "Alice Mongo"))]])
    (sample_world Missing
       (emails_document [entry_of "a@x.org" "Al Json";
                         entry_of "b@x.org" "Bo"])).

(** The person, as the database has her. *)
Definition alice : recipient :=
  {| email := txt "a@x.org"; first_name := txt "Alice";
     source := txt "MongoDB" |}.

(* ====================================================================== *)
(** * Predicates of the statements                                        *)
(* ====================================================================== *)

Definition plain (s : text) : bool := forallb (fun c => negb (is_brace c)) s.

(** [out] happened before [r]. *)
Definition prepend (A : Type) (out : list event) (r : result A) : result A :=
  match r with
  | Ok a w o => Ok a w (out ++ o)
  | Raise e w o => Raise e w (out ++ o)
  end.

Arguments prepend {A} out r.

(** An event that is neither a send nor a write nor a preview line. *)
Definition notice (e : event) : bool :=
  match e with
  | Print (PreviewLine _ _ _) => false
  | Print _ | Wait _ => true
  | _ => false
  end.

Definition harmless (e : event) : bool :=
  match e with
  | Print _ | Wait _ => true
  | _ => false
  end.

(** [m] sends nothing and writes nothing, prints at most [k] preview
    lines and leaves the progress file and its temporary file alone. *)
Definition previews (k : nat) (A : Type) (m : M A) : Prop :=
  forall w,
    forallb harmless (events (m w)) = true /\
    length (filter is_preview_line (events (m w))) <= k /\
    progress_file (final (m w)) = progress_file w /\
    progress_tmp (final (m w)) = progress_tmp w.

Arguments previews k {A} m.

(** [FilterPending]: the recipients the ledger does not list as sent. *)
Definition pending_of (l : ledger) (rs : list recipient) : list recipient :=
  filter (fun r => negb (is_sent l (email r))) rs.

(** The recipients have addresses that differ, also up to case. *)
Definition distinct (rs : list recipient) : Prop :=
  NoDup (map (fun r => lower (email r)) rs).

(** A dictionary of recipients as the fetchers build it: the keys differ,
    each recipient is under its own address, and the keys are in lower
    case. *)
Definition keyed (d : recipients) : Prop :=
  NoDup (map fst d) /\
  Forall (fun kr => email (snd kr) = fst kr /\ lower (fst kr) = fst kr) d.

(** What a run that started with the progress file [f0] did: either it
    sent nothing and wrote nothing, or it went through the sending loop
    with the pending recipients, cut to the limits. *)
Definition faithful (limit : option Z) (f0 : file) (r : result unit) : Prop :=
  (forallb harmless (events r) = true /\ progress_file (final r) = f0) \/
  (exists l l' rs rem,
      stored_ledger f0 = Some l /\ (0 < rem)%Z /\ distinct rs /\
      sends (events r)
      = map email (apply_limits limit rem (pending_of l rs)) /\
      stored_ledger (progress_file (final r)) = Some l' /\
      sent l' = sent l ++ delivered (events r)).

(** The progress file holds a ledger: a document of the six keys with
    values of the kinds the data model gives them. *)
Definition well_formed_ledger (f : file) : bool :=
  match f with
  | Document j => match ledger_of_json j with Some _ => true | None => false end
  | _ => false
  end.

(** Without whitespace. *)
Definition solid (s : text) : bool := forallb (fun c => negb (is_space c)) s.

(** A recipient as a fetcher records it under the source tag [tag]: the
    address is not empty, holds an [@], is in lower case and trimmed; the
    first name is one word. *)
Definition normal_recipient (tag : text) (r : recipient) : Prop :=
  email r <> [] /\ contains (txt "@") (email r) = true /\
  lower (email r) = email r /\ strip (email r) = email r /\
  first_name r <> [] /\ solid (first_name r) = true /\ source r = tag.

Definition all_normal (tag : text) (d : recipients) : Prop :=
  Forall (fun kr => normal_recipient tag (snd kr)) d.

(** The sends the service refused, with the text of the error. *)
Definition rejected_by (e : event) : list (text * text) :=
  match e with SendEmail to _ _ _ (Some msg) => [(to, msg)] | _ => [] end.

Definition rejected (tr : list event) : list (text * text) :=
  flat_map rejected_by tr.

(** How the sends of a trace ended, in order. *)
Definition outcome_of (e : event) : list (option text) :=
  match e with SendEmail _ _ _ _ o => [o] | _ => [] end.

Definition outcomes (tr : list event) : list (option text) :=
  flat_map outcome_of tr.

Definition is_jitter (e : event) : bool :=
  match e with Wait (Jittered _) => true | _ => false end.

Definition is_cooldown (e : event) : bool :=
  match e with Wait (Cooldown 300) => true | _ => false end.

(** [d[k] = v] for each pair, in order. *)
Definition upserts (d : list (text * text)) (ps : list (text * text))
    : list (text * text) :=
  fold_left (fun acc p => dict_set (fst p) (snd p) acc) ps d.

(** What [get_daily_count] answers on the day [today]. *)
Definition count_today (today : text) (l : ledger) : Z :=
  if same_date (daily_date l) today then daily_count l else 0%Z.

(** The clock of [w] shows the date [today] at every reading. *)
Definition dated (today : text) (w : world) : Prop :=
  forall n, utc_date (clock w n) = today.

(** [w'] comes after [w]: its clock is the clock of [w] some readings
    later, and the Gmail service has answered [sends] more times. *)
Definition after (sends : nat) (w w' : world) : Prop :=
  (exists k, forall n, clock w' n = clock w (k + n)) /\
  (forall n, gmail w' n = gmail w (sends + n)) /\
  credentials_ok w' = credentials_ok w.

(** What a run did, in full, when the configuration [cfg] and the ledger
    [l] were read from the world [w0]: either it sent nothing and wrote
    nothing, or it was not a dry run, the quota of the day was not used
    up, the credentials were accepted, and it went through the sending
    loop and the summary. *)
Definition campaign_outcome (dry_run : bool) (limit : option Z)
    (test_email : option text) (cfg : config) (l : ledger) (w0 : world)
    (r : result unit) : Prop :=
  let today := utc_date (shead (clock w0)) in
  let daily_limit := or_default (cfg_daily_limit cfg) 100%Z in
  let remaining_today := (daily_limit - count_today today l)%Z in
  (forallb harmless (events r) = true /\
   progress_file (final r) = progress_file w0) \/
  (exists rs l' w' out,
      dry_run = false /\ credentials_ok w0 = true /\
      (0 < remaining_today)%Z /\
      match test_email_given test_email with
      | Some e => rs = [test_recipient e]
      | None => exists w7 o,
          fetch_recipients cfg (set_clock (stail (clock w0)) w0) = Ok rs w7 o
      end /\
      pending_of l rs <> [] /\
      r = Ok tt w' out /\
      sends out
      = map email (apply_limits limit remaining_today (pending_of l rs)) /\
      outcomes out = map (gmail w0) (seq 0 (length (sends out))) /\
      stored_ledger (progress_file w') = Some l' /\
      sent l' = sent l ++ delivered out /\
      failed l' = upserts (failed l) (rejected out) /\
      In (Print (Summary (length (delivered out)) (length (sent l'))
                         (length (failed l'))
                         (Z.of_nat (length rs) - Z.of_nat (length (sent l'))
                          - Z.of_nat (length (failed l'))))) out /\
      (forall d, dated d w0 ->
         count_today d l'
         = (count_today d l + Z.of_nat (length (delivered out)))%Z)).




(** A ledger that counts [n] sends on the day the sample clock shows. *)
Definition counted_today (n : Z) : ledger :=
  with_daily default_data n (Some (utc_date noon)).

(** The preview lines of a trace: the number and the address of each. *)
Definition previewed_by (e : event) : list (nat * text) :=
  match e with Print (PreviewLine i r _) => [(i, email r)] | _ => [] end.

Definition previewed (tr : list event) : list (nat * text) :=
  flat_map previewed_by tr.

(** The line feed. *)
Definition nl : ascii := "010"%char.

(** The separator of the template file, a line of three dashes. *)
Definition separator : text := nl :: txt "---" ++ [nl].

(** [s.split(sep, 1)] for a non-empty [sep], when it gives two parts: the
    text before the first occurrence of [sep] and the text after it.
    [None] when [sep] does not occur, where Python gives one part. *)
Fixpoint split_once (sep s : text) : option (text * text) :=
  match strip_prefix sep s with
  | Some rest => Some ([], rest)
  | None => match s with
            | [] => None
            | c :: s' => match split_once sep s' with
                         | Some (a, b) => Some (c :: a, b)
                         | None => None
                         end
            end
  end.

(** What [load_template] makes of the content of the template file
    (lines 79-93): the subject and the body, or [None] where the source
    prints an error and exits. [template_file] of a world is this value
    for the file it stands for. *)
Definition template_of_content (content : text) : option (text * text) :=
  match split_once separator content with
  | None => None
  | Some (head, tail) =>
      let subject_line := strip head in
      match strip_prefix (txt "SUBJECT:") subject_line with
      | None => None
      | Some rest => Some (strip rest, strip tail)
      end
  end.

(** Without a line feed. *)
Definition one_line (s : text) : bool :=
  forallb (fun c => negb (Ascii.eqb c nl)) s.

(** The world without the template file, and the world where Gmail does
    not accept the credentials. *)
Definition without_template (w : world) : world :=
  {| config_file := config_file w; template_file := None;
     progress_file := progress_file w; progress_tmp := progress_tmp w;
     emails_file := emails_file w; mongo := mongo w;
     credentials_ok := credentials_ok w; gmail := gmail w; clock := clock w;
     random := random w |}.

Definition without_credentials (w : world) : world :=
  {| config_file := config_file w; template_file := template_file w;
     progress_file := progress_file w; progress_tmp := progress_tmp w;
     emails_file := emails_file w; mongo := mongo w;
     credentials_ok := false; gmail := gmail w; clock := clock w;
     random := random w |}.

(** The sends and the waits of a trace, in order: a call of [send_email]
    with its answer, a cooldown, a jittered wait. *)
Inductive step : Type :=
| Attempt (to : text) (outcome : option text)
| Cool (seconds : Z)
| Jitter.

Definition step_of (e : event) : list step :=
  match e with
  | SendEmail to _ _ _ outcome => [Attempt to outcome]
  | Wait (Cooldown seconds) => [Cool seconds]
  | Wait (Jittered _) => [Jitter]
  | _ => []
  end.

Definition steps (tr : list event) : list step := flat_map step_of tr.






(** The two daily-count methods on the dictionary [self.data] itself, as
    the source reads it with [.get]; [get_daily_count] and
    [_update_daily_count] above are these on a ledger of the six keys
    ([daily_count_rules] says so). *)

(** [self.data.get("daily_date") != today] is false: the value is the
    string [today]. *)
Definition stored_today (data : list (text * json)) (today : text) : bool :=
  match dict_get (txt "daily_date") data with
  | Some (JStr d) => text_eqb d today
  | _ => false
  end.

(** [self.data.get("daily_count", 0)] *)
Definition stored_count (data : list (text * json)) : json :=
  match dict_get (txt "daily_count") data with
  | Some v => v
  | None => JNum 0
  end.

(** [v + 1]: a [bool] counts as 0 or 1, other values that are not
    numbers raise [TypeError]. *)
Definition plus_one (v : json) : exn + json :=
  match v with
  | JNum n => inr (JNum (n + 1))
  | JBool b => inr (JNum (if b then 2 else 1))
  | _ => inl TypeError
  end.

(** [ProgressTracker.get_daily_count] on [self.data] *)
Definition get_daily_count_data (data : list (text * json)) : M json :=
  t <- now ;;
  let today := utc_date t in
  if negb (stored_today data today) then ret (JNum 0)
  else ret (stored_count data).

(** [ProgressTracker._update_daily_count] on [self.data]: the dictionary
    after the call. *)
Definition _update_daily_count_data (data : list (text * json))
    : M (list (text * json)) :=
  t <- now ;;
  let today := utc_date t in
  if negb (stored_today data today)
  then ret (dict_set (txt "daily_count") (JNum 1)
                     (dict_set (txt "daily_date") (JStr today) data))
  else match plus_one (stored_count data) with
       | inl e => raise e
       | inr v => ret (dict_set (txt "daily_count") v data)
       end.

(* ====================================================================== *)
(** * Properties: text                                                    *)
(* ====================================================================== *)

Unset Implicit Arguments.

(** Splits a conjunction into its parts. *)
Ltac conjs := repeat match goal with |- _ /\ _ => split end.

Lemma text_eqb_eq (a b : text) : text_eqb a b = true <-> a = b.
Proof.
  unfold text_eqb. destruct (list_eq_dec ascii_dec a b); split; congruence.
Qed.

Lemma text_eqb_refl (a : text) : text_eqb a a = true.
Proof. now apply text_eqb_eq. Qed.

Lemma mem_In (x : text) (l : list text) : mem x l = true <-> In x l.
Proof.
  unfold mem. rewrite existsb_exists. split.
  - intros [y [Hy E]]. apply text_eqb_eq in E. now subst.
  - intros H. exists x. split; [assumption | apply text_eqb_refl].
Qed.

Lemma strip_prefix_app (p s r : text) :
  strip_prefix p s = Some r <-> s = p ++ r.
Proof.
  revert s. induction p as [|a p IH]; intros s; simpl.
  - split; congruence.
  - destruct s as [|b s].
    + split; discriminate.
    + destruct (Ascii.eqb_spec a b) as [->|N].
      * rewrite IH. split; congruence.
      * split; [discriminate | intros E; inversion E; congruence].
Qed.

Lemma split_on_length (sep : ascii) (s o : text) :
  In o (split_on sep s) -> length o <= length s.
Proof.
  revert o. induction s as [|c s IH]; intros o; simpl.
  - intros [<-|[]]. reflexivity.
  - destruct (Ascii.eqb c sep).
    + intros [<-|H]; simpl; [lia | specialize (IH _ H); lia].
    + destruct (split_on sep s) as [|h t] eqn:E.
      * intros [<-|[]]. simpl. lia.
      * intros [<-|H]; simpl.
        -- specialize (IH h (or_introl eq_refl)). lia.
        -- specialize (IH o (or_intror H)). lia.
Qed.

Lemma split_on_cons (sep : ascii) (s : text) : split_on sep s <> [].
Proof.
  destruct s as [|c s]; simpl; [discriminate|].
  destruct (Ascii.eqb c sep); [discriminate|].
  destruct (split_on sep s); discriminate.
Qed.

(** Without the separator there is one part, the text itself. *)
Lemma split_on_absent (sep : ascii) (s : text) :
  forallb (fun c => negb (Ascii.eqb c sep)) s = true -> split_on sep s = [s].
Proof.
  induction s as [|c s IH]; simpl; [reflexivity|].
  destruct (Ascii.eqb c sep); simpl; [discriminate|].
  intros H. now rewrite (IH H).
Qed.

(* ====================================================================== *)
(** * Properties: the spintax processor                                   *)
(* ====================================================================== *)

Lemma random_choice_In (options : list text) (g : rng) :
  options <> [] -> In (fst (random_choice options g)) options.
Proof.
  intros H. unfold random_choice. simpl. apply nth_In.
  apply Nat.mod_upper_bound. destruct options; [congruence | discriminate].
Qed.

Lemma replace_spin_In (group1 : text) (g : rng) :
  In (fst (replace_spin group1 g)) (split_on "|"%char group1).
Proof. apply random_choice_In, split_on_cons. Qed.

Lemma replace_spin_length (group1 : text) (g : rng) :
  length (fst (replace_spin group1 g)) <= length group1.
Proof. eapply split_on_length, replace_spin_In. Qed.

Lemma span_plain_spec (s b r : text) :
  span_plain s = (b, r) ->
  s = b ++ r /\ plain b = true /\
  match r with [] => True | c :: _ => is_brace c = true end.
Proof.
  revert b r. induction s as [|c s IH]; intros b r; simpl.
  - intros E. inversion E. auto.
  - destruct (is_brace c) eqn:B.
    + intros E. inversion E. subst. simpl. auto.
    + destruct (span_plain s) as [b' r'] eqn:S. intros E. inversion E. subst.
      destruct (IH _ _ eq_refl) as (-> & P & R). simpl. rewrite B. auto.
Qed.

Lemma span_plain_app (b r : text) :
  plain b = true -> match r with [] => True | c :: _ => is_brace c = true end ->
  span_plain (b ++ r) = (b, r).
Proof.
  induction b as [|c b IH]; simpl; intros P R.
  - destruct r as [|c r]; [reflexivity|]. simpl. now rewrite R.
  - apply andb_prop in P. destruct P as [Pc Pb].
    destruct (is_brace c); [discriminate|]. now rewrite (IH Pb R).
Qed.

(** A match of the pattern at the head of [s] is an opening brace, a
    non-empty run without braces, and a closing brace. *)
Lemma match_group_iff (s b r : text) :
  match_group s = Some (b, r) <->
  s = "{"%char :: b ++ "}"%char :: r /\ b <> [] /\ plain b = true.
Proof.
  split.
  - unfold match_group. destruct s as [|c s]; [discriminate|].
    destruct (Ascii.eqb_spec c "{"%char) as [->|N].
    + destruct (span_plain s) as [b' r'] eqn:S.
      destruct (span_plain_spec _ _ _ S) as (-> & P & _).
      destruct b' as [|c b']; [discriminate|].
      destruct r' as [|d r']; [discriminate|].
      destruct (Ascii.eqb_spec d "}"%char) as [->|N].
      * intros E. inversion E. subst. repeat split; [discriminate | assumption].
      * intros E. exfalso. revert E.
        destruct d as [[] [] [] [] [] [] [] []]; try discriminate.
        congruence.
    + intros E. exfalso. revert E.
      destruct c as [[] [] [] [] [] [] [] []]; try discriminate. congruence.
  - intros (-> & N & P). unfold match_group.
    rewrite (span_plain_app b ("}"%char :: r) P eq_refl).
    destruct b; [congruence | reflexivity].
Qed.

Lemma match_group_shorter (s b r : text) :
  match_group s = Some (b, r) -> length b + length r + 2 = length s.
Proof.
  intros H. apply match_group_iff in H. destruct H as (-> & _ & _).
  simpl. rewrite length_app. simpl. lia.
Qed.

(** The counter of [re_sub_from] does not matter once it reaches the
    length of the text. *)
Lemma re_sub_from_enough (n m : nat) (s : text) (g : rng) :
  length s <= n -> length s <= m -> re_sub_from n s g = re_sub_from m s g.
Proof.
  revert m s g. induction n as [|n IH]; intros m s g Hn Hm.
  - destruct s; [|simpl in Hn; lia]. destruct m; reflexivity.
  - destruct m as [|m].
    + destruct s; [reflexivity | simpl in Hm; lia].
    + cbn [re_sub_from]. destruct (match_group s) as [[b r]|] eqn:E.
      * pose proof (match_group_shorter _ _ _ E) as L.
        destruct (replace_spin b g) as [o g1].
        rewrite (IH m r g1) by lia. reflexivity.
      * destruct s as [|c s]; [reflexivity|]. simpl in Hn, Hm.
        rewrite (IH m s g) by lia. reflexivity.
Qed.

(** [re.sub] at a match: the group is replaced by one of its options and
    the pass goes on after the match. *)
Lemma re_sub_group (s b r : text) (g : rng) :
  match_group s = Some (b, r) ->
  re_sub s g =
  (fst (replace_spin b g) ++ fst (re_sub r (snd (replace_spin b g))),
   snd (re_sub r (snd (replace_spin b g)))).
Proof.
  intros E. pose proof (match_group_shorter _ _ _ E) as L. unfold re_sub.
  destruct (length s) as [|n] eqn:Ls; [lia|]. cbn [re_sub_from]. rewrite E.
  destruct (replace_spin b g) as [o g1]. cbn [fst snd].
  rewrite (re_sub_from_enough n (length r)) by lia.
  now destruct (re_sub_from (length r) r g1).
Qed.

(** [re.sub] where the pattern does not match: the character is kept. *)
Lemma re_sub_char (c : ascii) (s : text) (g : rng) :
  match_group (c :: s) = None ->
  re_sub (c :: s) g = (c :: fst (re_sub s g), snd (re_sub s g)).
Proof.
  intros E. unfold re_sub. cbn [length re_sub_from]. rewrite E.
  now destruct (re_sub_from (length s) s g).
Qed.

Lemma re_sub_nil (g : rng) : re_sub [] g = ([], g).
Proof. reflexivity. Qed.

Lemma re_sub_length (n : nat) : forall (s : text) (g : rng),
  length s <= n ->
  length (fst (re_sub s g)) <= length s /\
  (re_search s = true -> length (fst (re_sub s g)) < length s).
Proof.
  induction n as [|n IH]; intros s g Hn.
  - destruct s; [|simpl in Hn; lia]. simpl. split; [lia | discriminate].
  - destruct (match_group s) as [[b r]|] eqn:E.
    + pose proof (match_group_shorter _ _ _ E) as L.
      rewrite (re_sub_group _ _ _ g E). cbn [fst]. rewrite length_app.
      pose proof (replace_spin_length b g).
      destruct (IH r (snd (replace_spin b g))) as [H1 _]; [lia|].
      split; [lia | intros _; lia].
    + destruct s as [|c s]; [simpl; split; [lia | discriminate]|].
      rewrite (re_sub_char _ _ g E). simpl in Hn |- *.
      destruct (IH s g) as [H1 H2]; [lia|].
      split; [lia|]. unfold match_group in E. fold (match_group (c :: s)) in E.
      change (match_group (c :: s) = None) in E.
      intros R. assert (R' : re_search s = true).
      { revert R. simpl. fold (match_group (c :: s)). now rewrite E. }
      specialize (H2 R'). lia.
Qed.

(** [re.sub] as the scan it is: at each position either the pattern
    matches and the pass jumps over the match, or one character is kept. *)
Lemma re_sub_eq (s : text) (g : rng) :
  re_sub s g =
  match match_group s with
  | Some (b, r) =>
      (fst (replace_spin b g) ++ fst (re_sub r (snd (replace_spin b g))),
       snd (re_sub r (snd (replace_spin b g))))
  | None => match s with
            | [] => ([], g)
            | c :: s' => (c :: fst (re_sub s' g), snd (re_sub s' g))
            end
  end.
Proof.
  destruct (match_group s) as [[b r]|] eqn:E.
  - now apply re_sub_group.
  - destruct s as [|c s]; [reflexivity | now apply re_sub_char].
Qed.

(** [re.search] finds a match exactly when the text holds a group. *)
Lemma re_search_iff (s : text) :
  re_search s = true <->
  exists pre b post,
    s = pre ++ "{"%char :: b ++ "}"%char :: post /\ b <> [] /\ plain b = true.
Proof.
  split.
  - induction s as [|c s IH].
    + discriminate.
    + cbn [re_search]. destruct (match_group (c :: s)) as [[b r]|] eqn:E.
      * intros _. apply match_group_iff in E. destruct E as (E & N & P).
        exists [], b, r. auto.
      * intros H. destruct (IH H) as (pre & b & post & -> & N & P).
        exists (c :: pre), b, post. auto.
  - intros (pre & b & post & -> & N & P).
    induction pre as [|c pre IH].
    + cbn [app re_search].
      now rewrite (proj2 (match_group_iff _ b post) (conj eq_refl (conj N P))).
    + change ((c :: pre) ++ "{"%char :: b ++ "}"%char :: post)
        with (c :: (pre ++ "{"%char :: b ++ "}"%char :: post)).
      cbn [re_search]. destruct (match_group _); [reflexivity | exact IH].
Qed.

Lemma spin_passes_enough (n : nat) : forall (m : nat) (s : text) (g : rng),
  length s <= n -> length s <= m -> spin_passes n s g = spin_passes m s g.
Proof.
  induction n as [|n IH]; intros m s g Hn Hm.
  - destruct s; [|simpl in Hn; lia]. destruct m; reflexivity.
  - destruct m as [|m].
    + destruct s; [reflexivity | simpl in Hm; lia].
    + cbn [spin_passes]. destruct (re_search s) eqn:R; [|reflexivity].
      destruct (re_sub_length (length s) s g (le_n _)) as [_ L].
      specialize (L R). destruct (re_sub s g) as [s' g']. cbn [fst] in L.
      apply IH; lia.
Qed.

(** The loop of [process_spintax] as the source has it: while the pattern
    is found, one more pass. *)
Lemma process_spintax_eq (s : text) (g : rng) :
  process_spintax s g =
  if re_search s
  then process_spintax (fst (re_sub s g)) (snd (re_sub s g))
  else (s, g).
Proof.
  unfold process_spintax. destruct s as [|c s]; [reflexivity|].
  cbn [length spin_passes]. destruct (re_search (c :: s)) eqn:R; [|reflexivity].
  destruct (re_sub_length (length (c :: s)) (c :: s) g (le_n _)) as [_ L].
  specialize (L R). destruct (re_sub (c :: s) g) as [s' g'].
  cbn [fst snd length] in *. apply spin_passes_enough; lia.
Qed.

Lemma spin_passes_done (n : nat) : forall (s : text) (g : rng),
  length s <= n -> re_search (fst (spin_passes n s g)) = false.
Proof.
  induction n as [|n IH]; intros s g Hn.
  - destruct s; [reflexivity | simpl in Hn; lia].
  - cbn [spin_passes]. destruct (re_search s) eqn:R; [|exact R].
    destruct (re_sub_length (length s) s g (le_n _)) as [_ L].
    specialize (L R). destruct (re_sub s g) as [s' g']. cbn [fst] in L.
    apply IH. lia.
Qed.

(** The loop ends with a text in which the pattern is not found. *)
Lemma process_spintax_done (s : text) (g : rng) :
  re_search (fst (process_spintax s g)) = false.
Proof. apply spin_passes_done. apply le_n. Qed.

Ltac case_draw :=
  match goal with
  | |- context [?k mod 2] =>
      let H := fresh in
      pose proof (Nat.mod_upper_bound k 2 ltac:(lia)) as H;
      destruct (k mod 2) as [|[|]]; [ | | lia]; clear H
  end.

Lemma nested_example (g : rng) :
  let out := fst (process_spintax (txt "{a|{b|c}}") g) in
  (out = txt "a" \/ out = txt "b" \/ out = txt "c") /\ plain out = true.
Proof.
  unfold process_spintax. cbn -[Nat.modulo nth].
  case_draw; cbn -[Nat.modulo]; case_draw; cbn; auto.
Qed.

Lemma plain_app (a b : text) : plain (a ++ b) = plain a && plain b.
Proof. apply forallb_app. Qed.

(** In a text without braces the pattern is not found. *)
Lemma re_search_plain (s : text) : plain s = true -> re_search s = false.
Proof.
  intros P. destruct (re_search s) eqn:R; [|reflexivity].
  apply re_search_iff in R. destruct R as (pre & b & post & -> & _ & _).
  rewrite plain_app in P. apply andb_prop in P. destruct P as [_ P].
  discriminate.
Qed.

(* ====================================================================== *)
(** * Properties: the template expander                                   *)
(* ====================================================================== *)

Lemma strip_prefix_shorter (old s rest : text) :
  old <> [] -> strip_prefix old s = Some rest -> length rest < length s.
Proof.
  intros N E. apply strip_prefix_app in E. subst s. rewrite length_app.
  destruct old; [congruence | simpl; lia].
Qed.

Lemma replace_from_enough (old new : text) (n : nat) :
  old <> [] -> forall (m : nat) (s : text),
  length s <= n -> length s <= m ->
  replace_from n old new s = replace_from m old new s.
Proof.
  intros N. induction n as [|n IH]; intros m s Hn Hm.
  - destruct s; [|simpl in Hn; lia]. destruct m; [reflexivity|].
    cbn [replace_from]. destruct old; [congruence | reflexivity].
  - destruct m as [|m].
    + destruct s; [|simpl in Hm; lia].
      cbn [replace_from]. destruct old; [congruence | reflexivity].
    + cbn [replace_from]. destruct (strip_prefix old s) as [rest|] eqn:E.
      * pose proof (strip_prefix_shorter _ _ _ N E).
        rewrite (IH m rest) by lia. reflexivity.
      * destruct s as [|c s]; [reflexivity|]. simpl in Hn, Hm.
        rewrite (IH m s) by lia. reflexivity.
Qed.

(** [str.replace] as the scan it is. *)
Lemma str_replace_eq (old new s : text) :
  old <> [] ->
  str_replace old new s =
  match strip_prefix old s with
  | Some rest => new ++ str_replace old new rest
  | None => match s with
            | [] => []
            | c :: s' => c :: str_replace old new s'
            end
  end.
Proof.
  intros N. unfold str_replace. destruct old as [|a old]; [congruence|].
  destruct s as [|c s]; [reflexivity|].
  cbn [length replace_from].
  destruct (strip_prefix (a :: old) (c :: s)) as [rest|] eqn:E.
  - pose proof (strip_prefix_shorter _ _ _ N E) as L. simpl in L.
    rewrite (replace_from_enough _ _ (length s) N (length rest)) by lia.
    reflexivity.
  - reflexivity.
Qed.

Lemma split_from_enough (old : text) (n : nat) :
  old <> [] -> forall (m : nat) (s : text),
  length s <= n -> length s <= m -> split_from n old s = split_from m old s.
Proof.
  intros N. induction n as [|n IH]; intros m s Hn Hm.
  - destruct s; [|simpl in Hn; lia]. destruct m; [reflexivity|].
    cbn [split_from]. destruct old; [congruence | reflexivity].
  - destruct m as [|m].
    + destruct s; [|simpl in Hm; lia].
      cbn [split_from]. destruct old; [congruence | reflexivity].
    + cbn [split_from]. destruct (strip_prefix old s) as [rest|] eqn:E.
      * pose proof (strip_prefix_shorter _ _ _ N E).
        rewrite (IH m rest) by lia. reflexivity.
      * destruct s as [|c s]; [reflexivity|]. simpl in Hn, Hm.
        rewrite (IH m s) by lia. reflexivity.
Qed.

Lemma str_split_eq (old s : text) :
  old <> [] ->
  str_split old s =
  match strip_prefix old s with
  | Some rest => [] :: str_split old rest
  | None => match s with
            | [] => [[]]
            | c :: s' => match str_split old s' with
                         | h :: t => (c :: h) :: t
                         | [] => [[c]]
                         end
            end
  end.
Proof.
  intros N. unfold str_split. destruct s as [|c s].
  - cbn [length split_from]. destruct old; [congruence | reflexivity].
  - cbn [length split_from].
    destruct (strip_prefix old (c :: s)) as [rest|] eqn:E.
    + pose proof (strip_prefix_shorter _ _ _ N E) as L. simpl in L.
      rewrite (split_from_enough _ (length s) N (length rest)) by lia.
      reflexivity.
    + reflexivity.
Qed.

Lemma str_split_cons (old s : text) : old <> [] -> str_split old s <> [].
Proof.
  intros N. rewrite (str_split_eq _ _ N).
  destruct (strip_prefix old s); [discriminate|].
  destruct s; [discriminate|]. destruct (str_split old s); discriminate.
Qed.

Lemma join_cons_head (sep : text) (c : ascii) (h : text) (t : list text) :
  join sep ((c :: h) :: t) = c :: join sep (h :: t).
Proof. destruct t; reflexivity. Qed.

Lemma join_nil_head (sep : text) (t : list text) :
  t <> [] -> join sep ([] :: t) = sep ++ join sep t.
Proof. destruct t; [congruence | reflexivity]. Qed.

(** A statement about every text, by induction on its length. *)
Lemma by_length (P : text -> Prop) :
  (forall s, (forall s', length s' < length s -> P s') -> P s) ->
  forall s, P s.
Proof.
  intros H s. assert (G : forall n s, length s < n -> P s).
  { induction n as [|n IH]; intros s0 L; [lia|].
    apply H. intros s' L'. apply IH. lia. }
  apply (G (S (length s))). lia.
Qed.

(** Replacing is splitting at the occurrences and joining with the new
    text. *)
Lemma str_replace_join (old new : text) :
  old <> [] -> forall s,
  str_replace old new s = join new (str_split old s).
Proof.
  intros N. apply by_length. intros s IH.
  rewrite (str_replace_eq _ _ _ N), (str_split_eq _ _ N).
  destruct (strip_prefix old s) as [rest|] eqn:E.
  - rewrite (join_nil_head _ _ (str_split_cons _ rest N)).
    rewrite IH; [reflexivity | now apply (strip_prefix_shorter old)].
  - destruct s as [|c s]; [reflexivity|].
    rewrite IH by (simpl; lia).
    pose proof (str_split_cons old s N).
    destruct (str_split old s) as [|h t]; [congruence|].
    now rewrite join_cons_head.
Qed.

(** The parts, joined with the old text, are the text that was split. *)
Lemma str_split_join (old : text) :
  old <> [] -> forall s, join old (str_split old s) = s.
Proof.
  intros N. apply by_length. intros s IH.
  rewrite (str_split_eq _ _ N).
  destruct (strip_prefix old s) as [rest|] eqn:E.
  - rewrite (join_nil_head _ _ (str_split_cons _ rest N)).
    rewrite IH by now apply (strip_prefix_shorter old).
    symmetry. now apply strip_prefix_app.
  - destruct s as [|c s]; [reflexivity|].
    pose proof (str_split_cons old s N).
    pose proof (IH s ltac:(simpl; lia)) as J.
    destruct (str_split old s) as [|h t]; [congruence|].
    now rewrite join_cons_head, J.
Qed.

Lemma join_head (sep h : text) (t : list text) :
  exists x, join sep (h :: t) = h ++ x.
Proof.
  destruct t as [|p t].
  - exists []. simpl. now rewrite app_nil_r.
  - eexists. reflexivity.
Qed.

Lemma strip_prefix_extend (p s r x : text) :
  strip_prefix p s = Some r -> strip_prefix p (s ++ x) = Some (r ++ x).
Proof.
  intros E. apply strip_prefix_app in E. subst s.
  apply strip_prefix_app. now rewrite app_assoc.
Qed.

(** No part holds an occurrence of the old text: the split is at every
    occurrence the scan meets. *)
Lemma str_split_parts (old : text) :
  old <> [] -> forall s p, In p (str_split old s) -> contains old p = false.
Proof.
  intros N. apply (by_length (fun s => forall p, In p (str_split old s) ->
                                        contains old p = false)).
  intros s IH p. rewrite (str_split_eq _ _ N).
  assert (Z0 : contains old [] = false).
  { destruct old; [congruence | reflexivity]. }
  destruct (strip_prefix old s) as [rest|] eqn:E.
  - intros [<-|H]; [exact Z0|].
    apply (IH rest); [now apply (strip_prefix_shorter old) | exact H].
  - destruct s as [|c s]; [intros [<-|[]]; exact Z0|].
    pose proof (str_split_cons old s N).
    pose proof (str_split_join old N s) as J.
    specialize (IH s ltac:(simpl; lia)).
    destruct (str_split old s) as [|h t]; [congruence|].
    intros [<-|H'].
    + cbn [contains].
      destruct (strip_prefix old (c :: h)) as [r|] eqn:F.
      * destruct (join_head old h t) as [x Hx]. rewrite Hx in J.
        apply (strip_prefix_extend _ _ _ x) in F.
        simpl in F. rewrite J in F. congruence.
      * apply IH. now left.
    + apply IH. now right.
Qed.

(** Without an occurrence nothing is replaced. *)
Lemma str_replace_absent (old new : text) :
  old <> [] -> forall s, contains old s = false -> str_replace old new s = s.
Proof.
  intros N. induction s as [|c s IH]; intros C.
  - rewrite (str_replace_eq _ _ _ N).
    destruct old; [congruence | reflexivity].
  - rewrite (str_replace_eq _ _ _ N). cbn [contains] in C.
    destruct (strip_prefix old (c :: s)); [discriminate|].
    now rewrite IH.
Qed.

Lemma contains_eq (needle hay : text) :
  contains needle hay =
  match strip_prefix needle hay with
  | Some _ => true
  | None => match hay with
            | [] => false
            | _ :: hay' => contains needle hay'
            end
  end.
Proof. destruct hay; reflexivity. Qed.

(** [needle in hay] holds exactly when [hay] has [needle] somewhere. *)
Lemma contains_iff (needle hay : text) :
  contains needle hay = true <->
  exists pre post, hay = pre ++ needle ++ post.
Proof.
  split.
  - induction hay as [|c hay IH]; rewrite contains_eq.
    + destruct (strip_prefix needle []) as [r|] eqn:E; [|discriminate].
      intros _. apply strip_prefix_app in E. now exists [], r.
    + destruct (strip_prefix needle (c :: hay)) as [r|] eqn:E.
      * intros _. apply strip_prefix_app in E. now exists [], r.
      * intros H. destruct (IH H) as (pre & post & ->).
        now exists (c :: pre), post.
  - intros (pre & post & ->). induction pre as [|c pre IH].
    + rewrite contains_eq. cbn [app].
      now rewrite (proj2 (strip_prefix_app needle (needle ++ post) post) eq_refl).
    + rewrite contains_eq. destruct (strip_prefix needle _); [reflexivity|].
      exact IH.
Qed.

Lemma placeholder_form (key : text) :
  placeholder key = "{"%char :: "{"%char :: key ++ ["}"%char; "}"%char].
Proof. reflexivity. Qed.

Lemma placeholder_cons (key : text) : placeholder key <> [].
Proof. rewrite placeholder_form. discriminate. Qed.

Lemma plain_no_open (s : text) :
  plain s = true -> existsb (Ascii.eqb "{"%char) s = false.
Proof.
  induction s as [|c s IH]; [reflexivity|].
  unfold plain. cbn [forallb existsb]. intros H.
  apply andb_prop in H. destruct H as [Hc Hs]. rewrite (IH Hs).
  destruct (Ascii.eqb_spec "{"%char c) as [<-|_]; [discriminate | reflexivity].
Qed.

(** Two runs without braces that are both followed by a closing brace. *)
Lemma plain_until_close (a b x y : text) :
  plain a = true -> plain b = true ->
  a ++ "}"%char :: x = b ++ "}"%char :: y -> a = b.
Proof.
  revert b. induction a as [|c a IH]; intros b Pa Pb E.
  - destruct b as [|d b]; [reflexivity|]. simpl in E. inversion E. subst d.
    discriminate.
  - destruct b as [|d b]; simpl in E; inversion E; subst.
    + discriminate.
    + simpl in Pa, Pb. apply andb_prop in Pa. apply andb_prop in Pb.
      f_equal. now apply IH.
Qed.

(** The placeholder of a key does not occur in the placeholder of another
    name. *)
Lemma placeholder_apart (key name : text) :
  plain key = true -> plain name = true -> name <> key ->
  contains (placeholder key) (placeholder name) = false.
Proof.
  intros Pk Pn N. destruct (contains _ _) eqn:C; [|reflexivity]. exfalso.
  apply contains_iff in C. destruct C as (pre & post & E).
  rewrite !placeholder_form in E. destruct pre as [|c1 pre].
  - cbn [app] in E. inversion E as [E']. rewrite <- app_assoc in E'.
    apply N. eapply plain_until_close; [exact Pn | exact Pk | exact E'].
  - cbn [app] in E. inversion E as [[E1 E']]. subst c1.
    destruct pre as [|c2 pre].
    + cbn [app] in E'. inversion E' as [E'']. destruct name as [|c name].
      * discriminate.
      * inversion E''. subst c. discriminate.
    + cbn [app] in E'. inversion E' as [[E2 E'']].
      assert (O : existsb (Ascii.eqb "{"%char) (name ++ ["}"%char; "}"%char])
                  = false).
      { rewrite existsb_app, (plain_no_open _ Pn). reflexivity. }
      rewrite E'', existsb_app in O. simpl in O.
      rewrite orb_true_r in O. discriminate.
Qed.

(** Step 1 leaves a text without known placeholders as it is. *)
Lemma replace_variables_absent (variables : list (text * text)) (s : text) :
  (forall kv, In kv variables -> contains (placeholder (fst kv)) s = false) ->
  replace_variables s variables = s.
Proof.
  induction variables as [|[k v] rest IH]; intros H; [reflexivity|].
  cbn [replace_variables].
  rewrite (str_replace_absent _ _ (placeholder_cons k) s (H (k, v) (or_introl eq_refl))).
  apply IH. intros kv I. apply H. now right.
Qed.

Lemma replace_spin_single (b : text) (g : rng) :
  forallb (fun c => negb (Ascii.eqb c "|"%char)) b = true ->
  replace_spin b g = (b, stail g).
Proof.
  intros H. unfold replace_spin, random_choice.
  rewrite (split_on_absent _ _ H). cbn [length].
  now rewrite Nat.mod_1_r.
Qed.

(** The spintax step takes both pairs of braces off a name. *)
Lemma process_spintax_placeholder (name : text) (g : rng) :
  name <> [] -> plain name = true ->
  forallb (fun c => negb (Ascii.eqb c "|"%char)) name = true ->
  process_spintax (placeholder name) g = (name, stail (stail g)).
Proof.
  intros N P B. rewrite placeholder_form.
  assert (G1 : match_group ("{"%char :: name ++ ["}"%char; "}"%char])
               = Some (name, ["}"%char])).
  { apply match_group_iff. auto. }
  assert (G2 : match_group ("{"%char :: name ++ ["}"%char]) = Some (name, [])).
  { apply match_group_iff. auto. }
  assert (S1 : re_sub ("{"%char :: "{"%char :: name ++ ["}"%char; "}"%char]) g
               = ("{"%char :: name ++ ["}"%char], stail g)).
  { rewrite re_sub_eq. cbn [match_group span_plain is_brace Ascii.eqb Bool.eqb orb].
    rewrite re_sub_eq, G1, (replace_spin_single _ _ B). cbn [fst snd].
    reflexivity. }
  assert (S2 : re_sub ("{"%char :: name ++ ["}"%char]) (stail g)
               = (name, stail (stail g))).
  { rewrite re_sub_eq, G2, (replace_spin_single _ _ B). cbn [fst snd].
    rewrite re_sub_nil. cbn [fst snd]. now rewrite app_nil_r. }
  rewrite process_spintax_eq.
  rewrite (proj2 (re_search_iff _)) by
    (exists ["{"%char], name, ["}"%char]; auto).
  rewrite S1. cbn [fst snd]. rewrite process_spintax_eq.
  rewrite (proj2 (re_search_iff _)) by (exists [], name, []; auto).
  rewrite S2. cbn [fst snd]. rewrite process_spintax_eq.
  now rewrite (re_search_plain _ P).
Qed.

(* ====================================================================== *)
(** * Properties: the progress tracker                                    *)
(* ====================================================================== *)

Lemma strings_of_map (l : list text) : strings_of (map JStr l) = Some l.
Proof. induction l as [|s l IH]; simpl; [reflexivity | now rewrite IH]. Qed.

Lemma reasons_of_map (f : list (text * text)) :
  reasons_of (map (fun kv => (fst kv, JStr (snd kv))) f) = Some f.
Proof.
  induction f as [|[k v] f IH]; simpl; [reflexivity | now rewrite IH].
Qed.

Lemma opt_of_json_of_opt (o : option text) : opt_of_json (json_of_opt o) = Some o.
Proof. now destruct o. Qed.

(** What [_save] writes, [_load] reads back as the same ledger. *)
Lemma ledger_of_json_of_ledger (l : ledger) :
  ledger_of_json (json_of_ledger l) = Some l.
Proof.
  unfold json_of_ledger, ledger_of_json. rewrite !text_eqb_refl.
  cbn [andb]. rewrite strings_of_map, reasons_of_map, !opt_of_json_of_opt.
  now destruct l.
Qed.


(** A stored ledger loads without an exception. *)
Lemma _load_ledger (l : ledger) (data : json) (w : world) :
  progress_file w = Document (json_of_ledger l) ->
  _load data w =
  Ok (json_of_ledger l) w
     [Print (LoadedProgress (length (sent l)) (length (failed l)))].
Proof.
  intros E. unfold _load. rewrite E. cbn. now rewrite !length_map.
Qed.

Lemma strings_of_inv (s : list json) (s' : list text) :
  strings_of s = Some s' -> map JStr s' = s.
Proof.
  revert s'. induction s as [|[| | |x| |] s IH]; cbn; intros s' H;
    try discriminate.
  - now inversion H.
  - destruct (strings_of s) as [t|]; [|discriminate]. inversion H.
    cbn. f_equal. now apply IH.
Qed.

Lemma reasons_of_inv (f : list (text * json)) (f' : list (text * text)) :
  reasons_of f = Some f' -> map (fun kv => (fst kv, JStr (snd kv))) f' = f.
Proof.
  revert f'. induction f as [|[k [| | |x| |]] f IH]; cbn; intros f' H;
    try discriminate.
  - now inversion H.
  - destruct (reasons_of f) as [t|]; [|discriminate]. inversion H.
    cbn. f_equal. now apply IH.
Qed.

Lemma opt_of_json_inv (j : json) (o : option text) :
  opt_of_json j = Some o -> json_of_opt o = j.
Proof.
  destruct j; cbn; intros H; try discriminate; inversion H; reflexivity.
Qed.

(** A document read as a ledger is the document that ledger is written
    as. *)
Lemma ledger_of_json_inv (j : json) (l : ledger) :
  ledger_of_json j = Some l -> j = json_of_ledger l.
Proof.
  unfold ledger_of_json. intros E.
  destruct j as [| | | | |items]; try discriminate.
  destruct items as [|[k1 [| | |c| |]] items]; try discriminate.
  destruct items as [|[k2 [| | | |s|]] items]; try discriminate.
  destruct items as [|[k3 [| | | | |f]] items]; try discriminate.
  destruct items as [|[k4 lu] items]; try discriminate.
  destruct items as [|[k5 [| |n| | |]] items]; try discriminate.
  destruct items as [|[k6 dd] items]; try discriminate.
  destruct items; try discriminate.
  destruct (text_eqb k1 _) eqn:E1; [|discriminate].
  destruct (text_eqb k2 _) eqn:E2; [|discriminate].
  destruct (text_eqb k3 _) eqn:E3; [|discriminate].
  destruct (text_eqb k4 _) eqn:E4; [|discriminate].
  destruct (text_eqb k5 _) eqn:E5; [|discriminate].
  destruct (text_eqb k6 _) eqn:E6; [|discriminate].
  apply text_eqb_eq in E1, E2, E3, E4, E5, E6. subst. cbn [andb] in E.
  destruct (strings_of s) as [s'|] eqn:Hs; [|discriminate].
  destruct (reasons_of f) as [f'|] eqn:Hf; [|discriminate].
  destruct (opt_of_json lu) as [lu'|] eqn:Hlu; [|discriminate].
  destruct (opt_of_json dd) as [dd'|] eqn:Hdd; [|discriminate].
  inversion E. subst l. unfold json_of_ledger. cbn.
  now rewrite (strings_of_inv _ _ Hs), (reasons_of_inv _ _ Hf),
    (opt_of_json_inv _ _ Hlu), (opt_of_json_inv _ _ Hdd).
Qed.

Lemma stored_ledger_inv (f : file) (l : ledger) :
  stored_ledger f = Some l ->
  (f = Missing /\ l = default_data) \/ (f = Unparsable /\ l = default_data) \/
  f = Document (json_of_ledger l).
Proof.
  destruct f as [| | |j]; cbn; intros E; try (inversion E; now auto).
  right; right. f_equal. now apply ledger_of_json_inv.
Qed.

Lemma stored_ledger_document (l : ledger) :
  stored_ledger (Document (json_of_ledger l)) = Some l.
Proof. apply ledger_of_json_of_ledger. Qed.

(** When [ProgressTracker()] returns, the ledger is the one the file
    gives; the world is as it was and a line at most was printed. *)
Lemma ProgressTracker_inv (w w' : world) (l : ledger) (out : list event) :
  ProgressTracker w = Ok l w' out ->
  stored_ledger (progress_file w) = Some l /\ w' = w /\
  (out = [] \/ exists m, out = [Print m] /\
                         match m with PreviewLine _ _ _ => False | _ => True end).
Proof.
  unfold ProgressTracker, bind, _load.
  destruct (progress_file w) as [| | |j] eqn:F.
  - rewrite ledger_of_json_of_ledger. cbn. intros E. inversion E. auto.
  - discriminate.
  - rewrite ledger_of_json_of_ledger. cbn. intros E. inversion E.
    repeat split. right. now exists ProgressUnparsable.
  - destruct (subscript j _) as [?|s]; [discriminate|].
    destruct (py_len s) as [?|n1]; [discriminate|].
    destruct (subscript j _) as [?|f]; [discriminate|].
    destruct (py_len f) as [?|n2]; [discriminate|].
    destruct (ledger_of_json j) as [l'|] eqn:L; [|discriminate].
    cbn. intros E. inversion E. subst.
    split; [exact L|]. split; [reflexivity|]. right.
    now exists (LoadedProgress n1 n2).
Qed.

Lemma ProgressTracker_raise (w w' : world) (e : exn) (out : list event) :
  ProgressTracker w = Raise e w' out ->
  w' = w /\
  (out = [] \/ exists m, out = [Print m] /\
                         match m with PreviewLine _ _ _ => False | _ => True end).
Proof.
  unfold ProgressTracker, bind, _load.
  destruct (progress_file w) as [| | |j] eqn:F.
  - rewrite ledger_of_json_of_ledger. discriminate.
  - intros E. inversion E. auto.
  - rewrite ledger_of_json_of_ledger. discriminate.
  - destruct (subscript j _) as [?|s]; [intros E; inversion E; now auto|].
    destruct (py_len s) as [?|n1]; [intros E; inversion E; now auto|].
    destruct (subscript j _) as [?|f]; [intros E; inversion E; now auto|].
    destruct (py_len f) as [?|n2]; [intros E; inversion E; now auto|].
    destruct (ledger_of_json j) as [l'|] eqn:L; [discriminate|].
    cbn. intros E. inversion E. split; [reflexivity|]. right.
    now exists (LoadedProgress n1 n2).
Qed.

(** [_save] stamps the ledger and puts it in the progress file, through
    the temporary file. *)
Lemma _save_eq (self : ledger) (w : world) :
  let self' := with_last_updated self (Some (utc_stamp (shead (clock w)))) in
  _save self w =
  Ok self'
     (set_progress (Document (json_of_ledger self')) Missing
                   (set_clock (stail (clock w)) w))
     [WriteTemp; ReplaceProgress].
Proof. reflexivity. Qed.

Lemma lower_In (x : text) (l : list text) :
  mem (lower x) (map lower l) = true <-> exists s, In s l /\ lower s = lower x.
Proof.
  rewrite mem_In, in_map_iff. split; intros [s H]; exists s; tauto.
Qed.

(** [is_sent] compares the lower-case forms. *)
Lemma is_sent_iff (self : ledger) (e : text) :
  is_sent self e = true <-> exists s, In s (sent self) /\ lower s = lower e.
Proof. apply lower_In. Qed.

Lemma is_sent_false (self : ledger) (e : text) :
  is_sent self e = false <-> ~ In (lower e) (map lower (sent self)).
Proof.
  unfold is_sent. rewrite <- mem_In. now destruct (mem _ _).
Qed.

Lemma same_date_eq (d : option text) (today : text) :
  same_date d today = true <-> d = Some today.
Proof.
  destruct d as [t|]; cbn; [|split; discriminate].
  rewrite text_eqb_eq. split; congruence.
Qed.

(** [get_daily_count] only reads: the clock moves on, nothing else. *)
Lemma get_daily_count_eq (self : ledger) (w : world) :
  get_daily_count self w =
  Ok (if same_date (daily_date self) (utc_date (shead (clock w)))
      then daily_count self else 0%Z)
     (set_clock (stail (clock w)) w) [].
Proof.
  unfold get_daily_count, bind, now.
  now destruct (same_date _ _).
Qed.

Lemma mark_sent_eq (self : ledger) (e : text) (w : world) :
  let today := utc_date (shead (clock w)) in
  let counted :=
    if same_date (daily_date self) today
    then with_daily (with_sent self (sent self ++ [e]))
                    (daily_count self + 1) (daily_date self)
    else with_daily (with_sent self (sent self ++ [e])) 1 (Some today) in
  let w1 := set_clock (stail (clock w)) w in
  mark_sent self e w = _save counted w1.
Proof.
  unfold mark_sent, _update_daily_count, bind, now. cbn.
  destruct (same_date _ _); cbn; reflexivity.
Qed.

Lemma mark_sent_spec (self : ledger) (e : text) (w : world) :
  exists self' w',
    mark_sent self e w = Ok self' w' [WriteTemp; ReplaceProgress] /\
    sent self' = sent self ++ [e] /\ failed self' = failed self /\
    daily_date self' = Some (utc_date (shead (clock w))) /\
    daily_count self' =
      (if same_date (daily_date self) (utc_date (shead (clock w)))
       then daily_count self + 1 else 1)%Z /\
    progress_file w' = Document (json_of_ledger self') /\
    progress_tmp w' = Missing.
Proof.
  rewrite mark_sent_eq. cbv zeta. rewrite _save_eq. cbv zeta.
  do 2 eexists. split; [reflexivity|].
  destruct (same_date _ _) eqn:D; cbn; repeat split; try reflexivity.
  now apply same_date_eq.
Qed.

Lemma mark_failed_spec (self : ledger) (e reason : text) (w : world) :
  exists self' w',
    mark_failed self e reason w = Ok self' w' [WriteTemp; ReplaceProgress] /\
    sent self' = sent self /\
    failed self' = dict_set e reason (failed self) /\
    daily_count self' = daily_count self /\
    daily_date self' = daily_date self /\
    progress_file w' = Document (json_of_ledger self') /\
    progress_tmp w' = Missing.
Proof.
  unfold mark_failed. rewrite _save_eq. cbv zeta.
  do 2 eexists. split; [reflexivity|]. cbn. repeat split; reflexivity.
Qed.

(* ====================================================================== *)
(** * Properties: the effects                                             *)
(* ====================================================================== *)

Lemma bind_eq (A B : Type) (m : M A) (f : A -> M B) (w : world) :
  bind m f w =
  match m w with
  | Ok a w1 o => prepend o (f a w1)
  | Raise e w1 o => Raise e w1 o
  end.
Proof. unfold bind. destruct (m w) as [a w1 o|e w1 o]; [|reflexivity].
  now destruct (f a w1). Qed.

Lemma bind_Ok (A B : Type) (m : M A) (f : A -> M B) (w w1 : world)
    (a : A) (o : list event) :
  m w = Ok a w1 o -> bind m f w = prepend o (f a w1).
Proof. intros E. now rewrite bind_eq, E. Qed.

(** When the progress file gives a ledger, [ProgressTracker()] returns
    it. *)
Lemma ProgressTracker_ok (w : world) (l : ledger) :
  stored_ledger (progress_file w) = Some l ->
  exists loaded,
    ProgressTracker w = Ok l w loaded /\
    (loaded = [] \/ loaded = [Print ProgressUnparsable] \/
     loaded = [Print (LoadedProgress (length (sent l)) (length (failed l)))]).
Proof.
  intros H. unfold ProgressTracker. rewrite bind_eq.
  destruct (stored_ledger_inv _ _ H) as [[F ->]|[[F ->]|F]].
  - unfold _load. rewrite F. exists []. split; [reflexivity | now left].
  - unfold _load. rewrite F. exists [Print ProgressUnparsable].
    split; [reflexivity | right; now left].
  - rewrite (_load_ledger l _ w F), ledger_of_json_of_ledger.
    eexists. split; [reflexivity | right; now right].
Qed.

Lemma final_prepend (A : Type) (o : list event) (r : result A) :
  final (prepend o r) = final r.
Proof. now destruct r. Qed.

Lemma events_prepend (A : Type) (o : list event) (r : result A) :
  events (prepend o r) = o ++ events r.
Proof. now destruct r. Qed.

Lemma prepend_nil (A : Type) (r : result A) : prepend [] r = r.
Proof. now destruct r. Qed.

Lemma with_random_eq (A : Type) (f : rng -> A * rng) (w : world) :
  with_random f w =
  Ok (fst (f (random w))) (set_random (snd (f (random w))) w) [].
Proof. unfold with_random. now destruct (f (random w)). Qed.

Lemma sends_app (a b : list event) : sends (a ++ b) = sends a ++ sends b.
Proof. apply flat_map_app. Qed.

Lemma delivered_app (a b : list event) :
  delivered (a ++ b) = delivered a ++ delivered b.
Proof. apply flat_map_app. Qed.

Lemma harmless_sends (out : list event) :
  forallb harmless out = true -> sends out = [] /\ delivered out = [].
Proof.
  induction out as [|e out IH]; [now split|]. cbn [forallb].
  intros H. apply andb_prop in H. destruct H as [He Ho].
  destruct (IH Ho) as [S D]. unfold sends, delivered in *.
  cbn [flat_map]. rewrite S, D. now destruct e.
Qed.

Lemma harmless_no_write (out : list event) :
  forallb harmless out = true -> forallb (fun e => negb (is_write e)) out = true.
Proof.
  induction out as [|e out IH]; [reflexivity|]. cbn [forallb].
  intros H. apply andb_prop in H. destruct H as [He Ho].
  rewrite (IH Ho). now destruct e.
Qed.

(* ====================================================================== *)
(** * Properties: the sending loop                                        *)
(* ====================================================================== *)

(** The loop calls [send_email] once for each recipient, in order; the
    addresses the service accepts are added to [sent], and after the loop
    the progress file holds the ledger. *)
Lemma send_loop_spec (sender_name subject_template body_template : text)
    (n : nat) (todo : list recipient) :
  forall (i : nat) (progress : ledger) (sent_count : nat) (w : world),
  stored_ledger (progress_file w) = Some progress ->
  exists progress' sent_count' w' out,
    send_loop sender_name subject_template body_template n i progress
              sent_count todo w
    = Ok (progress', sent_count') w' out /\
    sends out = map email todo /\
    sent progress' = sent progress ++ delivered out /\
    stored_ledger (progress_file w') = Some progress'.
Proof.
  induction todo as [|r rest IH]; intros i progress sent_count w Hst.
  - exists progress, sent_count, w, []. cbn. rewrite app_nil_r. auto.
  - cbn [send_loop].
    rewrite (bind_Ok _ _ _ _ _ _ _ _ (with_random_eq _ _ w)). rewrite prepend_nil.
    destruct (build_message _ _ _ _) as [[subject body] g']. cbn [fst snd].
    rewrite bind_eq. cbn [print log prepend].
    rewrite bind_eq. cbn [send_email].
    set (w1 := set_random g' w).
    set (w2 := set_gmail (stail (gmail w1)) w1).
    assert (T : exists progress1 c1 w3 out1,
      (match shead (gmail w1) with
       | None => p <- mark_sent progress (email r) ;;
                 print SentOk ;; ret (p, S sent_count)
       | Some error_msg =>
           p <- mark_failed progress (email r) error_msg ;;
           print (SendFailed error_msg) ;;
           (if rate_limited error_msg
            then print RateLimitHit ;; wait_with_countdown (Cooldown 300)
            else ret tt) ;;
           ret (p, sent_count)
       end) w2 = Ok (progress1, c1) w3 out1 /\
      sends out1 = [] /\ delivered out1 = [] /\
      sent progress1 = sent progress
                       ++ delivered [SendEmail (email r) subject body
                                       sender_name (shead (gmail w1))] /\
      stored_ledger (progress_file w3) = Some progress1).
    { destruct (shead (gmail w1)) as [msg|].
      - destruct (mark_failed_spec progress (email r) msg w2)
          as (p & w3 & E & Hs & _ & _ & _ & F & _).
        rewrite (bind_Ok _ _ _ _ _ _ _ _ E).
        destruct (rate_limited msg); cbn;
          exists p, sent_count, w3; eexists; (split; [reflexivity|]);
          rewrite F, stored_ledger_document, Hs, app_nil_r; auto.
      - destruct (mark_sent_spec progress (email r) w2)
          as (p & w3 & E & Hs & _ & _ & _ & F & _).
        rewrite (bind_Ok _ _ _ _ _ _ _ _ E). cbn.
        exists p, (S sent_count), w3. eexists. split; [reflexivity|].
        rewrite F, stored_ledger_document, Hs. auto. }
    destruct T as (progress1 & c1 & w3 & out1 & E1 & S1 & D1 & Hs1 & F1).
    rewrite (bind_Ok _ _ _ _ _ _ _ _ E1).
    assert (W : exists w4 out2,
      (if i <? n then delay <- calculate_delay ;; wait_with_countdown delay
       else ret tt) w3 = Ok tt w4 out2 /\
      sends out2 = [] /\ delivered out2 = [] /\
      progress_file w4 = progress_file w3).
    { destruct (i <? n); cbn; do 2 eexists; (split; [reflexivity|]); auto. }
    destruct W as (w4 & out2 & E2 & S2 & D2 & F2).
    rewrite (bind_Ok _ _ _ _ _ _ _ _ E2).
    rewrite <- F2 in F1.
    destruct (IH (S i) progress1 c1 w4 F1)
      as (progress' & c' & w' & out & E & So & Do & Fo).
    rewrite E. cbn [prepend].
    exists progress', c', w'. eexists. split; [reflexivity|].
    split; [|split; [|exact Fo]].
    + repeat rewrite sends_app. rewrite S1, S2, So. reflexivity.
    + repeat rewrite delivered_app. rewrite D1, D2, Do, Hs1.
      cbn [delivered flat_map app]. now rewrite !app_nil_r, <- !app_assoc.
Qed.

(* ====================================================================== *)
(** * Properties: computations that only read and print                   *)
(* ====================================================================== *)

Lemma previews_le (k k' : nat) (A : Type) (m : M A) :
  k <= k' -> previews k m -> previews k' m.
Proof.
  intros L H w. destruct (H w) as (H1 & H2 & H3 & H4).
  repeat split; try assumption. lia.
Qed.

Lemma previews_ret (A : Type) (a : A) : previews 0 (ret a).
Proof. intros w. cbn. auto. Qed.

Lemma previews_raise (A : Type) (e : exn) : previews 0 (@raise A e).
Proof. intros w. cbn. auto. Qed.

Lemma previews_print (m : message) :
  notice (Print m) = true -> previews 0 (print m).
Proof. intros N w. cbn. destruct m; try discriminate; cbn; auto. Qed.

Lemma previews_line (i : nat) (r : recipient) (subject : text) :
  previews 1 (print (PreviewLine i r subject)).
Proof. intros w. cbn. auto. Qed.

Lemma previews_with_random (A : Type) (f : rng -> A * rng) :
  previews 0 (with_random f).
Proof. intros w. rewrite with_random_eq. cbn. auto. Qed.

Lemma previews_bind (k1 k2 : nat) (A B : Type) (m : M A) (f : A -> M B) :
  previews k1 m -> (forall a, previews k2 (f a)) ->
  previews (k1 + k2) (bind m f).
Proof.
  intros Hm Hf w. rewrite bind_eq. specialize (Hm w).
  destruct (m w) as [a w1 o|e w1 o]; cbn [events final] in Hm.
  - destruct Hm as (H1 & H2 & H3 & H4).
    destruct (Hf a w1) as (G1 & G2 & G3 & G4).
    rewrite final_prepend, events_prepend, forallb_app, filter_app, length_app.
    rewrite H1, G1, G3, G4. repeat split; try assumption. lia.
  - destruct Hm as (H1 & H2 & H3 & H4). cbn [events final].
    repeat split; try assumption. lia.
Qed.

(** The usual case: a step without preview lines, then the rest. *)
Lemma previews_then (k : nat) (A B : Type) (m : M A) (f : A -> M B) :
  previews 0 m -> (forall a, previews k (f a)) -> previews k (bind m f).
Proof. apply (previews_bind 0 k). Qed.

Lemma previews_load_config : previews 0 load_config.
Proof. intros w. unfold load_config. destruct (config_file w); cbn; auto. Qed.

Lemma previews_load_template : previews 0 load_template.
Proof. intros w. unfold load_template. destruct (template_file w); cbn; auto. Qed.

Lemma previews_authenticate : previews 0 authenticate.
Proof. intros w. unfold authenticate. destruct (credentials_ok w); cbn; auto. Qed.

Lemma previews_ProgressTracker : previews 0 ProgressTracker.
Proof.
  intros w. destruct (ProgressTracker w) as [l w' out|e w' out] eqn:E.
  - destruct (ProgressTracker_inv _ _ _ _ E) as (_ & -> & [->|(m & -> & N)]);
      cbn; auto. destruct m; cbn; auto. contradiction.
  - destruct (ProgressTracker_raise _ _ _ _ E) as (-> & [->|(m & -> & N)]);
      cbn; auto. destruct m; cbn; auto. contradiction.
Qed.

Lemma previews_get_daily_count (self : ledger) :
  previews 0 (get_daily_count self).
Proof. intros w. rewrite get_daily_count_eq. cbn. auto. Qed.

Lemma previews_fetch_from_mongodb (cfg : config) :
  previews 0 (fetch_from_mongodb cfg).
Proof.
  unfold fetch_from_mongodb. destruct (cfg_mongodb cfg) as [mc|];
    [|apply previews_ret].
  destruct (mongo_enabled mc); cbn [negb]; [|apply previews_ret].
  destruct (mongo_keys mc) as [[db_name coll_name]|]; [|apply previews_raise].
  apply previews_then; [now apply previews_print|]. intros _ w.
  destruct (mongo w) as [|steps]; [cbn; auto|].
  destruct (record_cursor _ _ _ _ _) as [rs []]; cbn; auto.
Qed.

Lemma previews_fetch_from_json : previews 0 fetch_from_json.
Proof.
  intros w. unfold fetch_from_json.
  destruct (emails_file w) as [| | |data]; try (cbn; now auto).
  destruct (py_get _ _ _) as [?|v]; [cbn; now auto|].
  destruct (py_iter v) as [?|entries]; [cbn; now auto|].
  destruct (record_all _ _ _ _ _) as [rs []]; cbn; auto.
Qed.

Lemma previews_fetch_recipients (cfg : config) :
  previews 0 (fetch_recipients cfg).
Proof.
  unfold fetch_recipients.
  apply previews_then; [apply previews_fetch_from_mongodb|]. intros m.
  apply previews_then; [apply previews_fetch_from_json|]. intros j.
  apply previews_then; [apply previews_with_random|]. intros rs.
  apply previews_then; [now apply previews_print|]. intros _.
  apply previews_ret.
Qed.

Lemma previews_preview_lines (subject_template body_template : text)
    (shown : list recipient) :
  forall i, previews (length shown)
                     (preview_lines subject_template body_template i shown).
Proof.
  induction shown as [|r rest IH]; intros i; cbn [preview_lines length].
  - apply previews_ret.
  - apply previews_then; [apply previews_with_random|]. intros [subject body].
    apply (previews_bind 1 (length rest)); [apply previews_line|].
    intros _. apply IH.
Qed.

Lemma slice_to_length (A : Type) (l : list A) (n : Z) :
  (0 <= n)%Z -> Z.of_nat (length (slice_to l n)) = Z.min n (Z.of_nat (length l)).
Proof.
  intros H. unfold slice_to. destruct (Z.leb_spec 0 n); [|lia].
  rewrite length_firstn. lia.
Qed.

(** The dry run prints at most 20 preview lines and touches nothing. *)
Lemma previews_dry_run (sender_name subject_template body_template : text)
    (pending : list recipient) :
  previews 20 (dry_run_preview sender_name subject_template body_template
                               pending).
Proof.
  unfold dry_run_preview.
  apply previews_then; [now apply previews_print|]. intros _.
  apply (previews_bind 20 0).
  - apply (previews_le (length (slice_to pending 20))).
    + pose proof (slice_to_length _ pending 20 ltac:(lia)). lia.
    + apply previews_preview_lines.
  - intros _. apply previews_then.
    + destruct (20 <? length pending);
        [now apply previews_print | apply previews_ret].
    + intros _. destruct pending as [|sample rest]; [apply previews_raise|].
      apply previews_then; [apply previews_with_random|].
      intros [subject body]. now apply previews_print.
Qed.

(** The part of [run_campaign] before the dry run and the sending loop
    only reads and prints; a dry run as a whole does. *)
Lemma previews_run_campaign_dry (limit : option Z) (test_email : option text) :
  previews 20 (run_campaign true limit test_email).
Proof.
  unfold run_campaign.
  apply previews_then; [now apply previews_print|]. intros _.
  apply previews_then; [apply previews_load_config|]. intros cfg.
  apply previews_then; [apply previews_load_template|]. intros [st bt].
  apply previews_then; [apply previews_ProgressTracker|]. intros progress.
  apply previews_then; [apply previews_get_daily_count|]. intros daily_count.
  destruct (_ >=? _)%Z;
    [apply (previews_le 0); [lia | now apply previews_print]|].
  apply previews_then; [now apply previews_print|]. intros _.
  apply previews_then.
  { destruct (test_email_given test_email).
    - apply previews_then; [now apply previews_print | intros; apply previews_ret].
    - apply previews_then; [now apply previews_print|].
      intros; apply previews_fetch_recipients. }
  intros recipients.
  destruct recipients as [|r0 rs];
    [apply (previews_le 0); [lia | now apply previews_print]|].
  cbv zeta.
  apply previews_then; [now apply previews_print|]. intros _.
  destruct (filter _ _) as [|p0 ps];
    [apply (previews_le 0); [lia | now apply previews_print]|].
  apply previews_then.
  { destruct (limit_given limit); [now apply previews_print | apply previews_ret]. }
  intros _. apply previews_then.
  { destruct (_ >? _)%Z; [now apply previews_print | apply previews_ret]. }
  intros _. apply previews_dry_run.
Qed.

(* ====================================================================== *)
(** * Properties: the recipients differ                                   *)
(* ====================================================================== *)

Lemma lower_char_idem (c : ascii) : lower_char (lower_char c) = lower_char c.
Proof. destruct c as [[] [] [] [] [] [] [] []]; reflexivity. Qed.

Lemma lower_idem (s : text) : lower (lower s) = lower s.
Proof.
  unfold lower. rewrite map_map. apply map_ext. apply lower_char_idem.
Qed.

Lemma dict_has_In (A : Type) (k : text) (d : list (text * A)) :
  dict_has k d = true <-> In k (map fst d).
Proof.
  unfold dict_has. induction d as [|[k' v] d IH]; cbn.
  - split; [discriminate | contradiction].
  - destruct (text_eqb k k') eqn:E.
    + apply text_eqb_eq in E. subst. split; auto.
    + rewrite IH. split; [auto|]. intros [->|H]; [|exact H].
      rewrite text_eqb_refl in E. discriminate.
Qed.

Lemma dict_set_keys (A : Type) (k : text) (v : A) (d : list (text * A)) :
  map fst (dict_set k v d)
  = if dict_has k d then map fst d else map fst d ++ [k].
Proof.
  unfold dict_has. induction d as [|[k' v'] d IH]; cbn; [reflexivity|].
  destruct (text_eqb k k') eqn:E.
  - apply text_eqb_eq in E. now subst.
  - cbn. rewrite IH. now destruct (dict_get k d).
Qed.

Lemma dict_set_new (A : Type) (k : text) (v : A) (d : list (text * A)) :
  dict_has k d = false -> dict_set k v d = d ++ [(k, v)].
Proof.
  unfold dict_has. induction d as [|[k' v'] d IH]; cbn; [reflexivity|].
  destruct (text_eqb k k'); [discriminate|]. intros H. now rewrite IH.
Qed.

Lemma dict_set_Forall (A : Type) (P : text * A -> Prop) (k : text) (v : A)
    (d : list (text * A)) :
  P (k, v) -> Forall P d -> Forall P (dict_set k v d).
Proof.
  intros Hk. induction 1 as [|[k' v'] d Hx Hd IH]; cbn.
  - now constructor.
  - destruct (text_eqb k k'); constructor; assumption.
Qed.

Lemma keyed_nil : keyed [].
Proof. split; constructor. Qed.

(** [d[k] = v] keeps the dictionary well keyed. *)
Lemma keyed_dict_set (k : text) (v : recipient) (d : recipients) :
  email v = k -> lower k = k -> keyed d -> keyed (dict_set k v d).
Proof.
  intros E L [N F]. split.
  - rewrite dict_set_keys. destruct (dict_has k d) eqn:H; [exact N|].
    apply NoDup_app; [exact N | repeat constructor; intros [] |].
    intros x I [<-|[]]. apply dict_has_In in I. congruence.
  - apply dict_set_Forall; [cbn; auto | exact F].
Qed.

Lemma record_entry_keyed (email_field name_field tag : text)
    (rs rs' : recipients) (entry : json) :
  keyed rs ->
  record_entry email_field name_field tag rs entry = inr rs' -> keyed rs'.
Proof.
  intros K. unfold record_entry.
  destruct (py_get entry email_field JNull) as [?|[| | |raw| |]];
    try discriminate; try (intros E; inversion E; now subst).
  destruct raw as [|c raw]; [intros E; inversion E; now subst|].
  destruct (lower (strip (c :: raw))) as [|c' e] eqn:L;
    [intros E; inversion E; now subst|].
  destruct (contains _ _); cbn [negb]; [|intros E; inversion E; now subst].
  destruct (dict_has _ rs); [intros E; inversion E; now subst|].
  destruct (py_get entry name_field JNull) as [?|full_name]; [discriminate|].
  destruct (extract_first_name full_name) as [?|fn]; [discriminate|].
  intros E. inversion E. subst rs'.
  apply keyed_dict_set; [reflexivity | | exact K].
  rewrite <- L. apply lower_idem.
Qed.

Lemma record_all_keyed (email_field name_field tag : text)
    (entries : list json) :
  forall rs, keyed rs ->
  keyed (fst (record_all email_field name_field tag rs entries)).
Proof.
  induction entries as [|entry rest IH]; intros rs K; cbn; [exact K|].
  destruct (record_entry _ _ _ rs entry) as [?|rs'] eqn:E; [exact K|].
  apply IH. eapply record_entry_keyed; eassumption.
Qed.

Lemma record_cursor_keyed (email_field name_field tag : text)
    (steps : list cursor_step) :
  forall rs, keyed rs ->
  keyed (fst (record_cursor email_field name_field tag rs steps)).
Proof.
  induction steps as [|[d|] rest IH]; intros rs K; cbn; try exact K.
  destruct (record_entry _ _ _ rs (JObj d)) as [?|rs'] eqn:E; [exact K|].
  apply IH. eapply record_entry_keyed; eassumption.
Qed.

Lemma fetch_from_json_keyed (w w' : world) (rs : recipients)
    (out : list event) :
  fetch_from_json w = Ok rs w' out -> keyed rs.
Proof.
  unfold fetch_from_json.
  destruct (emails_file w) as [| | |data];
    try (intros E; inversion E; apply keyed_nil).
  destruct (py_get _ _ _) as [?|v]; [intros E; inversion E; apply keyed_nil|].
  destruct (py_iter v) as [?|entries];
    [intros E; inversion E; apply keyed_nil|].
  pose proof (record_all_keyed (txt "email") (txt "name") (txt "JSON")
                               entries [] keyed_nil) as K.
  destruct (record_all _ _ _ _ _) as [rs0 []]; intros E; inversion E;
    now subst.
Qed.

Lemma fetch_from_mongodb_keyed (cfg : config) (w w' : world) (rs : recipients)
    (out : list event) :
  fetch_from_mongodb cfg w = Ok rs w' out -> keyed rs.
Proof.
  unfold fetch_from_mongodb.
  destruct (cfg_mongodb cfg) as [mc|];
    [|intros E; inversion E; apply keyed_nil].
  destruct (mongo_enabled mc); cbn [negb];
    [|intros E; inversion E; apply keyed_nil].
  destruct (mongo_keys mc) as [[db_name coll_name]|]; [|discriminate].
  rewrite bind_eq. cbn [print log prepend].
  destruct (mongo w) as [|steps]; [intros E; inversion E; apply keyed_nil|].
  pose proof (record_cursor_keyed
                (or_default (mongo_email_field mc) (txt "email"))
                (or_default (mongo_name_field mc) (txt "name"))
                (txt "MongoDB") steps [] keyed_nil) as K.
  destruct (record_cursor _ _ _ _ _) as [rs0 []]; intros E; inversion E;
    now subst.
Qed.

Lemma dict_update_keyed (other : recipients) :
  forall d, keyed d -> keyed other -> keyed (dict_update d other).
Proof.
  unfold dict_update. induction other as [|[k v] other IH]; intros d K [N F];
    cbn; [exact K|].
  inversion N. inversion F as [|? ? [E L]]. subst. cbn in E, L.
  apply IH; [now apply keyed_dict_set | now split].
Qed.

Lemma merge_new_keyed (json_recipients : recipients) :
  forall d, keyed d -> keyed json_recipients ->
            keyed (merge_new d json_recipients).
Proof.
  induction json_recipients as [|[k v] rest IH]; intros d K [N F]; cbn;
    [exact K|].
  inversion N. inversion F as [|? ? [E L]]. subst. cbn in E, L.
  apply IH; [|now split].
  destruct (dict_has k d); [exact K | now apply keyed_dict_set].
Qed.

Lemma keyed_distinct (d : recipients) : keyed d -> distinct (map snd d).
Proof.
  intros [N F]. unfold distinct. rewrite map_map.
  replace (map (fun x => lower (email (snd x))) d) with (map fst d);
    [exact N|].
  induction F as [|[k r] d [E L] F IH]; [reflexivity|].
  cbn [map fst snd] in *. inversion N. subst. rewrite L. f_equal.
  now apply IH.
Qed.

Lemma set_nth_length (A : Type) (a : A) (l : list A) :
  forall i, length (set_nth i a l) = length l.
Proof.
  induction l as [|b l IH]; intros [|i]; cbn; try reflexivity.
  now rewrite IH.
Qed.

Lemma set_nth_middle (A : Type) (a b : A) (l1 l2 : list A) :
  set_nth (length l1) a (l1 ++ b :: l2) = l1 ++ a :: l2.
Proof. induction l1 as [|c l1 IH]; cbn; [reflexivity | now rewrite IH]. Qed.

Lemma swap_same (A : Type) (d x : A) (l1 l2 : list A) :
  swap d (length l1) (length l1) (l1 ++ x :: l2) = l1 ++ x :: l2.
Proof.
  unfold swap. now rewrite nth_middle, !set_nth_middle.
Qed.

Lemma swap_two (A : Type) (d x y : A) (m1 m2 l2 : list A) :
  swap d (length (m1 ++ y :: m2)) (length m1) ((m1 ++ y :: m2) ++ x :: l2)
  = m1 ++ x :: m2 ++ y :: l2.
Proof.
  unfold swap. rewrite nth_middle, set_nth_middle.
  rewrite <- !app_assoc. cbn [app]. now rewrite nth_middle, set_nth_middle.
Qed.

(** Changing the places of two elements rearranges the list. *)
Lemma swap_Permutation (A : Type) (d : A) (i j : nat) (l : list A) :
  j <= i -> i < length l -> Permutation l (swap d i j l).
Proof.
  intros Hj Hi.
  destruct (nth_split l d Hi) as (l1 & l2 & E & L1).
  revert E. generalize (nth i l d). intros x E. subst l i.
  destruct (Nat.eq_dec j (length l1)) as [->|N].
  - now rewrite swap_same.
  - assert (Hj' : j < length l1) by lia.
    destruct (nth_split l1 d Hj') as (m1 & m2 & E1 & M1).
    revert E1. generalize (nth j l1 d). intros y E1. subst l1 j.
    rewrite swap_two, <- app_assoc. cbn [app].
    apply Permutation_app_head.
    transitivity (x :: y :: m2 ++ l2).
    + symmetry. rewrite perm_swap. apply perm_skip.
      apply (Permutation_middle m2 l2 x).
    + apply perm_skip. apply (Permutation_middle m2 l2 y).
Qed.

Lemma shuffle_from_Permutation (A : Type) (d : A) (i : nat) :
  forall (x : list A) (g : rng),
  i < length x -> Permutation x (fst (shuffle_from d i x g)).
Proof.
  induction i as [|i IH]; intros x g H; cbn [shuffle_from fst];
    [reflexivity|].
  assert (J : shead g mod S (S i) <= S i).
  { pose proof (Nat.mod_upper_bound (shead g) (S (S i)) ltac:(lia)). lia. }
  transitivity (swap d (S i) (shead g mod S (S i)) x).
  - now apply swap_Permutation.
  - apply IH. unfold swap. rewrite !set_nth_length. lia.
Qed.

(** [random.shuffle] rearranges the list. *)
Lemma shuffle_Permutation (A : Type) (x : list A) (g : rng) :
  Permutation x (fst (shuffle x g)).
Proof.
  unfold shuffle. destruct x as [|d x]; [reflexivity|].
  apply shuffle_from_Permutation. cbn. lia.
Qed.

(** The recipients [fetch_recipients] returns differ, also up to case. *)
Lemma fetch_recipients_distinct (cfg : config) (w w' : world)
    (rs : list recipient) (out : list event) :
  fetch_recipients cfg w = Ok rs w' out -> distinct rs.
Proof.
  unfold fetch_recipients. rewrite bind_eq.
  destruct (fetch_from_mongodb cfg w) as [m w1 o1|] eqn:E1; [|discriminate].
  rewrite bind_eq.
  destruct (fetch_from_json w1) as [j w2 o2|] eqn:E2; [|discriminate].
  rewrite (bind_Ok _ _ _ _ _ _ _ _ (with_random_eq _ _ w2)).
  cbn [print log ret bind prepend app].
  intros E. inversion E. subst.
  unfold distinct.
  eapply Permutation_NoDup;
    [apply Permutation_map, shuffle_Permutation|].
  apply keyed_distinct, merge_new_keyed.
  - apply dict_update_keyed; [apply keyed_nil|].
    eapply fetch_from_mongodb_keyed; eassumption.
  - eapply fetch_from_json_keyed; eassumption.
Qed.

Lemma firstn_In (A : Type) (n : nat) (l : list A) (x : A) :
  In x (firstn n l) -> In x l.
Proof.
  revert l. induction n as [|n IH]; intros [|a l]; cbn; try tauto.
  intros [->|H]; [now left | right; now apply IH].
Qed.

Lemma NoDup_map_firstn (A B : Type) (f : A -> B) (n : nat) :
  forall l, NoDup (map f l) -> NoDup (map f (firstn n l)).
Proof.
  induction n as [|n IH]; intros [|a l] H; cbn; try constructor.
  - inversion H. subst. intros I. apply in_map_iff in I.
    destruct I as (x & Hx & I). apply firstn_In in I.
    match goal with N : ~ In _ _ |- _ => apply N end.
    rewrite <- Hx. now apply in_map.
  - inversion H. now apply IH.
Qed.

Lemma NoDup_map_filter (A B : Type) (f : A -> B) (p : A -> bool) :
  forall l, NoDup (map f l) -> NoDup (map f (filter p l)).
Proof.
  induction l as [|a l IH]; intros H; cbn; [constructor|].
  inversion H. subst. destruct (p a); [|now apply IH].
  cbn. constructor; [|now apply IH].
  intros I. apply in_map_iff in I. destruct I as (x & Hx & I).
  apply filter_In in I. destruct I as [I _].
  match goal with N : ~ In _ _ |- _ => apply N end.
  rewrite <- Hx. now apply in_map.
Qed.

(* ====================================================================== *)
(** * Properties: a run of the campaign                                   *)
(* ====================================================================== *)

Lemma faithful_prepend (limit : option Z) (f0 : file) (o : list event)
    (r : result unit) :
  forallb harmless o = true -> faithful limit f0 r ->
  faithful limit f0 (prepend o r).
Proof.
  intros H [[H1 H2]|(l & l' & rs & rem & H1 & H2 & H3 & H4 & H5)].
  - left. rewrite events_prepend, final_prepend, forallb_app, H, H1. auto.
  - right. exists l, l', rs, rem.
    rewrite events_prepend, final_prepend, sends_app, delivered_app.
    destruct (harmless_sends _ H) as [-> ->]. auto.
Qed.

Lemma faithful_quiet (limit : option Z) (k : nat) (m : M unit) (w : world) :
  previews k m -> faithful limit (progress_file w) (m w).
Proof. intros H. left. destruct (H w) as (H1 & _ & H3 & _). auto. Qed.

Lemma faithful_bind (limit : option Z) (f0 : file) (k : nat) (A : Type)
    (m : M A) (f : A -> M unit) (w : world) :
  previews k m -> progress_file w = f0 ->
  (forall a w1 o, m w = Ok a w1 o -> progress_file w1 = f0 ->
                  faithful limit f0 (f a w1)) ->
  faithful limit f0 (bind m f w).
Proof.
  intros Hm F Hf. rewrite bind_eq. destruct (Hm w) as (H1 & _ & H3 & _).
  destruct (m w) as [a w1 o|e w1 o] eqn:E; cbn [events final] in *.
  - apply faithful_prepend; [exact H1|]. apply (Hf a w1 o eq_refl). congruence.
  - left. cbn. split; [exact H1 | congruence].
Qed.

Lemma apply_limits_eq (limit : option Z) (rem : Z) (pending : list recipient) :
  cap_daily rem (apply_limit limit pending) = apply_limits limit rem pending.
Proof. reflexivity. Qed.

(** Every run is of one of the two kinds. *)
Lemma run_campaign_faithful (dry_run : bool) (limit : option Z)
    (test_email : option text) (w : world) :
  faithful limit (progress_file w) (run_campaign dry_run limit test_email w).
Proof.
  destruct dry_run.
  { apply (faithful_quiet limit 20), previews_run_campaign_dry. }
  unfold run_campaign. set (f0 := progress_file w).
  apply (faithful_bind limit f0 0); [now apply previews_print | reflexivity|].
  intros _ w1 _ _ F1.
  apply (faithful_bind limit f0 0); [apply previews_load_config | exact F1|].
  intros cfg w2 _ _ F2.
  apply (faithful_bind limit f0 0); [apply previews_load_template | exact F2|].
  intros [st bt] w3 _ _ F3.
  apply (faithful_bind limit f0 0); [apply previews_ProgressTracker | exact F3|].
  intros progress w4 o4 E4 F4.
  apply ProgressTracker_inv in E4. destruct E4 as (L & _ & _).
  rewrite F3 in L.
  apply (faithful_bind limit f0 0); [apply previews_get_daily_count | exact F4|].
  intros daily_count w5 _ _ F5.
  set (daily_limit := or_default (cfg_daily_limit cfg) 100%Z).
  destruct (Z.geb_spec daily_count daily_limit) as [G|G].
  { rewrite <- F5. apply (faithful_quiet limit 0). now apply previews_print. }
  cbv zeta.
  apply (faithful_bind limit f0 0); [now apply previews_print | exact F5|].
  intros _ w6 _ _ F6.
  apply (faithful_bind limit f0 0); [|exact F6|].
  { destruct (test_email_given test_email).
    - apply previews_then; [now apply previews_print | intros; apply previews_ret].
    - apply previews_then; [now apply previews_print|].
      intros; apply previews_fetch_recipients. }
  intros recipients w7 o7 E7 F7.
  assert (D : distinct recipients).
  { destruct (test_email_given test_email) as [e|].
    - cbn in E7. inversion E7. repeat constructor. intros [].
    - rewrite bind_eq in E7. cbn [print log prepend] in E7.
      destruct (fetch_recipients cfg w6) as [rs0 w0 o0|] eqn:R;
        [|discriminate].
      cbn [prepend] in E7. inversion E7. subst.
      eapply fetch_recipients_distinct; eassumption. }
  clear E7.
  destruct recipients as [|r0 rs].
  { rewrite <- F7. apply (faithful_quiet limit 0). now apply previews_print. }
  apply (faithful_bind limit f0 0); [now apply previews_print | exact F7|].
  intros _ w8 _ _ F8.
  fold (pending_of progress (r0 :: rs)).
  destruct (pending_of progress (r0 :: rs)) as [|p0 ps] eqn:P.
  { rewrite <- F8. apply (faithful_quiet limit 0). now apply previews_print. }
  rewrite <- P.
  apply (faithful_bind limit f0 0); [|exact F8|].
  { destruct (limit_given limit); [now apply previews_print | apply previews_ret]. }
  intros _ w9 _ _ F9.
  apply (faithful_bind limit f0 0); [|exact F9|].
  { destruct (_ >? _)%Z; [now apply previews_print | apply previews_ret]. }
  intros _ w10 _ _ F10.
  apply (faithful_bind limit f0 0); [apply previews_authenticate | exact F10|].
  intros _ w11 _ _ F11.
  apply (faithful_bind limit f0 0); [now apply previews_print | exact F11|].
  intros _ w12 _ _ F12.
  rewrite apply_limits_eq.
  set (todo := apply_limits limit (daily_limit - daily_count)
                            (pending_of progress (r0 :: rs))).
  assert (L12 : stored_ledger (progress_file w12) = Some progress)
    by now rewrite F12.
  destruct (send_loop_spec (or_default (cfg_sender_name cfg) (txt "Mailer"))
              st bt (length todo) todo 1 progress 0 w12 L12)
    as (progress' & cnt & w' & out & E & So & Do & Fo).
  rewrite (bind_Ok _ _ _ _ _ _ _ _ E).
  right. exists progress, progress', (r0 :: rs), (daily_limit - daily_count)%Z.
  cbn [print log prepend events final].
  rewrite sends_app, delivered_app. cbn [sends delivered flat_map sent_to
    delivered_to]. rewrite !app_nil_r.
  repeat split; try assumption. lia.
Qed.

(* ====================================================================== *)
(** * The spintax processor and the template expander: results           *)
(* ====================================================================== *)

(** C2. [process_spintax] runs passes of [re.sub] while the pattern is
    found. A pass scans the text from the left: where the pattern matches
    (an opening brace, a non-empty run without braces, a closing brace:
    an innermost group) the group is replaced by one of its options, the
    one the random source picks (every option is picked by some draw),
    and the scan goes on after the group; elsewhere the character is
    kept. The loop ends for every text, with a
    text that holds no group. In particular ["{a|{b|c}}"] gives ["a"],
    ["b"] or ["c"], without braces, whatever the random source draws. *)
Theorem process_spintax_resolves (s : text) (g : rng) :
  process_spintax s g =
    (if re_search s
     then process_spintax (fst (re_sub s g)) (snd (re_sub s g))
     else (s, g)) /\
  re_sub s g =
    match match_group s with
    | Some (b, r) =>
        (fst (replace_spin b g) ++ fst (re_sub r (snd (replace_spin b g))),
         snd (re_sub r (snd (replace_spin b g))))
    | None => match s with
              | [] => ([], g)
              | c :: s' => (c :: fst (re_sub s' g), snd (re_sub s' g))
              end
    end /\
  (forall b r, match_group s = Some (b, r) <->
               s = "{"%char :: b ++ "}"%char :: r /\ b <> [] /\
               plain b = true) /\
  (forall b, In (fst (replace_spin b g)) (split_on "|"%char b)) /\
  (forall b i, i < length (split_on "|"%char b) ->
               fst (replace_spin b (fun _ => i))
               = nth i (split_on "|"%char b) []) /\
  re_search (fst (process_spintax s g)) = false /\
  ~ (exists pre b post,
        fst (process_spintax s g) = pre ++ "{"%char :: b ++ "}"%char :: post /\
        b <> [] /\ plain b = true) /\
  (let out := fst (process_spintax (txt "{a|{b|c}}") g) in
   (out = txt "a" \/ out = txt "b" \/ out = txt "c") /\ plain out = true).
Proof.
  split; [apply process_spintax_eq|].
  split; [apply re_sub_eq|].
  split; [intros b r; apply match_group_iff|].
  split; [intros b; apply replace_spin_In|].
  split; [intros b i H; unfold replace_spin, random_choice, shead;
          cbn [fst]; now rewrite Nat.mod_small|].
  split; [apply process_spintax_done|].
  split; [|apply nested_example].
  intros H. apply re_search_iff in H.
  rewrite process_spintax_done in H. discriminate.
Qed.

Lemma process_spintax_resolves_witness :
  match_group (txt "{b|c}}") = Some (txt "b|c", txt "}").
Proof.
  apply (proj1 (proj2 (proj2 (process_spintax_resolves (txt "{b|c}}")
                                                        always_first)))).
  repeat split. discriminate.
Defined.

(** C3, the claim as it stands fails: the placeholder [{{foo}}] is not a
    known one, and the subject built from it is [foo], without the
    braces. *)
Lemma unknown_placeholder_loses_braces :
  let out := fst (fst (build_message (txt "Ana") (txt "{{foo}}") (txt "")
                                     always_first)) in
  contains (placeholder (txt "foo")) (txt "{{foo}}") = true /\
  out = txt "foo" /\
  contains (placeholder (txt "foo")) out = false.
Proof. vm_compute. auto. Qed.

(** C3, amended. Step 1, [replace_variables], goes through the mapping
    and replaces every occurrence of the placeholder of each known name
    with its value: the text is the parts of its split at the
    placeholder, joined by the placeholder; no part holds the
    placeholder; what goes on to the next name is the same parts joined
    by the value. A text that holds no known placeholder is returned as
    it is, so an unknown placeholder comes out of step 1 with both pairs
    of braces. Message building does this with the first name in the
    subject and in the body, and runs the spintax step on each, the
    subject first. The spintax step takes the braces off: a subject or a
    body that is the placeholder of an unknown name (not empty, without
    braces or bars) expands to the name alone. *)
Theorem build_message_placeholders :
  (forall key value rest s,
      let parts := str_split (placeholder key) s in
      replace_variables s ((key, value) :: rest)
      = replace_variables (join value parts) rest /\
      replace_variables s [(key, value)] = join value parts /\
      join (placeholder key) parts = s /\
      (forall p, In p parts -> contains (placeholder key) p = false)) /\
  (forall first_name subject_template body_template g,
      let substituted t :=
        join first_name (str_split (placeholder (txt "first_name")) t) in
      let subject := process_spintax (substituted subject_template) g in
      let body := process_spintax (substituted body_template) (snd subject) in
      build_message first_name subject_template body_template g
      = ((fst subject, fst body), snd body)) /\
  (forall variables s,
      (forall kv, In kv variables ->
                  contains (placeholder (fst kv)) s = false) ->
      replace_variables s variables = s) /\
  (forall first_name name other g,
      name <> [] -> plain name = true ->
      forallb (fun c => negb (Ascii.eqb c "|"%char)) name = true ->
      name <> txt "first_name" ->
      replace_variables (placeholder name) [(txt "first_name", first_name)]
      = placeholder name /\
      fst (fst (build_message first_name (placeholder name) other g)) = name /\
      snd (fst (build_message first_name other (placeholder name) g)) = name /\
      build_message first_name (placeholder name) (placeholder name) g
      = ((name, name), stail (stail (stail (stail g))))).
Proof.
  assert (B : forall first_name subject_template body_template g,
      let substituted t :=
        join first_name (str_split (placeholder (txt "first_name")) t) in
      let subject := process_spintax (substituted subject_template) g in
      let body := process_spintax (substituted body_template) (snd subject) in
      build_message first_name subject_template body_template g
      = ((fst subject, fst body), snd body)).
  { intros first_name st bt g. cbv zeta. unfold build_message.
    cbn [replace_variables].
    rewrite !(str_replace_join _ _ (placeholder_cons _)).
    destruct (process_spintax _ g) as [s1 g1]. cbn [fst snd].
    now destruct (process_spintax _ g1). }
  split; [|split; [exact B|split]].
  - intros key value rest s parts. pose proof (placeholder_cons key) as N.
    split; [cbn [replace_variables]; unfold parts;
            now rewrite (str_replace_join _ _ N)|].
    split; [apply (str_replace_join _ _ N)|].
    split; [apply (str_split_join _ N) | apply (str_split_parts _ N)].
  - apply replace_variables_absent.
  - intros first_name name other g N P Bar K.
    assert (R : replace_variables (placeholder name)
                  [(txt "first_name", first_name)] = placeholder name).
    { apply replace_variables_absent. intros kv [<-|[]]. cbn [fst].
      now apply placeholder_apart. }
    assert (J : join first_name
                     (str_split (placeholder (txt "first_name"))
                                (placeholder name)) = placeholder name).
    { rewrite <- (str_replace_join _ _ (placeholder_cons _)). exact R. }
    split; [exact R|]. rewrite !B. cbv zeta. rewrite !J. cbn [fst snd].
    repeat (rewrite process_spintax_placeholder by assumption;
            cbn [fst snd]).
    now conjs.
Qed.

Lemma build_message_placeholders_witness :
  replace_variables (txt "{{foo}}") [(txt "first_name", txt "Ana")]
  = txt "{{foo}}" /\
  fst (fst (build_message (txt "Ana") (placeholder (txt "foo")) (txt "Hi")
                          always_second)) = txt "foo" /\
  snd (fst (build_message (txt "Ana") (txt "Hi") (placeholder (txt "foo"))
                          always_second)) = txt "foo" /\
  replace_variables (txt "Dear {{name}}") [(txt "first_name", txt "Ana")]
  = txt "Dear {{name}}" /\
  contains (placeholder (txt "first_name")) (txt "Dear ") = false.
Proof.
  destruct build_message_placeholders as (H1 & _ & H3 & H4).
  split; [|split; [|split; [|split]]].
  - apply (H4 (txt "Ana") (txt "foo") (txt "Hi") always_second);
      [discriminate | reflexivity | reflexivity | discriminate].
  - apply (H4 (txt "Ana") (txt "foo") (txt "Hi") always_second);
      [discriminate | reflexivity | reflexivity | discriminate].
  - apply (H4 (txt "Ana") (txt "foo") (txt "Hi") always_second);
      [discriminate | reflexivity | reflexivity | discriminate].
  - apply H3. intros kv [<-|[]]. reflexivity.
  - apply (H1 (txt "first_name") (txt "Ana") [] (txt "Dear {{first_name}}")).
    vm_compute. auto.
Defined.

(* ====================================================================== *)
(** * The progress tracker: results                                       *)
(* ====================================================================== *)

(** C4, the claim as it stands fails: a progress file with the content
    [{}] parses, is not a ledger, and loading it raises [KeyError],
    which nothing catches. *)
Lemma load_empty_object_raises :
  let w := sample_world (Document (JObj [])) Missing in
  well_formed_ledger (progress_file w) = false /\
  _load (json_of_ledger default_data) w = Raise KeyError w [] /\
  ProgressTracker w = Raise KeyError w [] /\
  run_campaign false None None w = Raise KeyError w [Print Banner].
Proof. vm_compute. auto. Qed.

(** C4, amended. For every content of the progress file that the JSON
    parser rejects, loading keeps the empty default ledger, prints the
    warning and raises nothing. *)
Theorem load_unparsable_starts_fresh (w : world) :
  progress_file w = Unparsable ->
  _load (json_of_ledger default_data) w
  = Ok (json_of_ledger default_data) w [Print ProgressUnparsable] /\
  ProgressTracker w = Ok default_data w [Print ProgressUnparsable].
Proof.
  intros E. unfold ProgressTracker, bind, _load. rewrite E.
  rewrite ledger_of_json_of_ledger. auto.
Qed.

Lemma load_unparsable_starts_fresh_witness :
  ProgressTracker (sample_world Unparsable Missing)
  = Ok default_data (sample_world Unparsable Missing)
       [Print ProgressUnparsable].
Proof.
  apply (load_unparsable_starts_fresh (sample_world Unparsable Missing)).
  reflexivity.
Defined.

(** C7, the claim as it stands fails: [is_sent] does not trim, so the
    address with a space after it is not found in a ledger that lists the
    trimmed one. *)
Lemma is_sent_does_not_trim :
  let self := ledger_with_sent [txt "foo@bar.com"] in
  In (txt "foo@bar.com") (sent self) /\
  is_sent self (txt "Foo@Bar.com ") = false.
Proof. vm_compute. auto. Qed.

Lemma record_entry_known (email_field name_field tag raw : text)
    (rs : recipients) (entry : list (text * json)) :
  dict_get email_field entry = Some (JStr raw) ->
  dict_has (lower (strip raw)) rs = true ->
  record_entry email_field name_field tag rs (JObj entry) = inr rs.
Proof.
  intros G H. unfold record_entry, py_get. rewrite G.
  destruct raw as [|c raw]; [reflexivity|].
  destruct (lower (strip (c :: raw))) as [|c' e] eqn:E; [reflexivity|].
  destruct (contains _ _); [|reflexivity]. cbn [negb]. now rewrite H.
Qed.

(** An entry with an address that is not yet a key is stored under the
    trimmed, lower-case form of its address, after the recipients that
    are there. *)
Lemma record_entry_new (email_field name_field tag raw : text)
    (rs : recipients) (entry : list (text * json)) (fn : text) :
  dict_get email_field entry = Some (JStr raw) ->
  lower (strip raw) <> [] ->
  contains (txt "@") (lower (strip raw)) = true ->
  dict_has (lower (strip raw)) rs = false ->
  extract_first_name
    (match dict_get name_field entry with Some v => v | None => JNull end)
  = inr fn ->
  record_entry email_field name_field tag rs (JObj entry)
  = inr (rs ++ [(lower (strip raw),
                 {| email := lower (strip raw); first_name := fn;
                    source := tag |})]).
Proof.
  intros G N C H F. unfold record_entry, py_get. rewrite G.
  destruct raw as [|c raw]; [now elim N|].
  destruct (lower (strip (c :: raw))) as [|c' e] eqn:E; [now elim N|].
  rewrite C, H. cbn [negb].
  destruct (dict_get name_field entry); rewrite F;
    now rewrite (dict_set_new _ _ _ _ H).
Qed.

(** C7, amended. The fetchers key a recipient by the trimmed, lower-case
    form of the address: an entry whose address is new is stored under
    that form, with that form as its address, and an entry whose address
    has that form already is dropped; so ["Foo@Bar.com "] and
    ["foo@bar.com"] are one recipient there, the first of the two. The
    look-up in the sent set compares lower-case forms and does not trim:
    [is_sent] holds exactly when some entry of [sent] is the address up
    to case; ["Foo@Bar.com"] is found whenever ["foo@bar.com"] is in
    [sent], and the other way round. *)
Theorem lookup_keys (self : ledger) (e : text) :
  (is_sent self e = true <-> exists s, In s (sent self) /\ lower s = lower e) /\
  (In (txt "foo@bar.com") (sent self) ->
   is_sent self (txt "Foo@Bar.com") = true) /\
  (In (txt "Foo@Bar.com") (sent self) ->
   is_sent self (txt "foo@bar.com") = true) /\
  lower (strip (txt "Foo@Bar.com ")) = txt "foo@bar.com" /\
  (forall email_field name_field tag raw rs entry,
      dict_get email_field entry = Some (JStr raw) ->
      dict_has (lower (strip raw)) rs = true ->
      record_entry email_field name_field tag rs (JObj entry) = inr rs) /\
  (forall email_field name_field tag raw rs entry fn,
      dict_get email_field entry = Some (JStr raw) ->
      lower (strip raw) <> [] ->
      contains (txt "@") (lower (strip raw)) = true ->
      dict_has (lower (strip raw)) rs = false ->
      extract_first_name
        (match dict_get name_field entry with Some v => v | None => JNull end)
      = inr fn ->
      record_entry email_field name_field tag rs (JObj entry)
      = inr (rs ++ [(lower (strip raw),
                     {| email := lower (strip raw); first_name := fn;
                        source := tag |})])) /\
  (forall email_field name_field tag raw raw' rs entry entry' fn,
      dict_get email_field entry = Some (JStr raw) ->
      dict_get email_field entry' = Some (JStr raw') ->
      lower (strip raw') = lower (strip raw) ->
      lower (strip raw) <> [] ->
      contains (txt "@") (lower (strip raw)) = true ->
      dict_has (lower (strip raw)) rs = false ->
      extract_first_name
        (match dict_get name_field entry with Some v => v | None => JNull end)
      = inr fn ->
      record_all email_field name_field tag rs [JObj entry; JObj entry']
      = (rs ++ [(lower (strip raw),
                 {| email := lower (strip raw); first_name := fn;
                    source := tag |})], None)) /\
  (let w := sample_world Missing
              (emails_document [entry_of "Foo@Bar.com " "Foo";
                                entry_of "foo@bar.com" "Bar"]) in
   fetch_from_json w
   = Ok [(txt "foo@bar.com", person "foo@bar.com" "Foo")] w
        [Print (JsonFound 1)]).
Proof.
  split; [apply is_sent_iff|].
  split; [|split; [|split; [reflexivity
                           |split; [apply record_entry_known
                                   |split; [apply record_entry_new|split]]]]].
  - intros H. apply is_sent_iff. now exists (txt "foo@bar.com").
  - intros H. apply is_sent_iff. now exists (txt "Foo@Bar.com").
  - intros ef nf tag raw raw' rs entry entry' fn G G' Eq N C H F.
    cbn [record_all].
    rewrite (record_entry_new ef nf tag raw rs entry fn G N C H F).
    rewrite (record_entry_known ef nf tag raw' _ entry' G'); [reflexivity|].
    rewrite Eq. apply dict_has_In. rewrite map_app. apply in_or_app.
    right. now left.
  - vm_compute. reflexivity.
Qed.

Lemma lookup_keys_witness :
  is_sent (ledger_with_sent [txt "foo@bar.com"]) (txt "Foo@Bar.com") = true /\
  is_sent (ledger_with_sent [txt "Foo@Bar.com"]) (txt "foo@bar.com") = true /\
  record_entry (txt "email") (txt "name") (txt "JSON")
    [(txt "foo@bar.com", person "foo@bar.com" "Foo")]
    (entry_of "Foo@Bar.com " "Other")
  = inr [(txt "foo@bar.com", person "foo@bar.com" "Foo")] /\
  record_all (txt "email") (txt "name") (txt "JSON") []
    [entry_of "Foo@Bar.com " "Foo"; entry_of "foo@bar.com" "Bar"]
  = ([(txt "foo@bar.com", person "foo@bar.com" "Foo")], None).
Proof.
  split; [|split; [|split]].
  - apply (proj1 (proj2 (lookup_keys (ledger_with_sent [txt "foo@bar.com"])
                                     []))).
    cbn. auto.
  - apply (proj1 (proj2 (proj2 (lookup_keys
             (ledger_with_sent [txt "Foo@Bar.com"]) [])))).
    cbn. auto.
  - apply (proj1 (proj2 (proj2 (proj2 (proj2 (lookup_keys default_data [])))))
             (txt "email") (txt "name") (txt "JSON") (txt "Foo@Bar.com "));
      reflexivity.
  - apply (proj1 (proj2 (proj2 (proj2 (proj2 (proj2 (proj2
             (lookup_keys default_data [])))))))
             (txt "email") (txt "name") (txt "JSON") (txt "Foo@Bar.com ")
             (txt "foo@bar.com") []
             [(txt "email", JStr (txt "Foo@Bar.com "));
              (txt "name", JStr (txt "Foo"))]
             [(txt "email", JStr (txt "foo@bar.com"));
              (txt "name", JStr (txt "Bar"))]
             (txt "Foo"));
      try reflexivity. discriminate.
Defined.

Lemma stored_today_eq (data : list (text * json)) (today : text) :
  stored_today data today = true
  <-> dict_get (txt "daily_date") data = Some (JStr today).
Proof.
  unfold stored_today.
  destruct (dict_get (txt "daily_date") data) as [[| | |d| |]|];
    try (split; discriminate).
  rewrite text_eqb_eq. split; [now intros -> | intros H; now inversion H].
Qed.

(** A ledger of the six keys is read through [.get] as it is read
    through its fields. *)
Lemma ledger_data (l : ledger) (today : text) :
  exists items,
    json_of_ledger l = JObj items /\
    stored_today items today = same_date (daily_date l) today /\
    stored_count items = JNum (daily_count l) /\
    (forall n d,
        JObj (dict_set (txt "daily_count") (JNum n)
                       (dict_set (txt "daily_date") (JStr d) items))
        = json_of_ledger (with_daily l n (Some d))) /\
    (forall n, JObj (dict_set (txt "daily_count") (JNum n) items)
               = json_of_ledger (with_daily l n (daily_date l))).
Proof.
  eexists. split; [reflexivity|].
  split; [unfold stored_today; cbn; now destruct (daily_date l)|].
  split; [reflexivity|]. split; intros; reflexivity.
Qed.

(** C8. [get_daily_count] returns the stored counter when the stored
    date is today's UTC date and 0 when it is another date or none; it
    reads the clock and changes nothing else, the ledger and its file are
    as they were. [mark_sent] adds the address to [sent] and writes the
    ledger; it sets the date to today and the counter to 1 when the
    stored date was not today, and adds 1 to the counter when it was;
    [mark_failed] leaves both as they are. So within a day the counter
    never goes down while sends are recorded: while the date read does
    not change, the count read after a recorded send is one more than the
    count read before it. The same holds of the two methods on the
    dictionary as the source reads it, where a date that is missing is
    not today's and a counter that is missing counts as 0; on a ledger of
    the six keys the two readings agree. *)
Theorem daily_count_rules (self : ledger) (e : text) (w : world) :
  let today := utc_date (shead (clock w)) in
  let w1 := set_clock (stail (clock w)) w in
  (daily_date self = Some today ->
   get_daily_count self w = Ok (daily_count self) w1 []) /\
  (daily_date self <> Some today ->
   get_daily_count self w = Ok 0%Z w1 []) /\
  progress_file (final (get_daily_count self w)) = progress_file w /\
  (forall data,
      (dict_get (txt "daily_date") data = Some (JStr today) ->
       get_daily_count_data data w
       = Ok (match dict_get (txt "daily_count") data with
             | Some v => v
             | None => JNum 0
             end) w1 [] /\
       forall n, stored_count data = JNum n ->
                 _update_daily_count_data data w
                 = Ok (dict_set (txt "daily_count") (JNum (n + 1)) data) w1 [])
      /\
      (dict_get (txt "daily_date") data <> Some (JStr today) ->
       get_daily_count_data data w = Ok (JNum 0) w1 [] /\
       _update_daily_count_data data w
       = Ok (dict_set (txt "daily_count") (JNum 1)
                      (dict_set (txt "daily_date") (JStr today) data))
            w1 [])) /\
  (exists items,
      json_of_ledger self = JObj items /\
      (forall n w' o, get_daily_count self w = Ok n w' o <->
                      get_daily_count_data items w = Ok (JNum n) w' o) /\
      (forall self' w' o,
          _update_daily_count self w = Ok self' w' o ->
          exists items',
            _update_daily_count_data items w = Ok items' w' o /\
            json_of_ledger self' = JObj items')) /\
  exists self' w',
    mark_sent self e w = Ok self' w' [WriteTemp; ReplaceProgress] /\
    sent self' = sent self ++ [e] /\
    daily_date self' = Some today /\
    (daily_date self = Some today ->
     daily_count self' = (daily_count self + 1)%Z) /\
    (daily_date self <> Some today -> daily_count self' = 1%Z) /\
    progress_file w' = Document (json_of_ledger self') /\
    (forall n m w2 w3 o1 o2,
        utc_date (shead (clock w')) = today ->
        get_daily_count self w = Ok n w2 o1 ->
        get_daily_count self' w' = Ok m w3 o2 ->
        m = (n + 1)%Z) /\
    forall reason, exists self'' w'',
      mark_failed self e reason w
      = Ok self'' w'' [WriteTemp; ReplaceProgress] /\
      daily_count self'' = daily_count self /\
      daily_date self'' = daily_date self.
Proof.
  cbv zeta.
  assert (S : forall d t, same_date d t = true <-> d = Some t)
    by apply same_date_eq.
  assert (Sf : forall d t, d <> Some t -> same_date d t = false).
  { intros d t N. destruct (same_date d t) eqn:X; [|reflexivity].
    apply S in X. contradiction. }
  split; [intros D; rewrite get_daily_count_eq;
          now rewrite (proj2 (S _ _) D)|].
  split; [intros D; rewrite get_daily_count_eq; now rewrite (Sf _ _ D)|].
  split; [now rewrite get_daily_count_eq|].
  split.
  { intros data. split.
    - intros D. pose proof (proj2 (stored_today_eq _ _) D) as T.
      unfold get_daily_count_data, _update_daily_count_data, bind, now.
      cbn [shead]. rewrite T. cbn [negb ret app]. unfold stored_count.
      split; [reflexivity|]. intros n C. unfold stored_count in C.
      rewrite C. reflexivity.
    - intros D.
      assert (T : stored_today data (utc_date (shead (clock w))) = false).
      { destruct (stored_today data _) eqn:X; [|reflexivity].
        apply stored_today_eq in X. contradiction. }
      unfold get_daily_count_data, _update_daily_count_data, bind, now.
      cbn [shead]. rewrite T. split; reflexivity. }
  split.
  { destruct (ledger_data self (utc_date (shead (clock w))))
      as (items & J & T & C & U1 & U2).
    exists items. split; [exact J|]. split.
    - intros n w' o. rewrite get_daily_count_eq.
      unfold get_daily_count_data, bind, now. cbn [shead]. rewrite T, C.
      destruct (same_date _ _); cbn [negb ret app];
        split; intros H; inversion H; reflexivity.
    - intros self' w' o.
      unfold _update_daily_count, _update_daily_count_data, bind, now.
      cbn [shead]. rewrite T, C.
      destruct (same_date _ _); cbn [negb ret app plus_one];
        intros H; inversion H; eexists; (split; [reflexivity|]);
        [now rewrite U2 | now rewrite U1]. }
  destruct (mark_sent_spec self e w)
    as (self' & w' & E & Hs & _ & Hd & Hc & F & _).
  exists self', w'. split; [exact E|]. split; [exact Hs|].
  split; [exact Hd|].
  split; [intros D; now rewrite Hc, (proj2 (S _ _) D)|].
  split; [intros D; now rewrite Hc, (Sf _ _ D)|].
  split; [exact F|]. split.
  - intros n m w2 w3 o1 o2 D. rewrite !get_daily_count_eq.
    intros G1 G2. inversion G1. inversion G2. rewrite D, Hd, Hc.
    rewrite (proj2 (S _ _) eq_refl).
    destruct (same_date _ _); lia.
  - intros reason.
    destruct (mark_failed_spec self e reason w)
      as (self'' & w'' & E' & _ & _ & Hc' & Hd' & _).
    now exists self'', w''.
Qed.

(** The date test of the tracker is equality with today's date. *)
Lemma same_date_is_equality (d : option text) (today : text) :
  same_date d today = true <-> d = Some today.
Proof. apply same_date_eq. Qed.

(** A ledger of yesterday with 5 sends reports 0 today and the first
    send of today sets the counter to 1; a ledger of today with 5 sends
    reports 5 and the next send makes it 6; a dictionary of today
    without a counter reports 0. *)
Lemma daily_count_rules_example :
  let stale := with_daily default_data 5 (Some (txt "2024-04-30")) in
  let fresh := with_daily default_data 5 (Some (txt "2024-05-01")) in
  let w := sample_world Missing Missing in
  get_daily_count stale w = Ok 0%Z (set_clock (stail (clock w)) w) [] /\
  get_daily_count fresh w = Ok 5%Z (set_clock (stail (clock w)) w) [] /\
  (exists self' w',
    mark_sent stale (txt "a@x.org") w = Ok self' w' [WriteTemp; ReplaceProgress]
    /\ daily_count self' = 1%Z /\ daily_date self' = Some (txt "2024-05-01")) /\
  (exists self' w',
    mark_sent fresh (txt "a@x.org") w = Ok self' w' [WriteTemp; ReplaceProgress]
    /\ daily_count self' = 6%Z /\ daily_date self' = Some (txt "2024-05-01")) /\
  get_daily_count_data [(txt "daily_date", JStr (txt "2024-05-01"))] w
  = Ok (JNum 0) (set_clock (stail (clock w)) w) [].
Proof.
  cbv zeta.
  destruct (daily_count_rules
              (with_daily default_data 5 (Some (txt "2024-04-30")))
              (txt "a@x.org") (sample_world Missing Missing))
    as (_ & G0 & _ & R & _ & s1 & w1 & E1 & _ & D1 & _ & C1 & _).
  destruct (daily_count_rules
              (with_daily default_data 5 (Some (txt "2024-05-01")))
              (txt "a@x.org") (sample_world Missing Missing))
    as (G5 & _ & _ & _ & _ & s2 & w2 & E2 & _ & D2 & C2 & _).
  split; [apply G0; discriminate|]. split; [apply G5; reflexivity|].
  split; [|split].
  - exists s1, w1. split; [exact E1|]. split; [apply C1; discriminate|].
    exact D1.
  - exists s2, w2. split; [exact E2|]. split; [apply C2; reflexivity|].
    exact D2.
  - apply (proj1 (proj1 (R [(txt "daily_date", JStr (txt "2024-05-01"))])
                        eq_refl)).
Defined.

(* ====================================================================== *)
(** * The recipient fetchers: results                                     *)
(* ====================================================================== *)

Lemma record_all_app (email_field name_field tag : text)
    (pre rest : list json) :
  forall rs,
  record_all email_field name_field tag rs (pre ++ rest) =
  match record_all email_field name_field tag rs pre with
  | (rs', None) => record_all email_field name_field tag rs' rest
  | (rs', Some e) => (rs', Some e)
  end.
Proof.
  induction pre as [|entry pre IH]; intros rs; [reflexivity|].
  cbn [app record_all].
  destruct (record_entry _ _ _ rs entry) as [e|rs']; [reflexivity | apply IH].
Qed.



Lemma fetch_from_json_total (w : world) :
  exists rs out, fetch_from_json w = Ok rs w out.
Proof.
  unfold fetch_from_json.
  destruct (emails_file w) as [| | |data]; try (now do 2 eexists).
  destruct (py_get _ _ _) as [?|v]; [now do 2 eexists|].
  destruct (py_iter v) as [?|entries]; [now do 2 eexists|].
  destruct (record_all _ _ _ _ _) as [rs []]; now do 2 eexists.
Qed.

Lemma fetch_from_mongodb_total (cfg : config) (w : world) :
  mongo_keys_missing cfg = false ->
  exists rs out, fetch_from_mongodb cfg w = Ok rs w out.
Proof.
  unfold fetch_from_mongodb, mongo_keys_missing.
  destruct (cfg_mongodb cfg) as [mc|]; [|now do 2 eexists].
  destruct (mongo_enabled mc); cbn [negb andb]; [|now do 2 eexists].
  destruct (mongo_keys mc) as [[db_name coll_name]|]; [|discriminate].
  intros _. rewrite bind_eq. cbn [print log prepend].
  destruct (mongo w) as [|steps]; [now do 2 eexists|].
  destruct (record_cursor _ _ _ _ _) as [rs []]; now do 2 eexists.
Qed.

Lemma fetch_from_mongodb_raises (cfg : config) (w : world) :
  mongo_keys_missing cfg = true ->
  fetch_from_mongodb cfg w = Raise KeyError w [].
Proof.
  unfold fetch_from_mongodb, mongo_keys_missing.
  destruct (cfg_mongodb cfg) as [mc|]; [|discriminate].
  destruct (mongo_enabled mc); cbn [negb andb]; [|discriminate].
  now destruct (mongo_keys mc) as [[db_name coll_name]|].
Qed.


Lemma fetch_recipients_raises (cfg : config) (w : world) :
  mongo_keys_missing cfg = true ->
  fetch_recipients cfg w = Raise KeyError w [].
Proof.
  intros K. unfold fetch_recipients.
  now rewrite bind_eq, (fetch_from_mongodb_raises cfg w K).
Qed.




(* ====================================================================== *)
(** * The campaign runner: results                                        *)
(* ====================================================================== *)

Lemma slice_to_In (A : Type) (l : list A) (n : Z) (x : A) :
  In x (slice_to l n) -> In x l.
Proof. unfold slice_to. destruct (0 <=? n)%Z; apply firstn_In. Qed.

Lemma apply_limits_In (limit : option Z) (rem : Z) (pending : list recipient)
    (x : recipient) :
  In x (apply_limits limit rem pending) -> In x pending.
Proof.
  unfold apply_limits, cap_daily, apply_limit. intros H.
  destruct (_ >? _)%Z; [apply slice_to_In in H|];
    destruct limit as [[| |]|]; try assumption; now apply slice_to_In in H.
Qed.

Lemma cap_daily_length (rem : Z) (pending : list recipient) :
  (0 < rem)%Z ->
  Z.of_nat (length (cap_daily rem pending))
  = Z.min rem (Z.of_nat (length pending)).
Proof.
  intros H. unfold cap_daily.
  destruct (Z.gtb_spec (Z.of_nat (length pending)) rem).
  - rewrite slice_to_length by lia. lia.
  - lia.
Qed.


Lemma pending_of_In (l : ledger) (rs : list recipient) (r : recipient) :
  In r (pending_of l rs) <-> In r rs /\ is_sent l (email r) = false.
Proof.
  unfold pending_of. rewrite filter_In.
  now destruct (is_sent l (email r)).
Qed.

(** What a run sends to was pending when it started. *)
Lemma run_sends_pending (dry_run : bool) (limit : option Z)
    (test_email : option text) (w : world) (to : text) :
  In to (sends (events (run_campaign dry_run limit test_email w))) ->
  exists l, stored_ledger (progress_file w) = Some l /\ is_sent l to = false.
Proof.
  intros H.
  destruct (run_campaign_faithful dry_run limit test_email w)
    as [[Q _]|(l & l' & rs & rem & H1 & H2 & HD & H3 & _)].
  - apply harmless_sends in Q. destruct Q as [Q _]. rewrite Q in H.
    contradiction.
  - exists l. split; [exact H1|]. rewrite H3 in H.
    apply in_map_iff in H. destruct H as (r & <- & I).
    apply apply_limits_In, pending_of_In in I. tauto.
Qed.

Lemma distinct_apply_limits (limit : option Z) (rem : Z) (l : ledger)
    (rs : list recipient) :
  distinct rs -> distinct (apply_limits limit rem (pending_of l rs)).
Proof.
  intros D. unfold distinct in *.
  assert (S : forall p n, NoDup (map (fun r => lower (email r)) p) ->
              NoDup (map (fun r => lower (email r)) (slice_to p n))).
  { intros p n H. unfold slice_to.
    destruct (0 <=? n)%Z; now apply NoDup_map_firstn. }
  assert (P : NoDup (map (fun r => lower (email r)) (pending_of l rs)))
    by now apply NoDup_map_filter.
  unfold apply_limits, cap_daily, apply_limit.
  destruct (_ >? _)%Z; [apply S|]; destruct limit as [[| |]|];
    try assumption; now apply S.
Qed.

Lemma delivered_sends (tr : list event) (x : text) :
  In x (delivered tr) -> In x (sends tr).
Proof.
  unfold delivered, sends. rewrite !in_flat_map.
  intros (e & I & H). exists e. split; [exact I|].
  destruct e as [| to subject body sender [msg|] | | |]; cbn in *; tauto.
Qed.

(** No two sends of a run go to the same address, also up to case. *)
Lemma run_sends_distinct (dry_run : bool) (limit : option Z)
    (test_email : option text) (w : world) :
  NoDup (map lower (sends (events (run_campaign dry_run limit test_email w)))).
Proof.
  destruct (run_campaign_faithful dry_run limit test_email w)
    as [[Q _]|(l & l' & rs & rem & H1 & H2 & HD & H3 & _)].
  - apply harmless_sends in Q. destruct Q as [-> _]. constructor.
  - rewrite H3, map_map. now apply distinct_apply_limits.
Qed.

(** C1. For every ledger the progress file gives (a ledger of the six
    keys, as the program writes it) and every recipient list, a run sends
    only to recipients that were pending when it started: the recipients
    whose address [is_sent] finds in the ledger are dropped before the
    limits and the sending loop, so no address the run sends to is in the
    [sent] list of the ledger it loaded. The addresses of one run differ,
    so at each send the address is in neither the loaded [sent] list nor
    among the addresses delivered earlier in the run, which is the [sent]
    list at that moment. The run leaves a ledger that lists what it
    delivered after what was listed, and a second run that starts from
    that progress file sends to no address the first one delivered to,
    and to none that was in the ledger before. *)
Theorem run_never_resends (dry_run dry_run' : bool) (limit limit' : option Z)
    (test_email test_email' : option text) (w w' : world) (l : ledger) :
  stored_ledger (progress_file w) = Some l ->
  let first := run_campaign dry_run limit test_email w in
  let second := run_campaign dry_run' limit' test_email' w' in
  (forall l0 rs r, In r (pending_of l0 rs) <->
                   In r rs /\ is_sent l0 (email r) = false) /\
  (sends (events first) = [] \/
   exists rs rem,
     sends (events first)
     = map email (apply_limits limit rem (pending_of l rs))) /\
  (forall to, In to (sends (events first)) ->
     is_sent l to = false /\ ~ In (lower to) (map lower (sent l))) /\
  NoDup (map lower (sends (events first))) /\
  (forall pre post to subject body sender outcome,
     events first = pre ++ SendEmail to subject body sender outcome :: post ->
     ~ In (lower to) (map lower (sent l ++ delivered pre))) /\
  (exists l1, stored_ledger (progress_file (final first)) = Some l1 /\
              sent l1 = sent l ++ delivered (events first)) /\
  (progress_file w' = progress_file (final first) ->
   forall to, In to (sends (events second)) ->
     ~ In (lower to) (map lower (delivered (events first))) /\
     is_sent l to = false /\
     ~ In (lower to) (map lower (sent l))).
Proof.
  intros Hl. cbv zeta.
  assert (P : forall to,
             In to (sends (events (run_campaign dry_run limit test_email w))) ->
             is_sent l to = false).
  { intros to H. destruct (run_sends_pending _ _ _ _ _ H) as (l0 & L & N).
    congruence. }
  assert (A : exists l1,
             stored_ledger (progress_file
                              (final (run_campaign dry_run limit test_email w)))
             = Some l1 /\
             sent l1
             = sent l ++ delivered (events (run_campaign dry_run limit
                                                         test_email w))).
  { destruct (run_campaign_faithful dry_run limit test_email w)
      as [[Q Q']|(l0 & l' & rs & rem & H1 & H2 & HD & H3 & H4 & H5)].
    - exists l. rewrite Q'. split; [exact Hl|].
      apply harmless_sends in Q. destruct Q as [_ ->]. now rewrite app_nil_r.
    - exists l'. assert (l0 = l) by congruence. subst l0. now split. }
  split; [apply pending_of_In|]. split; [|split; [|split; [|split; [|split]]]].
  - destruct (run_campaign_faithful dry_run limit test_email w)
      as [[Q _]|(l0 & l' & rs & rem & H1 & H2 & HD & H3 & _)].
    + left. now apply harmless_sends.
    + right. assert (l0 = l) by congruence. subst l0. now exists rs, rem.
  - intros to H. split; [now apply P|]. apply is_sent_false. now apply P.
  - apply run_sends_distinct.
  - intros pre post to subject body sender outcome E.
    pose proof (run_sends_distinct dry_run limit test_email w) as N.
    assert (I : In to (sends (events (run_campaign dry_run limit
                                        test_email w)))).
    { rewrite E, sends_app. apply in_or_app. right. now left. }
    pose proof (proj1 (is_sent_false _ _) (P _ I)) as S.
    rewrite map_app, in_app_iff. intros [H|H]; [tauto|].
    rewrite E, sends_app, map_app in N. cbn in N.
    apply NoDup_remove_2 in N. apply N, in_or_app. left.
    apply in_map_iff in H. destruct H as (x & Hx & H).
    rewrite <- Hx. apply in_map. now apply delivered_sends.
  - exact A.
  - intros F to H. destruct A as (l1 & L1 & S1).
    destruct (run_sends_pending _ _ _ _ _ H) as (l2 & L2 & N2).
    rewrite F in L2. assert (l2 = l1) by congruence. subst l2.
    apply is_sent_false in N2. rewrite S1, map_app, in_app_iff in N2.
    split; [tauto|]. split; [apply is_sent_false; tauto | tauto].
Qed.

(** Two runs over the same two recipients: the first, limited to one,
    delivers to one address; the second starts from the progress file the
    first left and sends to the other one. *)
Lemma run_never_resends_witness :
  let w := sample_world Missing two_recipients in
  let first := run_campaign false (Some 1%Z) None w in
  let w' := sample_world (progress_file (final first)) two_recipients in
  let second := run_campaign false None None w' in
  sends (events first) = [txt "b@x.org"] /\
  sends (events second) = [txt "a@x.org"] /\
  (is_sent default_data (txt "b@x.org") = false /\
   ~ In (lower (txt "b@x.org")) (map lower (sent default_data))) /\
  ~ In (lower (txt "a@x.org")) (map lower (delivered (events first))).
Proof.
  cbv zeta. split; [vm_compute; reflexivity|].
  split; [vm_compute; reflexivity|]. split.
  - apply (proj1 (proj2 (proj2 (run_never_resends false false (Some 1%Z) None
             None None (sample_world Missing two_recipients)
             (sample_world Missing two_recipients) default_data eq_refl)))).
    vm_compute. auto.
  - refine (proj1 (proj2 (proj2 (proj2 (proj2 (proj2 (proj2 (run_never_resends
             false false
             (Some 1%Z) None None None
             (sample_world Missing two_recipients)
             (sample_world
                (progress_file
                   (final (run_campaign false (Some 1%Z) None
                             (sample_world Missing two_recipients))))
                two_recipients) default_data eq_refl)))))) _
             (txt "a@x.org") _)).
    + reflexivity.
    + vm_compute. auto.
Defined.

(** C9. A dry run leaves the progress store as it is, for every limit,
    test address and world: the progress file and its temporary file are
    unchanged, [send_email] is not called, nothing is written (every call
    of [mark_sent], [mark_failed] or [_save] writes the temporary file
    and shows as a write in the trace), and at most 20 preview lines are
    printed. *)
Theorem dry_run_changes_nothing (limit : option Z) (test_email : option text)
    (w : world) :
  let r := run_campaign true limit test_email w in
  progress_file (final r) = progress_file w /\
  progress_tmp (final r) = progress_tmp w /\
  sends (events r) = [] /\
  forallb (fun e => negb (is_write e)) (events r) = true /\
  length (filter is_preview_line (events r)) <= 20 /\
  (forall self e w0, exists self' w1,
      mark_sent self e w0 = Ok self' w1 [WriteTemp; ReplaceProgress]) /\
  (forall self e reason w0, exists self' w1,
      mark_failed self e reason w0 = Ok self' w1 [WriteTemp; ReplaceProgress]) /\
  (forall self w0, exists self' w1,
      _save self w0 = Ok self' w1 [WriteTemp; ReplaceProgress]).
Proof.
  cbv zeta.
  destruct (previews_run_campaign_dry limit test_email w) as (H & P & F & T).
  split; [exact F|]. split; [exact T|].
  split; [now apply harmless_sends|].
  split; [now apply harmless_no_write|]. split; [exact P|].
  split; [|split].
  - intros self e w0.
    destruct (mark_sent_spec self e w0) as (self' & w1 & E & _).
    now exists self', w1.
  - intros self e reason w0.
    destruct (mark_failed_spec self e reason w0) as (self' & w1 & E & _).
    now exists self', w1.
  - intros self w0. do 2 eexists. apply _save_eq.
Qed.

(** A dry run over 25 pending recipients prints 20 preview lines. *)
Lemma dry_run_changes_nothing_example :
  let entries :=
    map (fun c => JObj [(txt "email", JStr (c :: txt "@x.org"))])
        (txt "abcdefghijklmnopqrstuvwxy") in
  let w := sample_world Missing (emails_document entries) in
  let r := run_campaign true None None w in
  length (filter is_preview_line (events r)) = 20 /\
  progress_file (final r) = Missing /\
  existsb (fun e => match e with Print (AndMore 5) => true | _ => false end)
          (events r) = true.
Proof. vm_compute. auto. Qed.

Lemma dry_run_changes_nothing_witness :
  let w := sample_world (Document (json_of_ledger
                           (with_sent default_data [txt "a@x.org"])))
                        two_recipients in
  let r := run_campaign true (Some 5%Z) None w in
  progress_file (final r) = progress_file w /\ sends (events r) = [] /\
  length (filter is_preview_line (events r)) <= 20.
Proof.
  cbv zeta.
  destruct (dry_run_changes_nothing (Some 5%Z) None
              (sample_world (Document (json_of_ledger
                               (with_sent default_data [txt "a@x.org"])))
                            two_recipients))
    as (F & _ & S & _ & P & _).
  auto.
Defined.

(** [--reset] is carried out before the run, also when [--dry-run] is
    given: the reset writes the progress file, the dry run after it does
    not. *)
Remark main_reset_then_dry_run :
  let stored := with_sent default_data [txt "a@x.org"] in
  let w := sample_world (Document (json_of_ledger stored)) two_recipients in
  let a := {| arg_dry_run := true; arg_limit := None; arg_reset := true;
              arg_to := None |} in
  stored_ledger (progress_file (final (main a w)))
  = Some (with_last_updated default_data (Some (utc_stamp noon))) /\
  filter is_write (events (main a w)) = [WriteTemp; ReplaceProgress].
Proof. vm_compute. auto. Qed.

(* ====================================================================== *)
(** * More on text: trimming                                              *)
(* ====================================================================== *)

Lemma lstrip_shorter (s : text) : length (lstrip s) <= length s.
Proof.
  induction s as [|c s IH]; cbn; [lia|]. destruct (is_space c); cbn; lia.
Qed.

Lemma lstrip_fixed (c : ascii) (s : text) :
  is_space c = false -> lstrip (c :: s) = c :: s.
Proof. intros H. cbn. now rewrite H. Qed.

Lemma lstrip_head (s : text) (c : ascii) (r : text) :
  lstrip s = c :: r -> is_space c = false.
Proof.
  induction s as [|d s IH]; cbn; [discriminate|].
  destruct (is_space d) eqn:E; [exact IH|]. intros H. inversion H. now subst.
Qed.

Lemma lstrip_idem (s : text) : lstrip (lstrip s) = lstrip s.
Proof.
  destruct (lstrip s) as [|c r] eqn:E; [reflexivity|].
  apply lstrip_fixed. now apply (lstrip_head s c r).
Qed.

(** What [lstrip] leaves is the end of the text. *)
Lemma lstrip_suffix (s : text) :
  exists p, s = p ++ lstrip s /\ forallb is_space p = true.
Proof.
  induction s as [|c s (p & E & P)]; [now exists []|]. cbn.
  destruct (is_space c) eqn:C.
  - exists (c :: p). cbn. rewrite C, P. split; [now f_equal | reflexivity].
  - now exists [].
Qed.

Lemma last_app_cons (A : Type) (p : list A) (x d : A) (l : list A) :
  last (p ++ x :: l) d = last (x :: l) d.
Proof.
  induction p as [|a p IH]; [reflexivity|].
  change ((a :: p) ++ x :: l) with (a :: (p ++ x :: l)).
  destruct (p ++ x :: l) eqn:E; [destruct p; discriminate|].
  cbn [last]. exact IH.
Qed.

Lemma last_rev_cons (A : Type) (c d : A) (l : list A) :
  last (rev (c :: l)) d = c.
Proof. cbn [rev]. apply last_last. Qed.

Lemma rev_head_last (A : Type) (u : list A) (x d : A) (r : list A) :
  rev u = x :: r -> last u d = x.
Proof.
  intros H. assert (E : u = rev (x :: r)) by now rewrite <- H, rev_involutive.
  rewrite E. apply last_rev_cons.
Qed.

(** A stripped text has no whitespace at its head. *)
Lemma lstrip_strip (s : text) : lstrip (strip s) = strip s.
Proof.
  unfold strip, rstrip.
  destruct (rev (lstrip (rev (lstrip s)))) as [|x r] eqn:E; [reflexivity|].
  apply lstrip_fixed.
  pose proof (rev_head_last _ _ x x r E) as L.
  destruct (lstrip s) as [|c t] eqn:T; [discriminate|].
  destruct (lstrip_suffix (rev (c :: t))) as (p & Ep & _).
  destruct (lstrip (rev (c :: t))) as [|y u] eqn:U; [discriminate|].
  rewrite <- L. rewrite <- (last_app_cons _ p y x u), <- Ep.
  rewrite last_rev_cons. now apply (lstrip_head s c t).
Qed.

(** Stripping twice is stripping once. *)
Lemma strip_idem (s : text) : strip (strip s) = strip s.
Proof.
  rewrite <- (lstrip_strip s) at 2. unfold strip at 1, rstrip.
  rewrite lstrip_strip. unfold strip at 1, rstrip.
  now rewrite rev_involutive, lstrip_idem.
Qed.

Lemma strip_head (s : text) (c : ascii) (r : text) :
  strip s = c :: r -> is_space c = false.
Proof.
  intros E. pose proof (lstrip_strip s) as H. rewrite E in H.
  now apply (lstrip_head (c :: r) c r).
Qed.

Lemma is_space_lower (c : ascii) : is_space (lower_char c) = is_space c.
Proof. destruct c as [[] [] [] [] [] [] [] []]; reflexivity. Qed.

Lemma lstrip_lower (s : text) : lstrip (lower s) = lower (lstrip s).
Proof.
  induction s as [|c s IH]; [reflexivity|]. cbn.
  rewrite is_space_lower. now destruct (is_space c).
Qed.

Lemma rev_lower (s : text) : rev (lower s) = lower (rev s).
Proof. unfold lower. now rewrite map_rev. Qed.

(** Lower case and trimming can be done in either order. *)
Lemma strip_lower (s : text) : strip (lower s) = lower (strip s).
Proof.
  unfold strip, rstrip.
  now rewrite lstrip_lower, rev_lower, lstrip_lower, rev_lower.
Qed.

(* ====================================================================== *)
(** * More on the recipient fetchers                                      *)
(* ====================================================================== *)

Lemma solid_rev (s : text) : solid (rev s) = solid s.
Proof.
  unfold solid. induction s as [|c s IH]; [reflexivity|].
  cbn [rev forallb]. rewrite forallb_app, IH. cbn [forallb].
  rewrite andb_true_r. apply andb_comm.
Qed.

(** The first word [split()] gives, when a word is being read. *)
Lemma split_ws_from_first (s : text) :
  forall cur, cur <> [] -> solid cur = true ->
  exists t more rest,
    split_ws_from cur s = t :: more /\ rev cur ++ s = t ++ rest /\
    t <> [] /\ solid t = true /\
    match rest with [] => True | c :: _ => is_space c = true end.
Proof.
  induction s as [|c s IH]; intros cur N S.
  - exists (rev cur), [], []. destruct cur as [|a cur]; [congruence|].
    repeat split; try reflexivity.
    + intros E. apply (f_equal (@length _)) in E.
      rewrite length_rev in E. discriminate.
    + now rewrite solid_rev.
  - cbn [split_ws_from]. destruct (is_space c) eqn:C.
    + exists (rev cur), (split_ws_from [] s), (c :: s).
      destruct cur as [|a cur]; [congruence|].
      repeat split; try reflexivity; try assumption.
      * intros E. apply (f_equal (@length _)) in E.
        rewrite length_rev in E. discriminate.
      * now rewrite solid_rev.
    + destruct (IH (c :: cur)) as (t & more & rest & E & R & Nt & St & H).
      * discriminate.
      * unfold solid in *. cbn. now rewrite C, S.
      * exists t, more, rest. repeat split; try assumption.
        rewrite <- R. cbn [rev]. now rewrite <- app_assoc.
Qed.

Lemma split_ws_first (c : ascii) (s : text) :
  is_space c = false ->
  exists t more rest,
    split_ws (c :: s) = t :: more /\ c :: s = t ++ rest /\
    t <> [] /\ solid t = true /\
    match rest with [] => True | d :: _ => is_space d = true end.
Proof.
  intros C. unfold split_ws. cbn [split_ws_from]. rewrite C.
  destruct (split_ws_from_first s [c]) as (t & more & rest & E & R & H);
    [discriminate | unfold solid; cbn; now rewrite C|].
  now exists t, more, rest.
Qed.

(** When [extract_first_name] returns, it returns one word. *)
Lemma extract_first_name_word (full_name : json) (t : text) :
  extract_first_name full_name = inr t -> t <> [] /\ solid t = true.
Proof.
  unfold extract_first_name. destruct (falsy full_name).
  - intros E. inversion E. split; [discriminate | reflexivity].
  - destruct full_name as [| | |s| |]; try discriminate.
    destruct (strip s) as [|c r] eqn:S.
    + intros E. inversion E. split; [discriminate | reflexivity].
    + destruct (split_ws_first c r (strip_head _ _ _ S))
        as (t' & more & rest & E & _ & N & So & _).
      rewrite E. intros H. inversion H. now subst.
Qed.

(** X1. [extract_first_name] on a string or [None] never raises and
    gives one word, never an empty text: [there] when the name is absent,
    empty or blank, and otherwise the first word of the name, which is
    the start of the trimmed name up to its first whitespace. It raises
    [AttributeError] exactly on the other values that are not falsy. *)
Theorem extract_first_name_cases (full_name : json) :
  (full_name = JNull \/ (exists s, full_name = JStr s /\ strip s = []) ->
   extract_first_name full_name = inr (txt "there")) /\
  (forall s, full_name = JStr s -> strip s <> [] ->
     exists t rest,
       extract_first_name full_name = inr t /\ strip s = t ++ rest /\
       t <> [] /\ solid t = true /\
       match rest with [] => True | c :: _ => is_space c = true end) /\
  (falsy full_name = false -> (forall s, full_name <> JStr s) ->
   extract_first_name full_name = inl AttributeError) /\
  (forall t, extract_first_name full_name = inr t ->
             t <> [] /\ solid t = true).
Proof.
  split; [|split; [|split]].
  - intros [->|(s & -> & E)]; [reflexivity|].
    unfold extract_first_name. destruct (falsy (JStr s)); [reflexivity|].
    now rewrite E.
  - intros s -> N. unfold extract_first_name.
    destruct (falsy (JStr s)) eqn:F.
    { destruct s; [|discriminate]. now elim N. }
    destruct (strip s) as [|c r] eqn:S; [congruence|].
    destruct (split_ws_first c r (strip_head _ _ _ S))
      as (t & more & rest & E & R & Nt & So & H).
    rewrite E. now exists t, rest.
  - intros F N. unfold extract_first_name. rewrite F.
    destruct full_name; try reflexivity. now elim (N s).
  - apply extract_first_name_word.
Qed.

Lemma extract_first_name_cases_witness :
  extract_first_name (JStr (txt "   ")) = inr (txt "there") /\
  (exists t rest,
     extract_first_name (JStr (txt "  Al Green ")) = inr t /\
     strip (txt "  Al Green ") = t ++ rest /\ t <> [] /\ solid t = true /\
     match rest with [] => True | c :: _ => is_space c = true end) /\
  extract_first_name (JNum 7) = inl AttributeError.
Proof.
  split; [|split].
  - apply (proj1 (extract_first_name_cases (JStr (txt "   ")))).
    right. now exists (txt "   ").
  - apply (proj1 (proj2 (extract_first_name_cases (JStr (txt "  Al Green "))))
             (txt "  Al Green ")); [reflexivity | discriminate].
  - apply (proj1 (proj2 (proj2 (extract_first_name_cases (JNum 7)))));
      [reflexivity | discriminate].
Defined.

Lemma dict_get_set_same (A : Type) (k : text) (v : A) (d : list (text * A)) :
  dict_get k (dict_set k v d) = Some v.
Proof.
  induction d as [|[k' v'] d IH]; cbn.
  - now rewrite text_eqb_refl.
  - destruct (text_eqb k k') eqn:E; cbn.
    + now rewrite text_eqb_refl.
    + now rewrite E.
Qed.

Lemma dict_get_set_other (A : Type) (k k' : text) (v : A)
    (d : list (text * A)) :
  k' <> k -> dict_get k' (dict_set k v d) = dict_get k' d.
Proof.
  intros N. assert (F : text_eqb k' k = false).
  { destruct (text_eqb k' k) eqn:E; [|reflexivity].
    apply text_eqb_eq in E. congruence. }
  induction d as [|[k0 v0] d IH]; cbn.
  - now rewrite F.
  - destruct (text_eqb k k0) eqn:E; cbn.
    + apply text_eqb_eq in E. subst k0. now rewrite F.
    + now rewrite IH.
Qed.

Lemma dict_get_In (A : Type) (k : text) (v : A) (d : list (text * A)) :
  NoDup (map fst d) -> (dict_get k d = Some v <-> In (k, v) d).
Proof.
  induction d as [|[k' v'] d IH]; cbn; intros N.
  - split; [discriminate | contradiction].
  - inversion N as [|? ? X N']. subst. destruct (text_eqb k k') eqn:E.
    + apply text_eqb_eq in E. subst k'. split.
      * intros H. inversion H. now left.
      * intros [H|H]; [now inversion H|]. elim X.
        apply (in_map fst) in H. exact H.
    + rewrite (IH N'). split; [auto|]. intros [H|H]; [|exact H].
      inversion H. subst. rewrite text_eqb_refl in E. discriminate.
Qed.

Lemma dict_has_get (A : Type) (k : text) (d : list (text * A)) :
  dict_has k d = false <-> dict_get k d = None.
Proof. unfold dict_has. destruct (dict_get k d); split; congruence. Qed.

(** [d.update(other)] puts the items of [other] after those of [d] when
    no key comes twice. *)
Lemma dict_update_app (A : Type) (other : list (text * A)) :
  forall d, NoDup (map fst (d ++ other)) -> dict_update d other = d ++ other.
Proof.
  unfold dict_update. induction other as [|[k v] other IH]; intros d N; cbn.
  - now rewrite app_nil_r.
  - assert (H : dict_has k d = false).
    { destruct (dict_has k d) eqn:E; [|reflexivity].
      apply dict_has_In in E. rewrite map_app in N. cbn [map fst] in N.
      apply NoDup_remove_2 in N. elim N. apply in_or_app. now left. }
    rewrite (dict_set_new _ _ _ _ H), IH, <- app_assoc; [reflexivity|].
    now rewrite <- app_assoc.
Qed.

(** The look-up in the merged dictionary: what [d] has, it keeps; the
    other keys come from the JSON recipients. *)
Lemma merge_new_get (k : text) (json_recipients : recipients) :
  forall d,
  dict_get k (merge_new d json_recipients) =
  match dict_get k d with
  | Some r => Some r
  | None => dict_get k json_recipients
  end.
Proof.
  induction json_recipients as [|[e data] rest IH]; intros d; cbn.
  - now destruct (dict_get k d).
  - rewrite IH. destruct (dict_has e d) eqn:H.
    + destruct (dict_get k d) eqn:G; [reflexivity|].
      destruct (text_eqb k e) eqn:E; [|reflexivity].
      apply text_eqb_eq in E. subst. unfold dict_has in H.
      now rewrite G in H.
    + apply dict_has_get in H. destruct (text_eqb k e) eqn:E.
      * apply text_eqb_eq in E. subst.
        now rewrite dict_get_set_same, H.
      * rewrite dict_get_set_other; [reflexivity|].
        intros ->. now rewrite text_eqb_refl in E.
Qed.

Lemma record_entry_normal (email_field name_field tag : text)
    (rs rs' : recipients) (entry : json) :
  all_normal tag rs ->
  record_entry email_field name_field tag rs entry = inr rs' ->
  all_normal tag rs'.
Proof.
  intros K. unfold record_entry.
  destruct (py_get entry email_field JNull) as [?|[| | |raw| |]];
    try discriminate; try (intros E; inversion E; now subst).
  destruct raw as [|c raw]; [intros E; inversion E; now subst|].
  destruct (lower (strip (c :: raw))) as [|c' e] eqn:L;
    [intros E; inversion E; now subst|].
  destruct (contains _ _) eqn:C; cbn [negb];
    [|intros E; inversion E; now subst].
  destruct (dict_has _ rs); [intros E; inversion E; now subst|].
  destruct (py_get entry name_field JNull) as [?|full_name]; [discriminate|].
  destruct (extract_first_name full_name) as [?|fn] eqn:F; [discriminate|].
  intros E. inversion E. subst rs'.
  apply dict_set_Forall; [|exact K]. cbn [snd].
  destruct (extract_first_name_word _ _ F) as [Nf Sf].
  unfold normal_recipient. cbn [email first_name source].
  repeat split; try assumption; try discriminate.
  - rewrite <- L. apply lower_idem.
  - rewrite <- L. now rewrite strip_lower, strip_idem.
Qed.

Lemma record_all_normal (email_field name_field tag : text)
    (entries : list json) :
  forall rs, all_normal tag rs ->
  all_normal tag (fst (record_all email_field name_field tag rs entries)).
Proof.
  induction entries as [|entry rest IH]; intros rs K; cbn; [exact K|].
  destruct (record_entry _ _ _ rs entry) as [?|rs'] eqn:E; [exact K|].
  apply IH. eapply record_entry_normal; eassumption.
Qed.

Lemma record_cursor_normal (email_field name_field tag : text)
    (steps : list cursor_step) :
  forall rs, all_normal tag rs ->
  all_normal tag (fst (record_cursor email_field name_field tag rs steps)).
Proof.
  induction steps as [|[d|] rest IH]; intros rs K; cbn; try exact K.
  destruct (record_entry _ _ _ rs (JObj d)) as [?|rs'] eqn:E; [exact K|].
  apply IH. eapply record_entry_normal; eassumption.
Qed.

Lemma fetch_from_json_normal (w w' : world) (rs : recipients)
    (out : list event) :
  fetch_from_json w = Ok rs w' out -> all_normal (txt "JSON") rs.
Proof.
  unfold fetch_from_json.
  destruct (emails_file w) as [| | |data];
    try (intros E; inversion E; constructor).
  destruct (py_get _ _ _) as [?|v]; [intros E; inversion E; constructor|].
  destruct (py_iter v) as [?|entries];
    [intros E; inversion E; constructor|].
  pose proof (record_all_normal (txt "email") (txt "name") (txt "JSON")
                entries [] (Forall_nil _)) as K.
  destruct (record_all _ _ _ _ _) as [rs0 []]; intros E; inversion E;
    now subst.
Qed.

Lemma fetch_from_mongodb_normal (cfg : config) (w w' : world)
    (rs : recipients) (out : list event) :
  fetch_from_mongodb cfg w = Ok rs w' out -> all_normal (txt "MongoDB") rs.
Proof.
  unfold fetch_from_mongodb.
  destruct (cfg_mongodb cfg) as [mc|];
    [|intros E; inversion E; constructor].
  destruct (mongo_enabled mc); cbn [negb];
    [|intros E; inversion E; constructor].
  destruct (mongo_keys mc) as [[db_name coll_name]|]; [|discriminate].
  rewrite bind_eq. cbn [print log prepend].
  destruct (mongo w) as [|steps]; [intros E; inversion E; constructor|].
  pose proof (record_cursor_normal
                (or_default (mongo_email_field mc) (txt "email"))
                (or_default (mongo_name_field mc) (txt "name"))
                (txt "MongoDB") steps [] (Forall_nil _)) as K.
  destruct (record_cursor _ _ _ _ _) as [rs0 []]; intros E; inversion E;
    now subst.
Qed.

(** What [fetch_recipients] returns, in terms of what the two fetchers
    return: a rearrangement of the values of the merged dictionary. *)
Lemma fetch_from_mongodb_keys (cfg : config) (w w' : world) (m : recipients)
    (o : list event) :
  fetch_from_mongodb cfg w = Ok m w' o -> mongo_keys_missing cfg = false.
Proof.
  intros E. destruct (mongo_keys_missing cfg) eqn:K; [|reflexivity].
  rewrite (fetch_from_mongodb_raises cfg w K) in E. discriminate.
Qed.

Lemma fetch_recipients_keys (cfg : config) (w w' : world)
    (rs : list recipient) (o : list event) :
  fetch_recipients cfg w = Ok rs w' o -> mongo_keys_missing cfg = false.
Proof.
  intros E. destruct (mongo_keys_missing cfg) eqn:K; [|reflexivity].
  rewrite (fetch_recipients_raises cfg w K) in E. discriminate.
Qed.

Lemma fetch_recipients_merge (cfg : config) (w : world) :
  mongo_keys_missing cfg = false ->
  exists m j o1 o2 w' out rs,
    fetch_from_mongodb cfg w = Ok m w o1 /\
    fetch_from_json w = Ok j w o2 /\
    fetch_recipients cfg w = Ok rs w' out /\
    keyed m /\ keyed j /\ keyed (merge_new m j) /\
    Permutation (map snd (merge_new m j)) rs.
Proof.
  intros K.
  destruct (fetch_from_mongodb_total cfg w K) as (m & o1 & E1).
  destruct (fetch_from_json_total w) as (j & o2 & E2).
  pose proof (fetch_from_mongodb_keyed _ _ _ _ _ E1) as Km.
  pose proof (fetch_from_json_keyed _ _ _ _ E2) as Kj.
  exists m, j, o1, o2. unfold fetch_recipients.
  rewrite (bind_Ok _ _ _ _ _ _ _ _ E1), (bind_Ok _ _ _ _ _ _ _ _ E2).
  rewrite (bind_Ok _ _ _ _ _ _ _ _ (with_random_eq _ _ w)).
  cbn [print log ret bind prepend app].
  rewrite (dict_update_app _ m []) by apply Km. cbn [app].
  do 3 eexists. split; [exact E1|]. split; [exact E2|].
  split; [reflexivity|]. split; [exact Km|]. split; [exact Kj|].
  split; [now apply merge_new_keyed | apply shuffle_Permutation].
Qed.

Lemma keyed_get (d : recipients) (k : text) (r : recipient) :
  keyed d -> dict_get k d = Some r -> email r = k.
Proof.
  intros [N F] G. apply (dict_get_In _ _ _ _ N) in G.
  now apply (proj1 (Forall_forall _ _) F) in G.
Qed.

(** X2. [fetch_recipients] gives the recipients of both sources, each
    address once: a recipient is returned exactly when MongoDB gave it,
    or when the JSON file gave it under an address MongoDB did not give.
    For an address both sources have, the MongoDB recipient is the one
    returned. When both fetchers return, the call returns. *)
Theorem fetch_recipients_precedence (cfg : config) (w : world)
    (m j : recipients) (o1 o2 : list event) :
  fetch_from_mongodb cfg w = Ok m w o1 ->
  fetch_from_json w = Ok j w o2 ->
  exists w' out rs,
    fetch_recipients cfg w = Ok rs w' out /\
    (forall r, In r rs <->
               exists k, dict_get k m = Some r \/
                         (dict_get k m = None /\ dict_get k j = Some r)) /\
    (forall k r r', dict_get k m = Some r -> dict_get k j = Some r' ->
                    In r rs /\ (r' <> r -> ~ In r' rs)) /\
    distinct rs /\
    length rs = length (merge_new m j).
Proof.
  intros F1 F2.
  destruct (fetch_recipients_merge cfg w (fetch_from_mongodb_keys _ _ _ _ _ F1))
    as (m' & j' & o1' & o2' & w' & out & rs & E1 & E2 & E & Km & Kj & K & P).
  rewrite F1 in E1. rewrite F2 in E2. inversion E1. inversion E2.
  subst m' j' o1' o2'. clear E1 E2.
  exists w', out, rs.
  assert (M : forall r, In r rs <->
                exists k, dict_get k (merge_new m j) = Some r).
  { intros r. split.
    - intros I. apply (Permutation_in _ (Permutation_sym P)) in I.
      apply in_map_iff in I. destruct I as ([k r'] & <- & I).
      exists k. now apply (dict_get_In _ _ _ _ (proj1 K)).
    - intros (k & G). apply (Permutation_in _ P).
      apply (dict_get_In _ _ _ _ (proj1 K)) in G.
      now apply (in_map snd) in G. }
  split; [exact E|].
  split; [|split; [|split]].
  - intros r. rewrite M. split; intros (k & G); exists k.
    + rewrite merge_new_get in G. destruct (dict_get k m); auto.
    + rewrite merge_new_get. destruct G as [-> | [-> G]]; auto.
  - intros k r r' Gm Gj. split.
    + apply M. exists k. now rewrite merge_new_get, Gm.
    + intros N I. apply M in I. destruct I as (k' & G).
      rewrite merge_new_get in G.
      pose proof (keyed_get _ _ _ Kj Gj) as Ek.
      destruct (dict_get k' m) as [r0|] eqn:G'.
      * inversion G. subst r0.
        pose proof (keyed_get _ _ _ Km G') as Ek'. congruence.
      * pose proof (keyed_get _ _ _ Kj G) as Ek'. congruence.
  - eapply fetch_recipients_distinct; eassumption.
  - rewrite <- (Permutation_length P). now rewrite length_map.
Qed.

Lemma fetch_recipients_precedence_witness :
  exists w' out rs,
    fetch_recipients config_with_mongo both_sources = Ok rs w' out /\
    In alice rs /\ ~ In (person "a@x.org" "Al") rs /\ length rs = 2.
Proof.
  destruct (fetch_recipients_precedence config_with_mongo both_sources
              [(txt "a@x.org", alice)]
              [(txt "a@x.org", person "a@x.org" "Al");
               (txt "b@x.org", person "b@x.org" "Bo")]
              [Print (MongoConnecting (txt "crm") (txt "users"));
               Print (MongoFound 1)]
              [Print (JsonFound 2)] eq_refl eq_refl)
    as (w' & out & rs & E & _ & H & _ & L).
  exists w', out, rs. split; [exact E|].
  destruct (H (txt "a@x.org") alice (person "a@x.org" "Al") eq_refl eq_refl)
    as [I N].
  split; [exact I|]. split; [apply N; discriminate | exact L].
Defined.

(** X3. Every recipient [fetch_recipients] returns is in normal form: its
    address is not empty, holds an [@], is in lower case and has no
    whitespace around it; its first name is one word, not empty; its
    source is [MongoDB] or [JSON]. *)
Theorem fetch_recipients_normal (cfg : config) (w w' : world)
    (rs : list recipient) (out : list event) (r : recipient) :
  fetch_recipients cfg w = Ok rs w' out -> In r rs ->
  normal_recipient (txt "MongoDB") r \/ normal_recipient (txt "JSON") r.
Proof.
  intros E I.
  destruct (fetch_recipients_merge cfg w (fetch_recipients_keys _ _ _ _ _ E))
    as (m & j & o1 & o2 & w1 & out1 & rs1 & E1 & E2 & E' & Km & Kj & K & P).
  rewrite E in E'. inversion E'. subst rs1.
  apply (Permutation_in _ (Permutation_sym P)) in I.
  apply in_map_iff in I. destruct I as ([k r'] & <- & I). cbn [snd].
  apply (dict_get_In _ _ _ _ (proj1 K)) in I. rewrite merge_new_get in I.
  destruct (dict_get k m) as [r0|] eqn:G.
  - inversion I. subst r0. left.
    apply (dict_get_In _ _ _ _ (proj1 Km)) in G.
    now apply (proj1 (Forall_forall _ _)
                 (fetch_from_mongodb_normal _ _ _ _ _ E1)) in G.
  - right. apply (dict_get_In _ _ _ _ (proj1 Kj)) in I.
    now apply (proj1 (Forall_forall _ _)
                 (fetch_from_json_normal _ _ _ _ E2)) in I.
Qed.

Lemma fetch_recipients_normal_witness :
  normal_recipient (txt "MongoDB") alice \/
  normal_recipient (txt "JSON") alice.
Proof.
  eapply (fetch_recipients_normal config_with_mongo both_sources).
  - reflexivity.
  - vm_compute. auto.
Defined.

(* ====================================================================== *)
(** * More on the progress tracker                                        *)
(* ====================================================================== *)

Lemma dict_set_length (A : Type) (k : text) (v : A) (d : list (text * A)) :
  length (dict_set k v d)
  = if dict_has k d then length d else S (length d).
Proof.
  unfold dict_has. induction d as [|[k' v'] d IH]; cbn; [reflexivity|].
  destruct (text_eqb k k'); cbn; [reflexivity|].
  rewrite IH. now destruct (dict_get k d).
Qed.

Lemma is_sent_with_failed (self : ledger) (f : list (text * text)) (x : text) :
  is_sent (with_failed self f) x = is_sent self x.
Proof. reflexivity. Qed.

Lemma mem_app (x : text) (l1 l2 : list text) :
  mem x (l1 ++ l2) = mem x l1 || mem x l2.
Proof. apply existsb_app. Qed.

(** X4. [mark_failed] records the reason under the address as it is
    given: afterwards the address has that reason and the other addresses
    have what they had; a second failure of the same address replaces the
    reason and adds no entry. The [sent] list, and so every [is_sent]
    answer, is as before: a failed address stays pending. The ledger is
    written at once. *)
Theorem mark_failed_upsert (self : ledger) (e reason : text) (w : world) :
  exists self' w',
    mark_failed self e reason w = Ok self' w' [WriteTemp; ReplaceProgress] /\
    dict_get e (failed self') = Some reason /\
    (forall e', e' <> e ->
                dict_get e' (failed self') = dict_get e' (failed self)) /\
    length (failed self')
    = (if dict_has e (failed self) then length (failed self)
       else S (length (failed self))) /\
    (forall x, is_sent self' x = is_sent self x) /\
    stored_ledger (progress_file w') = Some self' /\
    forall reason' w0, exists self'' w'',
      mark_failed self' e reason' w0
      = Ok self'' w'' [WriteTemp; ReplaceProgress] /\
      dict_get e (failed self'') = Some reason' /\
      length (failed self'') = length (failed self').
Proof.
  destruct (mark_failed_spec self e reason w)
    as (self' & w' & E & Hs & Hf & _ & _ & F & _).
  exists self', w'. split; [exact E|]. rewrite Hf.
  split; [apply dict_get_set_same|].
  split; [intros e' N; now apply dict_get_set_other|].
  split; [apply dict_set_length|].
  split; [intros x; unfold is_sent; now rewrite Hs|].
  split; [rewrite F; apply stored_ledger_document|].
  intros reason' w0.
  destruct (mark_failed_spec self' e reason' w0)
    as (self'' & w'' & E' & _ & Hf' & _).
  exists self'', w''. split; [exact E'|]. rewrite Hf'.
  split; [apply dict_get_set_same|].
  rewrite dict_set_length, Hf.
  unfold dict_has. now rewrite dict_get_set_same.
Qed.

Lemma mark_failed_upsert_witness :
  exists self' w',
    mark_failed default_data (txt "a@x.org") (txt "boom")
                (sample_world Missing Missing)
    = Ok self' w' [WriteTemp; ReplaceProgress] /\
    dict_get (txt "b@x.org") (failed self') = None.
Proof.
  destruct (mark_failed_upsert default_data (txt "a@x.org") (txt "boom")
              (sample_world Missing Missing))
    as (self' & w' & E & _ & H & _).
  exists self', w'. split; [exact E|].
  rewrite (H (txt "b@x.org")); [reflexivity | discriminate].
Defined.

Lemma _save_loads (self : ledger) (w : world) :
  exists self' w',
    _save self w = Ok self' w' [WriteTemp; ReplaceProgress] /\
    self' = with_last_updated self (Some (utc_stamp (shead (clock w)))) /\
    progress_file w' = Document (json_of_ledger self') /\
    progress_tmp w' = Missing /\
    ProgressTracker w'
    = Ok self' w' [Print (LoadedProgress (length (sent self'))
                                         (length (failed self')))].
Proof.
  rewrite _save_eq. cbv zeta. do 2 eexists.
  split; [reflexivity|]. split; [reflexivity|].
  split; [reflexivity|]. split; [reflexivity|].
  unfold ProgressTracker. erewrite bind_Ok by (apply _load_ledger; reflexivity).
  rewrite ledger_of_json_of_ledger. reflexivity.
Qed.

(** X5. What the tracker writes, the next start reads back: after
    [mark_sent], [mark_failed], [_save] or [reset], the progress file is
    the ledger the call left in memory, the temporary file is gone,
    [last_updated] is the time read at the write (for [mark_sent] the
    second reading of the clock, after the one for the date), and a new
    [ProgressTracker()] loads exactly that ledger, without a warning.
    [_save] changes nothing but [last_updated]; [reset] leaves the
    default ledger with the time of the reset. *)
Theorem saved_ledger_loads (self : ledger) (e reason : text) (w : world) :
  let loads (stamp : text) (r : result ledger) :=
    exists self' w',
      r = Ok self' w' [WriteTemp; ReplaceProgress] /\
      progress_file w' = Document (json_of_ledger self') /\
      progress_tmp w' = Missing /\
      last_updated self' = Some stamp /\
      ProgressTracker w'
      = Ok self' w' [Print (LoadedProgress (length (sent self'))
                                           (length (failed self')))] in
  loads (utc_stamp (clock w 1)) (mark_sent self e w) /\
  loads (utc_stamp (clock w 0)) (mark_failed self e reason w) /\
  loads (utc_stamp (clock w 0)) (_save self w) /\
  (exists w', _save self w
              = Ok (with_last_updated self (Some (utc_stamp (clock w 0)))) w'
                   [WriteTemp; ReplaceProgress]) /\
  exists w',
    reset self w
    = Ok (with_last_updated default_data (Some (utc_stamp (clock w 0)))) w'
         [WriteTemp; ReplaceProgress; Print ProgressReset] /\
    progress_file w'
    = Document (json_of_ledger
                  (with_last_updated default_data
                     (Some (utc_stamp (clock w 0))))) /\
    progress_tmp w' = Missing /\
    ProgressTracker w'
    = Ok (with_last_updated default_data (Some (utc_stamp (clock w 0)))) w'
         [Print (LoadedProgress 0 0)].
Proof.
  cbv zeta. split; [|split; [|split; [|split]]].
  - rewrite mark_sent_eq. cbv zeta.
    match goal with |- context [_save ?s ?w0] =>
      destruct (_save_loads s w0) as (s' & w' & E & Es & F & T & L) end.
    exists s', w'. rewrite E. conjs; try assumption; try reflexivity.
    rewrite Es. reflexivity.
  - unfold mark_failed.
    match goal with |- context [_save ?s ?w0] =>
      destruct (_save_loads s w0) as (s' & w' & E & Es & F & T & L) end.
    exists s', w'. rewrite E. conjs; try assumption; try reflexivity.
    rewrite Es. reflexivity.
  - destruct (_save_loads self w) as (s' & w' & E & Es & F & T & L).
    exists s', w'. rewrite E. conjs; try assumption; try reflexivity.
    rewrite Es. reflexivity.
  - rewrite _save_eq. cbv zeta. eexists. reflexivity.
  - destruct (_save_loads default_data w) as (s' & w' & E & Es & F & T & L).
    exists w'. unfold reset. rewrite (bind_Ok _ _ _ _ _ _ _ _ E). subst s'.
    split; [reflexivity|]. split; [exact F|]. split; [exact T|].
    rewrite L. reflexivity.
Qed.

(** X6. After [mark_sent] the address is found by [is_sent] in any case
    of letters, and nothing that was found is lost: [is_sent] answers as
    before, or the lower-case forms are the same. If the date has not
    changed, [get_daily_count] is one more than it was. *)
Theorem mark_sent_then_is_sent (self : ledger) (e : text) (w : world) :
  exists self' w',
    mark_sent self e w = Ok self' w' [WriteTemp; ReplaceProgress] /\
    (forall x, is_sent self' x
               = is_sent self x || text_eqb (lower x) (lower e)) /\
    (forall x, lower x = lower e -> is_sent self' x = true) /\
    (utc_date (shead (clock w')) = utc_date (shead (clock w)) ->
     forall n w1 o1 m w2 o2,
       get_daily_count self w = Ok n w1 o1 ->
       get_daily_count self' w' = Ok m w2 o2 -> m = (n + 1)%Z).
Proof.
  destruct (mark_sent_spec self e w)
    as (self' & w' & E & Hs & _ & Hd & Hc & _).
  exists self', w'. split; [exact E|].
  assert (X : forall x, is_sent self' x
                        = is_sent self x || text_eqb (lower x) (lower e)).
  { intros x. unfold is_sent. rewrite Hs, map_app, mem_app. cbn.
    now rewrite orb_false_r. }
  split; [exact X|]. split.
  - intros x L. rewrite X, L, text_eqb_refl. apply orb_true_r.
  - intros D n w1 o1 m w2 o2. rewrite !get_daily_count_eq.
    intros G1 G2. inversion G1. inversion G2. rewrite D, Hd, Hc.
    cbn [same_date]. rewrite text_eqb_refl.
    destruct (same_date _ _); lia.
Qed.

Lemma mark_sent_then_is_sent_witness :
  exists self' w',
    mark_sent default_data (txt "Foo@Bar.com") (sample_world Missing Missing)
    = Ok self' w' [WriteTemp; ReplaceProgress] /\
    is_sent self' (txt "foo@bar.COM") = true /\
    forall m w2 o2, get_daily_count self' w' = Ok m w2 o2 -> m = 1%Z.
Proof.
  destruct (mark_sent_then_is_sent default_data (txt "Foo@Bar.com")
              (sample_world Missing Missing))
    as (self' & w' & E & _ & H & D).
  exists self', w'. split; [exact E|]. split; [now apply H|].
  intros m w2 o2 G.
  assert (C : clock w' = fun _ => noon).
  { rewrite mark_sent_eq, _save_eq in E. cbv zeta in E. inversion E.
    reflexivity. }
  refine (D _ 0%Z _ [] m w2 o2 _ G).
  - now rewrite C.
  - rewrite get_daily_count_eq. reflexivity.
Defined.

(* ====================================================================== *)
(** * More on the sending loop                                            *)
(* ====================================================================== *)

Lemma after_refl (w : world) : after 0 w w.
Proof. split; [now exists 0 | split; [intros n|]; reflexivity]. Qed.

Lemma after_trans (a b : nat) (w1 w2 w3 : world) :
  after a w1 w2 -> after b w2 w3 -> after (a + b) w1 w3.
Proof.
  intros ([k1 C1] & G1 & A1) ([k2 C2] & G2 & A2). repeat split.
  - exists (k1 + k2). intros n. rewrite C2, C1. f_equal. lia.
  - intros n. rewrite G2, G1. f_equal. lia.
  - congruence.
Qed.

Lemma dated_after (today : text) (k : nat) (w w' : world) :
  dated today w -> after k w w' -> dated today w'.
Proof. intros D ([j C] & _) n. rewrite C. apply D. Qed.

Lemma after_set_random (g : rng) (w : world) : after 0 w (set_random g w).
Proof. split; [now exists 0 | split; [intros n|]; reflexivity]. Qed.

Lemma after_mark_sent (self self' : ledger) (e : text) (w w' : world)
    (o : list event) :
  mark_sent self e w = Ok self' w' o -> after 0 w w'.
Proof.
  rewrite mark_sent_eq, _save_eq. cbv zeta. intros E. inversion E.
  split; [now exists 2 | split; [intros n|]; reflexivity].
Qed.

Lemma after_mark_failed (self self' : ledger) (e reason : text) (w w' : world)
    (o : list event) :
  mark_failed self e reason w = Ok self' w' o -> after 0 w w'.
Proof.
  unfold mark_failed. rewrite _save_eq. cbv zeta. intros E. inversion E.
  split; [now exists 1 | split; [intros n|]; reflexivity].
Qed.

Lemma count_today_mark_sent (today : text) (self self' : ledger) (e : text)
    (w w' : world) (o : list event) :
  dated today w -> mark_sent self e w = Ok self' w' o ->
  count_today today self' = (count_today today self + 1)%Z.
Proof.
  intros D E. destruct (mark_sent_spec self e w)
    as (s & w1 & E1 & _ & _ & Hd & Hc & _).
  rewrite E in E1. inversion E1. subst s w1. unfold count_today.
  unfold shead in Hd, Hc. rewrite (D 0) in Hd, Hc. rewrite Hd, Hc.
  cbn [same_date]. rewrite text_eqb_refl.
  now destruct (same_date (daily_date self) today).
Qed.

Lemma rejected_app (a b : list event) :
  rejected (a ++ b) = rejected a ++ rejected b.
Proof. apply flat_map_app. Qed.

Lemma outcomes_app (a b : list event) :
  outcomes (a ++ b) = outcomes a ++ outcomes b.
Proof. apply flat_map_app. Qed.


(** One recipient of the loop: what is done after the message is built
    and [send_email] has answered [outcome]. *)
Lemma send_loop_record (progress : ledger) (sent_count : nat) (to : text)
    (outcome : option text) (w : world) :
  stored_ledger (progress_file w) = Some progress ->
  exists progress1 c1 w1 out,
    (match outcome with
     | None => p <- mark_sent progress to ;;
               print SentOk ;; ret (p, S sent_count)
     | Some error_msg =>
         p <- mark_failed progress to error_msg ;;
         print (SendFailed error_msg) ;;
         (if rate_limited error_msg
          then print RateLimitHit ;; wait_with_countdown (Cooldown 300)
          else ret tt) ;;
         ret (p, sent_count)
     end) w = Ok (progress1, c1) w1 out /\
    sends out = [] /\ delivered out = [] /\ rejected out = [] /\
    outcomes out = [] /\ filter is_jitter out = [] /\
    c1 = sent_count + length (delivered_to (SendEmail to [] [] [] outcome)) /\
    sent progress1
    = sent progress ++ delivered_to (SendEmail to [] [] [] outcome) /\
    failed progress1
    = upserts (failed progress) (rejected_by (SendEmail to [] [] [] outcome)) /\
    length (filter is_cooldown out)
    = length (filter (fun p => rate_limited (snd p))
                     (rejected_by (SendEmail to [] [] [] outcome))) /\
    stored_ledger (progress_file w1) = Some progress1 /\
    after 0 w w1 /\
    (forall today, dated today w ->
       count_today today progress1
       = (count_today today progress
          + Z.of_nat (length (delivered_to (SendEmail to [] [] [] outcome))))%Z).
Proof.
  intros Hst. destruct outcome as [msg|].
  - destruct (mark_failed_spec progress to msg w)
      as (p & w1 & E & Hs & Hf & Hc & Hd & F & _).
    rewrite (bind_Ok _ _ _ _ _ _ _ _ E).
    pose proof (after_mark_failed _ _ _ _ _ _ _ E) as A.
    exists p, sent_count, w1.
    destruct (rate_limited msg) eqn:R; cbn; rewrite ?R; cbn;
      eexists; (split; [reflexivity|]);
      rewrite F, stored_ledger_document, Hs, Hf, app_nil_r, Nat.add_0_r;
      conjs; try reflexivity; try exact A;
      intros today D; unfold count_today; rewrite Hc, Hd; lia.
  - destruct (mark_sent_spec progress to w)
      as (p & w1 & E & Hs & Hf & _ & _ & F & _).
    rewrite (bind_Ok _ _ _ _ _ _ _ _ E).
    pose proof (after_mark_sent _ _ _ _ _ _ E) as A.
    exists p, (S sent_count), w1. cbn. eexists. split; [reflexivity|].
    rewrite F, stored_ledger_document, Hs, Hf.
    conjs; try reflexivity; try exact A; try lia.
    intros today D. rewrite (count_today_mark_sent _ _ _ _ _ _ _ D E).
    cbn. lia.
Qed.

(** The loop in full: it never raises, calls [send_email] once for each
    recipient in order, with the answers of the service in order, counts
    and records what was accepted and what was refused, waits a jittered
    time after each recipient that has an index below [n], and cools
    down after the errors that look like a rate limit. *)
Lemma send_loop_detail (sender_name subject_template body_template : text)
    (n : nat) (todo : list recipient) :
  forall (i : nat) (progress : ledger) (sent_count : nat) (w : world),
  stored_ledger (progress_file w) = Some progress ->
  exists progress' sent_count' w' out,
    send_loop sender_name subject_template body_template n i progress
              sent_count todo w
    = Ok (progress', sent_count') w' out /\
    sends out = map email todo /\
    outcomes out = map (gmail w) (seq 0 (length todo)) /\
    sent_count' = sent_count + length (delivered out) /\
    sent progress' = sent progress ++ delivered out /\
    failed progress' = upserts (failed progress) (rejected out) /\
    stored_ledger (progress_file w') = Some progress' /\
    length (filter is_jitter out) = Nat.min (length todo) (n - i) /\
    length (filter is_cooldown out)
    = length (filter (fun p => rate_limited (snd p)) (rejected out)) /\
    after (length todo) w w' /\
    (forall today, dated today w ->
       count_today today progress'
       = (count_today today progress + Z.of_nat (length (delivered out)))%Z).
Proof.
  induction todo as [|r rest IH]; intros i progress sent_count w Hst.
  - exists progress, sent_count, w, []. cbn. rewrite app_nil_r.
    conjs; try reflexivity; try assumption; try lia.
    apply after_refl.
  - cbn [send_loop].
    rewrite (bind_Ok _ _ _ _ _ _ _ _ (with_random_eq _ _ w)).
    rewrite prepend_nil.
    destruct (build_message _ _ _ _) as [[subject body] g']. cbn [fst snd].
    rewrite bind_eq. cbn [print log prepend].
    rewrite bind_eq. cbn [send_email].
    set (w1 := set_random g' w).
    set (w2 := set_gmail (stail (gmail w1)) w1).
    assert (A2 : after 1 w w2).
    { split; [now exists 0 | split; [intros k|]; reflexivity]. }
    destruct (send_loop_record progress sent_count (email r)
                (shead (gmail w1)) w2 Hst)
      as (progress1 & c1 & w3 & out1 & E1 & S1 & D1 & R1 & O1 & J1 & C1 &
          Hs1 & Hf1 & K1 & F1 & A3 & T1).
    rewrite (bind_Ok _ _ _ _ _ _ _ _ E1).
    assert (W : exists w4 out2,
      (if i <? n then delay <- calculate_delay ;; wait_with_countdown delay
       else ret tt) w3 = Ok tt w4 out2 /\
      sends out2 = [] /\ delivered out2 = [] /\ rejected out2 = [] /\
      outcomes out2 = [] /\ filter is_cooldown out2 = [] /\
      length (filter is_jitter out2) = (if i <? n then 1 else 0) /\
      progress_file w4 = progress_file w3 /\ after 0 w3 w4).
    { destruct (i <? n); cbn; do 2 eexists; (split; [reflexivity|]);
        conjs; try reflexivity;
        (split; [now exists 0 | split; [intros k|]; reflexivity]). }
    destruct W as (w4 & out2 & E2 & S2 & D2 & R2 & O2 & K2 & J2 & F2 & A4).
    rewrite (bind_Ok _ _ _ _ _ _ _ _ E2).
    rewrite <- F2 in F1.
    destruct (IH (S i) progress1 c1 w4 F1)
      as (progress' & c' & w' & out & E & So & Oo & Co & Hso & Hfo & Fo &
          Jo & Ko & Ao & To).
    rewrite E. cbn [prepend].
    pose proof (after_trans _ _ _ _ _ A2 (after_trans _ _ _ _ _ A3 A4)) as A14.
    exists progress', c', w'. eexists. split; [reflexivity|].
    repeat rewrite sends_app, delivered_app, rejected_app, outcomes_app,
      filter_app, length_app.
    repeat rewrite sends_app. repeat rewrite delivered_app.
    repeat rewrite rejected_app. repeat rewrite outcomes_app.
    repeat rewrite filter_app. repeat rewrite length_app.
    rewrite S1, S2, So, D1, D2, R1, R2, O1, O2, Oo, J1, K2, J2, Jo, K1, Ko.
    cbn [sends delivered rejected outcomes flat_map sent_to delivered_to
         rejected_by outcome_of filter is_jitter is_cooldown app length map
         seq].
    rewrite !app_nil_r. cbn [app].
    split; [reflexivity|]. split.
    { f_equal. rewrite <- seq_shift, map_map. apply map_ext_in. intros k _.
      destruct A14 as (_ & G & _). rewrite G. f_equal. }
    split.
    { rewrite Co, C1. destruct (shead (gmail w1)); cbn; lia. }
    split.
    { rewrite Hso, Hs1. destruct (shead (gmail w1)); cbn;
        now rewrite ?app_nil_r, <- ?app_assoc. }
    split.
    { rewrite Hfo, Hf1. now destruct (shead (gmail w1)). }
    split; [exact Fo|]. split.
    { destruct (Nat.ltb_spec i n); lia. }
    split.
    { destruct (shead (gmail w1)) as [msg|]; cbn; [|lia].
      destruct (rate_limited msg); cbn; lia. }
    split.
    { apply (after_trans 1 (length rest) _ _ _ A14 Ao). }
    intros today D.
    assert (D2' : dated today w2) by exact (dated_after _ _ _ _ D A2).
    assert (D4 : dated today w4) by exact (dated_after _ _ _ _ D A14).
    rewrite (To today D4), (T1 today D2').
    destruct (shead (gmail w1)); cbn; lia.
Qed.

(* ====================================================================== *)
(** * More on a run of the campaign                                       *)
(* ====================================================================== *)

Lemma harmless_rejected (out : list event) :
  forallb harmless out = true -> rejected out = [] /\ outcomes out = [].
Proof.
  induction out as [|e out IH]; [now split|]. cbn [forallb].
  intros H. apply andb_prop in H. destruct H as [He Ho].
  destruct (IH Ho) as [R O]. unfold rejected, outcomes in *.
  cbn [flat_map]. rewrite R, O. now destruct e.
Qed.

Lemma campaign_outcome_prepend (dry_run : bool) (limit : option Z)
    (test_email : option text) (cfg : config) (l : ledger) (w0 : world)
    (o : list event) (r : result unit) :
  forallb harmless o = true ->
  campaign_outcome dry_run limit test_email cfg l w0 r ->
  campaign_outcome dry_run limit test_email cfg l w0 (prepend o r).
Proof.
  intros H [[H1 H2]|(rs & l' & w' & out & Hd & Hcr & Hr & Hrs & Hp & -> & Hs
                     & Ho & Hst & Hse & Hf & Hsum & Hc)].
  - left. rewrite events_prepend, final_prepend, forallb_app, H, H1. auto.
  - right. exists rs, l', w', (o ++ out). cbn [prepend].
    destruct (harmless_sends _ H) as [S D].
    destruct (harmless_rejected _ H) as [R O].
    rewrite sends_app, delivered_app, rejected_app, outcomes_app, S, D, R, O.
    cbn [app]. conjs; try assumption; try reflexivity.
    apply in_or_app. now right.
Qed.

(** A step of [run_campaign] that only reads and prints, and the rest. *)
Lemma stage (Q : result unit -> Prop) (f0 : file) (k : nat) (A : Type)
    (m : M A) (f : A -> M unit) (w : world) :
  previews k m -> progress_file w = f0 ->
  (forall o r, forallb harmless o = true -> Q r -> Q (prepend o r)) ->
  (forall e w1 o, forallb harmless o = true -> progress_file w1 = f0 ->
                  Q (Raise e w1 o)) ->
  (forall a w1 o, m w = Ok a w1 o -> progress_file w1 = f0 -> Q (f a w1)) ->
  Q (bind m f w).
Proof.
  intros Hm F Hp Hr Hf. rewrite bind_eq.
  destruct (Hm w) as (H1 & _ & H3 & _).
  destruct (m w) as [a w1 o|e w1 o] eqn:E; cbn [events final] in *.
  - apply Hp; [exact H1|]. apply (Hf a w1 o eq_refl). congruence.
  - apply Hr; [exact H1 | congruence].
Qed.

Lemma fetch_recipients_world (cfg : config) (w w' : world)
    (rs : list recipient) (o : list event) :
  fetch_recipients cfg w = Ok rs w' o -> exists g, w' = set_random g w.
Proof.
  intros H.
  destruct (fetch_recipients_merge cfg w (fetch_recipients_keys _ _ _ _ _ H))
    as (m & j & o1 & o2 & w1 & out & rs1 & E1 & E2 & E & _).
  revert H. intros H. rewrite H in E. inversion E. subst. clear E.
  revert H. unfold fetch_recipients.
  rewrite (bind_Ok _ _ _ _ _ _ _ _ E1), (bind_Ok _ _ _ _ _ _ _ _ E2).
  rewrite (bind_Ok _ _ _ _ _ _ _ _ (with_random_eq _ _ w)).
  cbn [print log ret bind prepend app]. intros H. inversion H.
  now eexists.
Qed.

Ltac invw E x := inversion E; subst x; clear E.

(** Every run, in full. *)
Lemma run_campaign_detail (dry_run : bool) (limit : option Z)
    (test_email : option text) (cfg : config) (l : ledger) (w : world) :
  config_file w = Some cfg -> stored_ledger (progress_file w) = Some l ->
  campaign_outcome dry_run limit test_email cfg l w
                   (run_campaign dry_run limit test_email w).
Proof.
  intros Hcfg Hl. destruct dry_run.
  { left. destruct (previews_run_campaign_dry limit test_email w)
      as (H & _ & F & _). auto. }
  set (Q := campaign_outcome false limit test_email cfg l w).
  assert (Qp : forall o r, forallb harmless o = true -> Q r -> Q (prepend o r))
    by (intros o r; apply campaign_outcome_prepend).
  assert (Qr : forall e w1 o, forallb harmless o = true ->
                 progress_file w1 = progress_file w -> Q (Raise e w1 o))
    by (intros e w1 o H F; left; auto).
  assert (Qq : forall k (m : M unit) w1,
                 previews k m -> progress_file w1 = progress_file w ->
                 Q (m w1)).
  { intros k m w1 P F. left. destruct (P w1) as (H & _ & F' & _).
    split; [exact H | congruence]. }
  unfold run_campaign.
  apply (stage Q (progress_file w) 0); try assumption;
    [now apply previews_print | reflexivity|].
  intros ? w1 ? E1 _. cbn in E1. invw E1 w1.
  apply (stage Q (progress_file w) 0); try assumption;
    [apply previews_load_config | reflexivity|].
  intros cfg' w1 ? E1 _. unfold load_config in E1. rewrite Hcfg in E1.
  inversion E1. subst cfg' w1. clear E1.
  apply (stage Q (progress_file w) 0); try assumption;
    [apply previews_load_template | reflexivity|].
  intros [st bt] w1 ? E1 _. unfold load_template in E1.
  destruct (template_file w); [|discriminate]. invw E1 w1.
  apply (stage Q (progress_file w) 0); try assumption;
    [apply previews_ProgressTracker | reflexivity|].
  intros progress w1 ? E1 _.
  apply ProgressTracker_inv in E1. destruct E1 as (L & -> & _).
  assert (progress = l) by congruence. subst progress. clear L.
  apply (stage Q (progress_file w) 0); try assumption;
    [apply previews_get_daily_count | reflexivity|].
  intros daily_count w5 ? E1 F5. rewrite get_daily_count_eq in E1.
  inversion E1. subst daily_count. clear E1.
  subst w5. set (w5 := set_clock (stail (clock w)) w) in *.
  fold (count_today (utc_date (shead (clock w))) l) in *.
  set (today := utc_date (shead (clock w))) in *.
  set (daily_limit := or_default (cfg_daily_limit cfg) 100%Z).
  destruct (Z.geb_spec (count_today today l) daily_limit) as [G|G].
  { apply (Qq 0); [now apply previews_print | exact F5]. }
  cbv zeta.
  apply (stage Q (progress_file w) 0); try assumption;
    [now apply previews_print|].
  intros ? w6 ? E1 _. cbn in E1. invw E1 w6.
  apply (stage Q (progress_file w) 0); try assumption.
  { destruct (test_email_given test_email).
    - apply previews_then; [now apply previews_print | intros; apply previews_ret].
    - apply previews_then; [now apply previews_print|].
      intros; apply previews_fetch_recipients. }
  intros recipients w7 o7 E7 F7.
  assert (R : match test_email_given test_email with
              | Some e => recipients = [test_recipient e]
              | None => exists w7 o, fetch_recipients cfg w5 = Ok recipients w7 o
              end /\ exists g, w7 = set_random g w5).
  { destruct (test_email_given test_email) as [e|].
    - cbn in E7. inversion E7. split; [reflexivity|].
      now exists (random w5).
    - rewrite bind_eq in E7. cbn [print log prepend] in E7.
      destruct (fetch_recipients cfg w5) as [rs0 w0' ?|] eqn:R;
        [|discriminate].
      cbn [prepend] in E7. inversion E7. subst.
      split; [now do 2 eexists|].
      eapply fetch_recipients_world. eassumption. }
  destruct R as [R [g W7]]. clear E7.
  destruct recipients as [|r0 rs].
  { apply (Qq 0); [now apply previews_print | exact F7]. }
  apply (stage Q (progress_file w) 0); try assumption;
    [now apply previews_print|].
  intros ? w8 ? E1 _. cbn in E1. invw E1 w8.
  fold (pending_of l (r0 :: rs)).
  destruct (pending_of l (r0 :: rs)) as [|p0 ps] eqn:P.
  { apply (Qq 0); [now apply previews_print | exact F7]. }
  rewrite <- P.
  apply (stage Q (progress_file w) 0); try assumption.
  { destruct (limit_given limit); [now apply previews_print | apply previews_ret]. }
  intros ? w9 ? E1 _.
  assert (w9 = w7) by (destruct (limit_given limit); cbn in E1; now inversion E1).
  subst w9. clear E1.
  apply (stage Q (progress_file w) 0); try assumption.
  { destruct (_ >? _)%Z; [now apply previews_print | apply previews_ret]. }
  intros ? w9 ? E1 _.
  assert (w9 = w7) by (destruct (_ >? _)%Z; cbn in E1; now inversion E1).
  subst w9. clear E1.
  apply (stage Q (progress_file w) 0); try assumption;
    [apply previews_authenticate|].
  intros ? w9 ? E1 _. unfold authenticate in E1.
  destruct (credentials_ok w7) eqn:Cr; [|discriminate]. invw E1 w9.
  apply (stage Q (progress_file w) 0); try assumption;
    [now apply previews_print|].
  intros ? w9 ? E1 _. cbn in E1. invw E1 w9.
  rewrite apply_limits_eq.
  set (todo := apply_limits limit (daily_limit - count_today today l)
                            (pending_of l (r0 :: rs))).
  assert (L7 : stored_ledger (progress_file w7) = Some l) by now rewrite F7.
  destruct (send_loop_detail (or_default (cfg_sender_name cfg) (txt "Mailer"))
              st bt (length todo) todo 1 l 0 w7 L7)
    as (l' & cnt & w' & out & E & So & Oo & Co & Hs & Hf & Fo & _ & _ & Ao & To).
  rewrite (bind_Ok _ _ _ _ _ _ _ _ E). cbn [print log prepend].
  right. exists (r0 :: rs), l', w', (out ++ [Print
    (Summary cnt (length (sent l')) (length (failed l'))
       (Z.of_nat (length (r0 :: rs)) - Z.of_nat (length (sent l'))
        - Z.of_nat (length (failed l'))))]).
  rewrite sends_app, delivered_app, rejected_app, outcomes_app.
  cbn [sends delivered rejected outcomes flat_map sent_to delivered_to
       rejected_by outcome_of]. rewrite !app_nil_r.
  assert (W : gmail w7 = gmail w /\ forall d, dated d w -> dated d w7).
  { rewrite W7. split; [reflexivity|]. intros d D n. apply (D (S n)). }
  destruct W as [Wg Wd].
  split; [reflexivity|]. split; [rewrite W7 in Cr; exact Cr|].
  split; [change (0 < daily_limit - count_today today l)%Z; lia|]. split.
  { exact R. }
  split; [rewrite P; discriminate|].
  split; [reflexivity|]. split; [exact So|]. split.
  { rewrite Oo, So, length_map, Wg. reflexivity. }
  split; [exact Fo|]. split; [exact Hs|]. split; [exact Hf|]. split.
  { apply in_or_app. right. left. cbn in Co. now rewrite Co. }
  intros d D. apply To, Wd, D.
Qed.




(* ====================================================================== *)
(** * The limits of a run: results                                        *)
(* ====================================================================== *)





(* ====================================================================== *)
(** * More on the sending loop: the account of a run                      *)
(* ====================================================================== *)

Lemma outcomes_length (out : list event) :
  length (outcomes out) = length (sends out) /\
  length (delivered out) + length (rejected out) = length (sends out).
Proof.
  unfold outcomes, sends, delivered, rejected.
  induction out as [|e out [IH1 IH2]]; [now split|].
  cbn [flat_map]. rewrite !length_app, IH1.
  destruct e as [| ? ? ? ? [?|] | | |]; cbn; split; lia.
Qed.

Lemma dict_get_app (A : Type) (k : text) (a b : list (text * A)) :
  dict_get k (a ++ b)
  = match dict_get k a with Some v => Some v | None => dict_get k b end.
Proof.
  induction a as [|[k' v] a IH]; cbn; [reflexivity|].
  now destruct (text_eqb k k').
Qed.




Lemma steps_app (a b : list event) : steps (a ++ b) = steps a ++ steps b.
Proof. apply flat_map_app. Qed.






(* ====================================================================== *)
(** * More on a run of the campaign: results                              *)
(* ====================================================================== *)



Lemma apply_limits_within (limit : option Z) (rem : Z)
    (pending : list recipient) :
  (0 < rem)%Z ->
  (Z.of_nat (length (apply_limits limit rem pending)) <= rem)%Z.
Proof.
  intros H. unfold apply_limits. rewrite (cap_daily_length _ _ H). lia.
Qed.

Lemma delivered_shorter (out : list event) :
  length (delivered out) <= length (sends out).
Proof. destruct (outcomes_length out) as [_ L]. lia. Qed.

(** X9. A run never sends more than the quota of the day leaves: the
    number of calls of [send_email] is at most the daily limit of the
    configuration (100 by default) less the count the ledger holds for
    the day the run starts on, and none when that is used up. While the
    date does not change, the count of the day grows by the number of
    messages delivered, so it does not pass the limit. *)
Theorem run_respects_daily_quota (dry_run : bool) (limit : option Z)
    (test_email : option text) (cfg : config) (l : ledger) (w : world) :
  config_file w = Some cfg -> stored_ledger (progress_file w) = Some l ->
  let r := run_campaign dry_run limit test_email w in
  let today := utc_date (shead (clock w)) in
  let daily_limit := or_default (cfg_daily_limit cfg) 100%Z in
  (Z.of_nat (length (sends (events r)))
   <= Z.max 0 (daily_limit - count_today today l))%Z /\
  (dated today w ->
   exists l',
     stored_ledger (progress_file (final r)) = Some l' /\
     count_today today l'
     = (count_today today l + Z.of_nat (length (delivered (events r))))%Z /\
     (count_today today l' <= Z.max daily_limit (count_today today l))%Z).
Proof.
  intros Hcfg Hl. cbv zeta.
  set (today := utc_date (shead (clock w))).
  set (daily_limit := or_default (cfg_daily_limit cfg) 100%Z).
  destruct (run_campaign_detail dry_run limit test_email cfg l w Hcfg Hl)
    as [[H F]|(rs & l' & w' & out & _ & _ & Hr & _ & _ & E & Hs & _ & Hst & _
               & _ & _ & Hc)].
  - destruct (harmless_sends _ H) as [S D]. rewrite S, D. cbn [length].
    split; [lia|]. intros _. exists l. rewrite F.
    split; [exact Hl|]. split; lia.
  - fold today daily_limit in Hr, Hs. rewrite E. cbn [events final].
    pose proof (apply_limits_within limit _ (pending_of l rs) Hr) as B.
    rewrite Hs, length_map. split; [lia|]. intros D. exists l'.
    split; [exact Hst|]. rewrite (Hc today D). split; [reflexivity|].
    pose proof (delivered_shorter out) as Le.
    rewrite Hs, length_map in Le. lia.
Qed.

Lemma run_respects_daily_quota_witness :
  let w := sample_world (Document (json_of_ledger (counted_today 99)))
                        two_recipients in
  (Z.of_nat (length (sends (events (run_campaign false None None w))))
   <= 1)%Z.
Proof.
  cbv zeta.
  refine (proj1 (run_respects_daily_quota false None None sample_config
                   (counted_today 99)
                   (sample_world (Document (json_of_ledger (counted_today 99)))
                                 two_recipients) _ _));
    reflexivity.
Defined.

(** X10. When the count of the day has reached the daily limit, the run
    prints the banner, what the tracker printed on loading and the notice
    of the limit, and returns: no recipient is fetched, nothing is sent
    or written, with or without [--dry-run], [--limit] and [--to]. *)
Theorem quota_reached_stops_run (dry_run : bool) (limit : option Z)
    (test_email : option text) (cfg : config) (t : text * text)
    (l : ledger) (w : world) :
  config_file w = Some cfg -> template_file w = Some t ->
  stored_ledger (progress_file w) = Some l ->
  (or_default (cfg_daily_limit cfg) 100
   <= count_today (utc_date (shead (clock w))) l)%Z ->
  exists loaded,
    ProgressTracker w = Ok l w loaded /\
    run_campaign dry_run limit test_email w
    = Ok tt (set_clock (stail (clock w)) w)
         (Print Banner :: loaded
          ++ [Print (DailyLimitReached (or_default (cfg_daily_limit cfg) 100%Z))]).
Proof.
  intros Hcfg Ht Hl Q.
  destruct (ProgressTracker_ok w l Hl) as (loaded & P & _).
  exists loaded. split; [exact P|].
  unfold run_campaign. rewrite bind_eq. cbn [print log prepend].
  rewrite bind_eq. unfold load_config at 1. rewrite Hcfg. cbn [prepend app].
  rewrite bind_eq. unfold load_template at 1. rewrite Ht.
  destruct t as [st bt]. cbn [prepend app].
  rewrite (bind_Ok _ _ _ _ _ _ _ _ P).
  rewrite (bind_Ok _ _ _ _ _ _ _ _ (get_daily_count_eq l w)).
  fold (count_today (utc_date (shead (clock w))) l).
  destruct (Z.geb_spec (count_today (utc_date (shead (clock w))) l)
                       (or_default (cfg_daily_limit cfg) 100%Z)) as [G|G]; [|lia].
  cbn [print log prepend app]. reflexivity.
Qed.

Lemma quota_reached_stops_run_witness :
  let w := sample_world (Document (json_of_ledger (counted_today 100)))
                        two_recipients in
  exists loaded,
    ProgressTracker w = Ok (counted_today 100) w loaded /\
    run_campaign false None None w
    = Ok tt (set_clock (stail (clock w)) w)
         (Print Banner :: loaded ++ [Print (DailyLimitReached 100)]).
Proof.
  cbv zeta.
  refine (quota_reached_stops_run false None None sample_config _
            (counted_today 100)
            (sample_world (Document (json_of_ledger (counted_today 100)))
                          two_recipients) _ eq_refl _ _).
  - reflexivity.
  - reflexivity.
  - vm_compute. discriminate.
Defined.





(* ====================================================================== *)
(** * More on the command line                                            *)
(* ====================================================================== *)

(** [reset] writes the default ledger, stamped, whatever the tracker
    held. *)
Lemma reset_eq (self : ledger) (w : world) :
  let fresh := with_last_updated default_data
                 (Some (utc_stamp (shead (clock w)))) in
  reset self w
  = Ok fresh
       (set_progress (Document (json_of_ledger fresh)) Missing
                     (set_clock (stail (clock w)) w))
       [WriteTemp; ReplaceProgress; Print ProgressReset].
Proof. reflexivity. Qed.

(** X13. [--reset] without [--dry-run] and without [--limit] resets and
    stops: the tracker loads the ledger, the default ledger is written
    over it with the time of the reset, and nothing else happens; no
    campaign is run, also when [--to] is given. *)
Theorem main_reset_alone (a : args) (l : ledger) (w : world) :
  arg_reset a = true -> arg_dry_run a = false -> arg_limit a = None ->
  stored_ledger (progress_file w) = Some l ->
  exists loaded w',
    ProgressTracker w = Ok l w loaded /\
    main a w
    = Ok tt w' (loaded ++ [WriteTemp; ReplaceProgress; Print ProgressReset]) /\
    stored_ledger (progress_file w')
    = Some (with_last_updated default_data
              (Some (utc_stamp (shead (clock w))))) /\
    progress_tmp w' = Missing /\
    emails_file w' = emails_file w /\ gmail w' = gmail w.
Proof.
  intros Hr Hd Hn Hl.
  destruct (ProgressTracker_ok w l Hl) as (loaded & P & _).
  exists loaded. eexists. split; [exact P|].
  unfold main. rewrite Hr, Hd, Hn.
  rewrite bind_eq, (bind_Ok _ _ _ _ _ _ _ _ P).
  rewrite (bind_Ok _ _ _ _ _ _ _ _ (reset_eq l w)).
  cbn [ret prepend negb andb app]. rewrite app_nil_r.
  split; [reflexivity|]. cbn [progress_file set_progress progress_tmp
                              emails_file gmail set_clock].
  split; [apply stored_ledger_document|]. now conjs.
Qed.

Lemma main_reset_alone_witness :
  let a := {| arg_dry_run := false; arg_limit := None; arg_reset := true;
              arg_to := Some (txt "bob@x.org") |} in
  let w := sample_world (Document (json_of_ledger (counted_today 7)))
                        two_recipients in
  exists loaded w',
    main a w
    = Ok tt w' (loaded ++ [WriteTemp; ReplaceProgress; Print ProgressReset]) /\
    progress_tmp w' = Missing.
Proof.
  cbv zeta.
  destruct (main_reset_alone
              {| arg_dry_run := false; arg_limit := None; arg_reset := true;
                 arg_to := Some (txt "bob@x.org") |}
              (counted_today 7)
              (sample_world (Document (json_of_ledger (counted_today 7)))
                            two_recipients)
              eq_refl eq_refl eq_refl eq_refl)
    as (loaded & w' & _ & E & _ & T & _).
  exists loaded, w'. now split.
Defined.

(** X14. [--reset] does not repair a progress file that [_load] cannot
    read: when loading raises (the file is not text, or the document has
    no [sent] or no [failed] that has a length), [main] raises the same
    exception before the reset, the file stays as it is and no campaign
    is run. *)
Theorem main_reset_unreadable (a : args) (w w' : world) (e : exn)
    (o : list event) :
  arg_reset a = true ->
  _load (json_of_ledger default_data) w = Raise e w' o ->
  main a w = Raise e w [] /\ w' = w /\ o = [] /\
  (progress_file w = Garbled /\ e = UnicodeDecodeError \/
   exists j, progress_file w = Document j /\ (e = KeyError \/ e = TypeError)).
Proof.
  intros Hr L.
  assert (X : w' = w /\ o = [] /\
              (progress_file w = Garbled /\ e = UnicodeDecodeError \/
               exists j, progress_file w = Document j /\
                         (e = KeyError \/ e = TypeError))).
  { revert L. unfold _load. destruct (progress_file w) as [| | |j];
      try discriminate.
    - intros H. inversion H. auto.
    - assert (K : forall (x : exn + json), (exists k, x = subscript j k) ->
                    forall e0, x = inl e0 -> e0 = KeyError \/ e0 = TypeError).
      { intros x (k & ->) e0. unfold subscript.
        destruct j as [| | | | |items]; try (intros H; inversion H; now auto).
        destruct (dict_get k items); intros H; inversion H. now auto. }
      assert (T : forall v e0, py_len v = inl e0 -> e0 = TypeError).
      { intros v e0. destruct v; cbn; intros H; inversion H; reflexivity. }
      destruct (subscript j (txt "sent")) as [e1|s] eqn:S1.
      { intros H. inversion H. subst. split; [reflexivity|].
        split; [reflexivity|]. right. exists j. split; [reflexivity|].
        apply (K (inl e) (ex_intro _ (txt "sent") (eq_sym S1)) e eq_refl). }
      destruct (py_len s) as [e1|n1] eqn:P1.
      { intros H. inversion H. subst. split; [reflexivity|].
        split; [reflexivity|]. right. exists j. split; [reflexivity|].
        right. apply (T _ _ P1). }
      destruct (subscript j (txt "failed")) as [e1|f] eqn:S2.
      { intros H. inversion H. subst. split; [reflexivity|].
        split; [reflexivity|]. right. exists j. split; [reflexivity|].
        apply (K (inl e) (ex_intro _ (txt "failed") (eq_sym S2)) e eq_refl). }
      destruct (py_len f) as [e1|n2] eqn:P2; [|discriminate].
      intros H. inversion H. subst. split; [reflexivity|].
      split; [reflexivity|]. right. exists j. split; [reflexivity|].
      right. apply (T _ _ P2). }
  destruct X as (-> & -> & X). split; [|now conjs].
  unfold main. rewrite Hr. unfold ProgressTracker. now rewrite !bind_eq, L.
Qed.

Lemma main_reset_unreadable_witness :
  let a := {| arg_dry_run := false; arg_limit := None; arg_reset := true;
              arg_to := None |} in
  let w := sample_world (Document (JObj [])) two_recipients in
  main a w = Raise KeyError w [].
Proof.
  cbv zeta.
  refine (proj1 (main_reset_unreadable
                   {| arg_dry_run := false; arg_limit := None;
                      arg_reset := true; arg_to := None |}
                   (sample_world (Document (JObj [])) two_recipients)
                   (sample_world (Document (JObj [])) two_recipients)
                   KeyError [] eq_refl eq_refl)).
Defined.

(** X15. [--reset] with [--dry-run] or with a [--limit] (0 too) resets
    and then runs the campaign on the ledger just written: the run
    starts from an empty ledger, so it filters no recipient out, whatever
    the ledger listed before. *)
Theorem main_reset_then_run (a : args) (l : ledger) (w : world) :
  arg_reset a = true -> arg_dry_run a = true \/ arg_limit a <> None ->
  stored_ledger (progress_file w) = Some l ->
  let fresh := with_last_updated default_data
                 (Some (utc_stamp (shead (clock w)))) in
  let w1 := set_progress (Document (json_of_ledger fresh)) Missing
                         (set_clock (stail (clock w)) w) in
  exists loaded,
    ProgressTracker w = Ok l w loaded /\
    main a w
    = prepend (loaded ++ [WriteTemp; ReplaceProgress; Print ProgressReset])
              (run_campaign (arg_dry_run a) (arg_limit a) (arg_to a) w1) /\
    stored_ledger (progress_file w1) = Some fresh /\
    (forall rs, pending_of fresh rs = rs).
Proof.
  intros Hr Hc Hl fresh w1.
  destruct (ProgressTracker_ok w l Hl) as (loaded & P & _).
  exists loaded. split; [exact P|]. split.
  - unfold main. rewrite Hr.
    rewrite bind_eq, (bind_Ok _ _ _ _ _ _ _ _ P).
    rewrite (bind_Ok _ _ _ _ _ _ _ _ (reset_eq l w)).
    cbn [ret prepend app]. fold fresh. fold w1.
    assert (S : negb (arg_dry_run a)
                && match arg_limit a with None => true | Some _ => false end
                = false).
    { destruct Hc as [->|N]; [reflexivity|].
      destruct (arg_limit a); [apply andb_false_r | now elim N]. }
    rewrite S. reflexivity.
  - split; [apply stored_ledger_document|].
    intros rs. unfold pending_of. induction rs as [|r rs IH]; [reflexivity|].
    cbn [filter]. rewrite IH. reflexivity.
Qed.

Lemma main_reset_then_run_witness :
  let a := {| arg_dry_run := false; arg_limit := Some 0%Z; arg_reset := true;
              arg_to := None |} in
  let w := sample_world
             (Document (json_of_ledger
                          (ledger_with_sent [txt "a@x.org"; txt "b@x.org"])))
             two_recipients in
  exists loaded w1,
    main a w
    = prepend (loaded ++ [WriteTemp; ReplaceProgress; Print ProgressReset])
              (run_campaign false (Some 0%Z) None w1) /\
    stored_ledger (progress_file w1)
    = Some (with_last_updated default_data (Some (utc_stamp noon))).
Proof.
  cbv zeta.
  assert (N : Some 0%Z <> None) by discriminate.
  destruct (main_reset_then_run
              {| arg_dry_run := false; arg_limit := Some 0%Z;
                 arg_reset := true; arg_to := None |}
              (ledger_with_sent [txt "a@x.org"; txt "b@x.org"])
              (sample_world
                 (Document (json_of_ledger
                              (ledger_with_sent [txt "a@x.org"; txt "b@x.org"])))
                 two_recipients)
              eq_refl (or_intror N)
              (stored_ledger_document
                 (ledger_with_sent [txt "a@x.org"; txt "b@x.org"])))
    as (loaded & _ & E & F & _).
  exists loaded. eexists. split; [exact E | exact F].
Defined.

(* ====================================================================== *)
(** * More on the spintax processor and the template expander             *)
(* ====================================================================== *)

Lemma split_on_chars (sep : ascii) (s o : text) (c : ascii) :
  In o (split_on sep s) -> In c o -> In c s.
Proof.
  revert o. induction s as [|d s IH]; intros o; simpl.
  - intros [<-|[]] [].
  - destruct (Ascii.eqb d sep).
    + intros [<-|H] I; [destruct I | right; now apply (IH o)].
    + destruct (split_on sep s) as [|h t] eqn:E.
      * intros [<-|[]] [<-|[]]. now left.
      * intros [<-|H] I.
        -- destruct I as [<-|I]; [now left | right].
           apply (IH h); [now left | exact I].
        -- right. apply (IH o); [now right | exact I].
Qed.

Lemma re_sub_chars (n : nat) : forall (s : text) (g : rng) (c : ascii),
  length s <= n -> In c (fst (re_sub s g)) -> In c s.
Proof.
  induction n as [|n IH]; intros s g c Hn.
  - destruct s; [|simpl in Hn; lia]. intros [].
  - rewrite re_sub_eq. destruct (match_group s) as [[b r]|] eqn:E.
    + pose proof (match_group_shorter _ _ _ E) as L.
      apply match_group_iff in E. destruct E as (-> & _ & _).
      cbn [fst]. intros I. apply in_app_or in I. right.
      apply in_or_app. destruct I as [I|I].
      * left. apply (split_on_chars "|"%char b _ c (replace_spin_In b g) I).
      * right. right. apply (IH r (snd (replace_spin b g)) c); [lia | exact I].
    + destruct s as [|d s]; [intros []|]. cbn [fst]. simpl in Hn.
      intros [<-|I]; [now left | right]. apply (IH s g c); [lia | exact I].
Qed.

Lemma spin_passes_shrinks (n : nat) : forall (s : text) (g : rng),
  length s <= n ->
  length (fst (spin_passes n s g)) <= length s /\
  (re_search s = true -> length (fst (spin_passes n s g)) < length s) /\
  (forall c, In c (fst (spin_passes n s g)) -> In c s).
Proof.
  induction n as [|n IH]; intros s g Hn.
  - destruct s; [|simpl in Hn; lia]. cbn. split; [lia|].
    split; [discriminate | auto].
  - cbn [spin_passes]. destruct (re_search s) eqn:R.
    + destruct (re_sub_length (length s) s g (le_n _)) as [_ L].
      specialize (L R).
      pose proof (fun c => re_sub_chars (length s) s g c (le_n _)) as C.
      destruct (re_sub s g) as [s' g']. cbn [fst] in L, C.
      destruct (IH s' g') as (H1 & _ & H3); [lia|].
      split; [lia|]. split; [intros _; lia|]. intros c I. apply C, H3, I.
    + cbn. split; [lia|]. split; [discriminate | auto].
Qed.

(** X16. What [process_spintax] returns is never longer than the text
    it was given, and shorter when the text held a group; it is made of
    characters of the text. A text that holds no group is returned as it
    is and no random number is drawn; so processing the result once more
    changes nothing. *)
Theorem process_spintax_shrinks (s : text) (g : rng) :
  let out := fst (process_spintax s g) in
  length out <= length s /\
  (re_search s = true -> length out < length s) /\
  (re_search s = false -> process_spintax s g = (s, g)) /\
  (forall c, In c out -> In c s) /\
  (forall g', process_spintax out g' = (out, g')).
Proof.
  cbv zeta.
  destruct (spin_passes_shrinks (length s) s g (le_n _)) as (H1 & H2 & H3).
  fold (process_spintax s g) in H1, H2, H3.
  split; [exact H1|]. split; [exact H2|]. split.
  - intros R. now rewrite process_spintax_eq, R.
  - split; [exact H3|]. intros g'.
    now rewrite process_spintax_eq, process_spintax_done.
Qed.

Lemma plain_no_placeholder (key s : text) :
  plain s = true -> contains (placeholder key) s = false.
Proof.
  intros P. destruct (contains (placeholder key) s) eqn:C; [|reflexivity].
  apply contains_iff in C. destruct C as (pre & post & ->).
  rewrite plain_app in P. apply andb_prop in P. destruct P as [_ P].
  unfold placeholder in P. cbn in P. discriminate.
Qed.

(** X17. A template without braces is sent as it is written: when
    neither the subject nor the body holds a brace, [build_message] gives
    them back for every first name and draws no random number. *)
Theorem build_message_plain_template (first_name subject body : text)
    (g : rng) :
  plain subject = true -> plain body = true ->
  build_message first_name subject body g = ((subject, body), g).
Proof.
  intros Ps Pb. unfold build_message.
  assert (S : forall s g', plain s = true -> process_spintax s g' = (s, g')).
  { intros s g' P. now rewrite process_spintax_eq, (re_search_plain _ P). }
  rewrite (replace_variables_absent _ subject),
          (replace_variables_absent _ body).
  - now rewrite (S _ _ Ps), (S _ _ Pb).
  - intros kv [<-|[]]. now apply plain_no_placeholder.
  - intros kv [<-|[]]. now apply plain_no_placeholder.
Qed.

Lemma build_message_plain_template_witness :
  build_message (txt "Al") (txt "Hello") (txt "See you soon.") always_second
  = ((txt "Hello", txt "See you soon."), always_second).
Proof.
  apply build_message_plain_template; reflexivity.
Defined.

(* ====================================================================== *)
(** * More on the limits and the dry run                                  *)
(* ====================================================================== *)

(** X18. A negative [--limit] is a limit too: [pending[:limit]] drops
    that many recipients from the end of the list, so the number
    processed is the number pending less the number dropped, or none, cut
    to the count left for the day; the run prints the limit as given. *)
Theorem negative_limit_cuts_from_the_end (n rem : Z)
    (pending : list recipient) :
  (n < 0)%Z -> (0 < rem)%Z ->
  apply_limit (Some n) pending
  = firstn (length pending - Z.to_nat (- n)) pending /\
  Z.of_nat (length (apply_limits (Some n) rem pending))
  = Z.min rem (Z.max 0 (Z.of_nat (length pending) + n)) /\
  ((Z.of_nat (length pending) <= - n)%Z ->
   apply_limits (Some n) rem pending = []) /\
  limit_given (Some n) = Some n.
Proof.
  intros Hn Hr.
  assert (E : apply_limit (Some n) pending
              = firstn (length pending - Z.to_nat (- n)) pending).
  { unfold apply_limit, slice_to. destruct n as [|p|p]; try lia.
    destruct (Z.leb_spec 0 (Z.neg p)); [lia|]. f_equal. lia. }
  assert (L : Z.of_nat (length (apply_limits (Some n) rem pending))
              = Z.min rem (Z.max 0 (Z.of_nat (length pending) + n))).
  { unfold apply_limits. rewrite (cap_daily_length _ _ Hr), E, length_firstn.
    lia. }
  split; [exact E|]. split; [exact L|]. split.
  - intros H. destruct (apply_limits (Some n) rem pending); [reflexivity|].
    cbn [length] in L. lia.
  - destruct n; try lia. reflexivity.
Qed.

Lemma negative_limit_cuts_from_the_end_witness :
  map email (apply_limit (Some (-1)%Z)
               [person "a@x.org" "Al"; person "b@x.org" "Bo";
                person "c@x.org" "Cy"])
  = [txt "a@x.org"; txt "b@x.org"].
Proof.
  rewrite (proj1 (negative_limit_cuts_from_the_end (-1) 10
                    [person "a@x.org" "Al"; person "b@x.org" "Bo";
                     person "c@x.org" "Cy"] eq_refl eq_refl)).
  reflexivity.
Defined.

Lemma previewed_app (a b : list event) :
  previewed (a ++ b) = previewed a ++ previewed b.
Proof. apply flat_map_app. Qed.



Lemma apply_limit_negative (n : Z) (pending : list recipient) :
  (n < 0)%Z ->
  apply_limit (Some n) pending
  = firstn (length pending - Z.to_nat (- n)) pending /\
  limit_given (Some n) = Some n.
Proof.
  intros Hn. destruct n as [|p|p]; try lia. split; [|reflexivity].
  unfold apply_limit, slice_to.
  destruct (Z.leb_spec 0 (Z.neg p)); [lia|]. f_equal. lia.
Qed.

(** X20. A dry run with a negative [--limit] that drops every pending
    recipient does not return: the list is cut to nothing and the sample
    preview reads its first element. When the configuration, the
    template and the ledger load, the quota of the day is not used up
    and some recipient is pending, [--dry-run --limit n] with [-n] at
    least the number pending raises [IndexError] after the header of the
    dry run, having written nothing. *)
Theorem dry_run_negative_limit_raises (n : Z) (cfg : config)
    (t : text * text) (l : ledger) (rs : list recipient) (w w7 : world)
    (o : list event) :
  config_file w = Some cfg -> template_file w = Some t ->
  stored_ledger (progress_file w) = Some l ->
  (count_today (utc_date (shead (clock w))) l
   < or_default (cfg_daily_limit cfg) 100)%Z ->
  fetch_recipients cfg (set_clock (stail (clock w)) w) = Ok rs w7 o ->
  pending_of l rs <> [] ->
  (Z.of_nat (length (pending_of l rs)) <= - n)%Z ->
  exists out,
    run_campaign true (Some n) None w
    = Raise IndexError w7 (out ++ [Print (LimitedTo n); Print DryRunHeader]) /\
    forallb harmless out = true /\
    progress_file w7 = progress_file w.
Proof.
  intros Hcfg Ht Hl Q F Hp Hle.
  assert (Hn : (n < 0)%Z).
  { destruct (pending_of l rs); [now elim Hp | cbn [length] in Hle; lia]. }
  destruct (ProgressTracker_ok w l Hl) as (loaded & P & Hloaded).
  destruct (previews_fetch_recipients cfg (set_clock (stail (clock w)) w))
    as (Ho & _ & Fo & _).
  rewrite F in Ho, Fo. cbn [events final] in Ho, Fo.
  unfold run_campaign. rewrite bind_eq. cbn [print log prepend].
  rewrite bind_eq. unfold load_config at 1. rewrite Hcfg. cbn [prepend app].
  rewrite bind_eq. unfold load_template at 1. rewrite Ht.
  destruct t as [st bt]. cbn [prepend app].
  rewrite (bind_Ok _ _ _ _ _ _ _ _ P).
  rewrite (bind_Ok _ _ _ _ _ _ _ _ (get_daily_count_eq l w)).
  fold (count_today (utc_date (shead (clock w))) l).
  set (today := utc_date (shead (clock w))) in *.
  set (daily_limit := or_default (cfg_daily_limit cfg) 100%Z) in *.
  destruct (Z.geb_spec (count_today today l) daily_limit) as [G|G]; [lia|].
  cbv zeta. rewrite bind_eq. cbn [print log prepend test_email_given].
  assert (E : bind (print FetchingRecipients) (fun _ => fetch_recipients cfg)
                (set_clock (stail (clock w)) w)
              = Ok rs w7 (Print FetchingRecipients :: o)).
  { rewrite bind_eq. cbn [print log]. now rewrite F. }
  rewrite (bind_Ok _ _ _ _ _ _ _ _ E).
  destruct rs as [|r0 rs']; [now elim Hp|].
  rewrite bind_eq. cbn [print log prepend].
  fold (pending_of l (r0 :: rs')).
  destruct (pending_of l (r0 :: rs')) as [|p0 ps] eqn:Pe; [now elim Hp|].
  destruct (apply_limit_negative n (p0 :: ps) Hn) as [A Lg].
  assert (A0 : apply_limit (Some n) (p0 :: ps) = []).
  { rewrite A. replace (length (p0 :: ps) - Z.to_nat (- n)) with 0 by lia.
    reflexivity. }
  rewrite A0, Lg. rewrite bind_eq. cbn [print log prepend].
  cbn [length]. unfold cap_daily. cbn [length].
  destruct (Z.gtb_spec (Z.of_nat 0) (daily_limit - count_today today l))
    as [C|C]; [lia|].
  rewrite bind_eq. cbn [ret prepend].
  unfold dry_run_preview. cbn.
  exists (Print Banner :: loaded
          ++ Print (DailyQuota (count_today today l) daily_limit
                      (daily_limit - count_today today l))
          :: Print FetchingRecipients :: o
          ++ [Print (PendingEmails (S (length ps))
                       (length (r0 :: rs') - S (length ps)))]).
  split.
  - f_equal. cbn [app]. f_equal. rewrite <- !app_assoc. cbn [app].
    f_equal. f_equal. f_equal. rewrite <- app_assoc. reflexivity.
  - split; [|exact Fo]. cbn [forallb harmless]. rewrite forallb_app.
    cbn [forallb harmless]. rewrite forallb_app, Ho. cbn.
    destruct Hloaded as [->|[->| ->]]; reflexivity.
Qed.

Lemma dry_run_negative_limit_raises_witness :
  let w := sample_world Missing two_recipients in
  exists out w7,
    run_campaign true (Some (-2)%Z) None w
    = Raise IndexError w7 (out ++ [Print (LimitedTo (-2)); Print DryRunHeader]).
Proof.
  cbv zeta.
  destruct (fetch_recipients sample_config
              (set_clock (stail (clock (sample_world Missing two_recipients)))
                         (sample_world Missing two_recipients)))
    as [rs w7 o|e w7 o] eqn:F; [|vm_compute in F; discriminate].
  assert (R : rs = [person "b@x.org" "Bo"; person "a@x.org" "Al"]
              \/ rs = [person "a@x.org" "Al"; person "b@x.org" "Bo"]).
  { vm_compute in F. inversion F. auto. }
  destruct (dry_run_negative_limit_raises (-2) sample_config
              (txt "Hi {{first_name}}", txt "{Hello|Hi} {{first_name}}, welcome")
              default_data rs (sample_world Missing two_recipients) w7 o
              eq_refl eq_refl eq_refl eq_refl F)
    as (out & E & _).
  - destruct R as [->| ->]; discriminate.
  - destruct R as [->| ->]; vm_compute; discriminate.
  - exists out, w7. exact E.
Defined.

(* ====================================================================== *)
(** * More on the template file                                           *)
(* ====================================================================== *)

Lemma split_once_eq (sep s : text) :
  split_once sep s =
  match strip_prefix sep s with
  | Some rest => Some ([], rest)
  | None => match s with
            | [] => None
            | c :: s' => match split_once sep s' with
                         | Some (a, b) => Some (c :: a, b)
                         | None => None
                         end
            end
  end.
Proof. destruct s; reflexivity. Qed.

(** [split_once] cuts at an occurrence of the separator, the first. *)
Lemma split_once_spec (sep : text) : forall (s h t : text),
  split_once sep s = Some (h, t) ->
  s = h ++ sep ++ t /\
  forall h' t', s = h' ++ sep ++ t' -> length h <= length h'.
Proof.
  induction s as [|c s IH]; intros h t; rewrite split_once_eq.
  - destruct (strip_prefix sep []) as [rest|] eqn:E; [|discriminate].
    intros H. inversion H. subst. apply strip_prefix_app in E.
    split; [exact E | intros; cbn; lia].
  - destruct (strip_prefix sep (c :: s)) as [rest|] eqn:E.
    + intros H. inversion H. subst. apply strip_prefix_app in E.
      split; [exact E | intros; cbn; lia].
    + destruct (split_once sep s) as [[a b]|] eqn:S; [|discriminate].
      intros H. inversion H. subst. destruct (IH a t eq_refl) as [E1 E2].
      split; [cbn; now f_equal|]. intros h' t' E'.
      destruct h' as [|c' h'].
      * cbn [app] in E'. apply (proj2 (strip_prefix_app _ _ _)) in E'.
        congruence.
      * cbn [app] in E'. inversion E'. subst c'. cbn [length].
        apply le_n_S. now apply (E2 h' t').
Qed.

Lemma split_once_none (sep : text) : forall s : text,
  split_once sep s = None <-> contains sep s = false.
Proof.
  induction s as [|c s IH]; rewrite split_once_eq, contains_eq.
  - destruct (strip_prefix sep []); split; congruence.
  - destruct (strip_prefix sep (c :: s)); [split; discriminate|].
    rewrite <- IH. destruct (split_once sep s) as [[a b]|]; split; congruence.
Qed.

Lemma split_once_app (a : ascii) (sep' tail : text) : forall head : text,
  forallb (fun c => negb (Ascii.eqb c a)) head = true ->
  split_once (a :: sep') (head ++ (a :: sep') ++ tail) = Some (head, tail).
Proof.
  induction head as [|c head IH]; intros H; rewrite split_once_eq.
  - cbn [app]. fold (app sep' tail).
    now rewrite (proj2 (strip_prefix_app (a :: sep') (a :: sep' ++ tail) tail)
                       eq_refl).
  - cbn [forallb] in H. apply andb_prop in H. destruct H as [Hc Hh].
    change ((c :: head) ++ (a :: sep') ++ tail)
      with (c :: (head ++ (a :: sep') ++ tail)).
    cbn [strip_prefix].
    destruct (Ascii.eqb_spec a c) as [->|N].
    + rewrite Ascii.eqb_refl in Hc. discriminate.
    + now rewrite (IH Hh).
Qed.

(** A trimmed text stays trimmed behind a text that starts with a
    character that is not whitespace. *)
Lemma strip_keeps (a : ascii) (p s : text) :
  is_space a = false -> strip s = s -> s <> [] ->
  strip (a :: p ++ s) = a :: p ++ s.
Proof.
  intros Ha Hs Ns. unfold strip. rewrite (lstrip_fixed a _ Ha).
  unfold rstrip.
  assert (R : rev s = lstrip (rev (lstrip s))).
  { unfold strip, rstrip in Hs. rewrite <- Hs at 1. apply rev_involutive. }
  destruct (lstrip (rev (lstrip s))) as [|x r] eqn:E.
  - elim Ns. apply (f_equal (@rev ascii)) in R. now rewrite rev_involutive in R.
  - pose proof (lstrip_head _ _ _ E) as Hx.
    change (a :: p ++ s) with ((a :: p) ++ s). rewrite rev_app_distr, R.
    cbn [app]. rewrite (lstrip_fixed x _ Hx).
    change (x :: r ++ rev (a :: p)) with ((x :: r) ++ rev (a :: p)).
    now rewrite <- R, <- rev_app_distr, rev_involutive.
Qed.

(** X21. What [load_template] reads from the content of the file: when
    it returns, the content holds the separator line, the part before
    the first separator, trimmed, starts with [SUBJECT:], the subject is
    what follows that prefix and the body is what follows the separator,
    and both are trimmed; later separator lines belong to the body. It
    exits when the content holds no separator line, or when the part
    before the first one does not start with [SUBJECT:] once trimmed. *)
Theorem template_of_content_parts (content : text) :
  match template_of_content content with
  | Some (subject, body) =>
      strip subject = subject /\ strip body = body /\
      exists head tail rest,
        content = head ++ separator ++ tail /\
        (forall h' t', content = h' ++ separator ++ t' ->
                       length head <= length h') /\
        strip head = txt "SUBJECT:" ++ rest /\
        subject = strip rest /\ body = strip tail
  | None =>
      contains separator content = false \/
      exists head tail,
        content = head ++ separator ++ tail /\
        (forall h' t', content = h' ++ separator ++ t' ->
                       length head <= length h') /\
        strip_prefix (txt "SUBJECT:") (strip head) = None
  end.
Proof.
  unfold template_of_content.
  destruct (split_once separator content) as [[head tail]|] eqn:S.
  - destruct (split_once_spec _ _ _ _ S) as [E F].
    destruct (strip_prefix (txt "SUBJECT:") (strip head)) as [rest|] eqn:P.
    + split; [apply strip_idem|]. split; [apply strip_idem|].
      exists head, tail, rest. apply strip_prefix_app in P. now conjs.
    + right. exists head, tail. now conjs.
  - left. now apply split_once_none.
Qed.

(** X22. A template file written as the format asks is read back: for
    a subject of one line and a body, both trimmed, the content
    [SUBJECT: ], the subject, the separator line and the body gives that
    subject and that body, also when the body holds separator lines. *)
Theorem template_round_trip (subject body : text) :
  strip subject = subject -> strip body = body -> one_line subject = true ->
  template_of_content (txt "SUBJECT: " ++ subject ++ separator ++ body)
  = Some (subject, body).
Proof.
  intros Hs Hb H1. unfold template_of_content.
  assert (S : split_once separator
                (txt "SUBJECT: " ++ subject ++ separator ++ body)
              = Some (txt "SUBJECT: " ++ subject, body)).
  { rewrite app_assoc. apply split_once_app.
    rewrite forallb_app. unfold one_line in H1. now rewrite H1. }
  rewrite S. rewrite Hb.
  destruct subject as [|c s].
  - reflexivity.
  - assert (K : strip (txt "SUBJECT: " ++ c :: s) = txt "SUBJECT: " ++ c :: s).
    { apply (strip_keeps "S"%char (txt "UBJECT: ") (c :: s));
        [reflexivity | exact Hs | discriminate]. }
    rewrite K. cbn [txt list_ascii_of_string app strip_prefix].
    rewrite !Ascii.eqb_refl.
    replace (strip (" "%char :: c :: s)) with (strip (c :: s)) by reflexivity.
    now rewrite Hs.
Qed.

Lemma template_round_trip_witness :
  template_of_content
    (txt "SUBJECT: " ++ txt "Hi {{first_name}}" ++ separator
     ++ txt "{Hello|Hi} {{first_name}}, welcome")
  = template_file (sample_world Missing Missing).
Proof.
  apply template_round_trip; reflexivity.
Defined.

(* ====================================================================== *)
(** * More on the recipients: the order of the file, the test recipient   *)
(* ====================================================================== *)

(** An entry is recorded after the recipients that are there, or not at
    all. *)
Lemma record_entry_extends (email_field name_field tag : text)
    (rs rs' : recipients) (entry : json) :
  record_entry email_field name_field tag rs entry = inr rs' ->
  exists extra, rs' = rs ++ extra.
Proof.
  unfold record_entry.
  assert (Z : @inr exn recipients rs = inr rs' ->
              exists extra : recipients, rs' = rs ++ extra).
  { intros H. inversion H. exists []. now rewrite app_nil_r. }
  destruct (py_get entry email_field JNull) as [?|[| | |[|c e0]| |]];
    try discriminate; try exact Z.
  destruct (lower (strip (c :: e0))) as [|c' e'] eqn:L; [exact Z|].
  destruct (negb (contains _ _)); [exact Z|].
  destruct (dict_has (c' :: e') rs) eqn:D; [exact Z|].
  destruct (py_get entry name_field JNull) as [?|full_name]; [discriminate|].
  destruct (extract_first_name full_name) as [?|fn]; [discriminate|].
  intros H. inversion H. eexists. now apply dict_set_new.
Qed.

Lemma record_all_extends (email_field name_field tag : text)
    (entries : list json) :
  forall (rs rs' : recipients) (err : option exn),
  record_all email_field name_field tag rs entries = (rs', err) ->
  exists extra, rs' = rs ++ extra.
Proof.
  induction entries as [|entry rest IH]; intros rs rs' err; cbn [record_all].
  - intros H. inversion H. exists []. now rewrite app_nil_r.
  - destruct (record_entry _ _ _ rs entry) as [e|rs1] eqn:E.
    + intros H. inversion H. exists []. now rewrite app_nil_r.
    + intros H. destruct (record_entry_extends _ _ _ _ _ _ E) as (x1 & ->).
      destruct (IH _ _ _ H) as (x2 & ->). exists (x1 ++ x2).
      now rewrite app_assoc.
Qed.

Lemma fetch_from_json_document (entries : list json) (w : world) :
  emails_file w = emails_document entries ->
  fetch_from_json w
  = match record_all (txt "email") (txt "name") (txt "JSON") [] entries with
    | (rs, Some _) => Ok rs w [Print JsonError]
    | (rs, None) => Ok rs w [Print (JsonFound (length rs))]
    end.
Proof. intros E. unfold fetch_from_json. now rewrite E. Qed.

(** X23. Entries added at the end of the recipient file change nothing
    of what was read before them: when [fetch_from_json] reads a file
    without error, it reads the file with more entries after them into
    the same recipients, in the same order, followed by the new ones; so
    of two entries with the same address (up to case and blanks around
    it) the first gives the recipient. *)
Theorem fetch_from_json_append_only (pre rest : list json) (w1 w2 : world)
    (rs1 : recipients) :
  emails_file w1 = emails_document pre ->
  emails_file w2 = emails_document (pre ++ rest) ->
  fetch_from_json w1 = Ok rs1 w1 [Print (JsonFound (length rs1))] ->
  exists extra o2,
    fetch_from_json w2 = Ok (rs1 ++ extra) w2 o2 /\
    (forall k, dict_has k rs1 = true ->
               dict_get k (rs1 ++ extra) = dict_get k rs1).
Proof.
  intros E1 E2. rewrite (fetch_from_json_document pre w1 E1).
  rewrite (fetch_from_json_document (pre ++ rest) w2 E2), record_all_app.
  destruct (record_all _ _ _ [] pre) as [rs [e|]] eqn:R.
  - intros H. inversion H.
  - intros H. inversion H. subst rs1.
    destruct (record_all _ _ _ rs rest) as [rs' err] eqn:R'.
    destruct (record_all_extends _ _ _ _ _ _ _ R') as (extra & ->).
    exists extra. destruct err; eexists; (split; [reflexivity|]);
      intros k D; rewrite dict_get_app; unfold dict_has in D;
      now destruct (dict_get k rs).
Qed.

Lemma fetch_from_json_append_only_witness :
  exists extra o2,
    fetch_from_json
      (sample_world Missing
         (emails_document ([entry_of "a@x.org" "Al"; entry_of "b@x.org" "Bo"]
                           ++ [entry_of " A@X.org" "Alfred";
                               entry_of "c@x.org" "Cy"])))
    = Ok ([(txt "a@x.org", person "a@x.org" "Al");
           (txt "b@x.org", person "b@x.org" "Bo")] ++ extra)
         (sample_world Missing
            (emails_document ([entry_of "a@x.org" "Al"; entry_of "b@x.org" "Bo"]
                              ++ [entry_of " A@X.org" "Alfred";
                                  entry_of "c@x.org" "Cy"])))
         o2.
Proof.
  destruct (fetch_from_json_append_only
              [entry_of "a@x.org" "Al"; entry_of "b@x.org" "Bo"]
              [entry_of " A@X.org" "Alfred"; entry_of "c@x.org" "Cy"]
              (sample_world Missing two_recipients)
              (sample_world Missing
                 (emails_document
                    ([entry_of "a@x.org" "Al"; entry_of "b@x.org" "Bo"]
                     ++ [entry_of " A@X.org" "Alfred";
                         entry_of "c@x.org" "Cy"])))
              [(txt "a@x.org", person "a@x.org" "Al");
               (txt "b@x.org", person "b@x.org" "Bo")]
              eq_refl eq_refl)
    as (extra & o2 & E & _).
  - vm_compute. reflexivity.
  - exists extra, o2. exact E.
Defined.

(** The first part of a split is the text before the first separator. *)
Lemma split_on_hd (sep : ascii) (s : text) :
  exists rest,
    s = hd [] (split_on sep s) ++ rest /\
    forallb (fun c => negb (Ascii.eqb c sep)) (hd [] (split_on sep s)) = true /\
    (rest = [] \/ exists rest', rest = sep :: rest').
Proof.
  induction s as [|c s (rest & E & F & R)]; cbn [split_on].
  - exists []. now conjs; [| |left].
  - destruct (Ascii.eqb_spec c sep) as [->|N].
    + exists (sep :: s). conjs; [reflexivity | reflexivity | right; now eexists].
    + destruct (split_on sep s) as [|h t] eqn:S;
        [now elim (split_on_cons sep s)|].
      cbn [hd] in *. exists rest. conjs.
      * cbn [app]. now f_equal.
      * cbn [forallb]. rewrite F.
        destruct (Ascii.eqb_spec c sep); [contradiction | reflexivity].
      * exact R.
Qed.

(** X24. The recipient of test mode: the address is the one given, the
    source is [Test], and the first name is the start of the address up
    to its first [@] or [.], with its first letter in upper case and the
    others in lower case. *)
Theorem test_recipient_name (e : text) :
  email (test_recipient e) = e /\ source (test_recipient e) = txt "Test" /\
  exists p rest,
    e = p ++ rest /\ first_name (test_recipient e) = capitalize p /\
    forallb (fun c => negb (Ascii.eqb c "@"%char)
                      && negb (Ascii.eqb c "."%char)) p = true /\
    (rest = [] \/
     exists c rest', rest = c :: rest' /\ (c = "@"%char \/ c = "."%char)).
Proof.
  split; [reflexivity|]. split; [reflexivity|].
  unfold test_recipient. cbn [first_name].
  destruct (split_on_hd "@"%char e) as (r1 & E1 & F1 & R1).
  set (name_part := hd [] (split_on "@"%char e)) in *.
  destruct (split_on_hd "."%char name_part) as (r2 & E2 & F2 & R2).
  set (p := hd [] (split_on "."%char name_part)) in *.
  exists p, (r2 ++ r1). split; [rewrite app_assoc, <- E2; exact E1|].
  split; [reflexivity|]. split.
  - rewrite E2, forallb_app in F1. apply andb_prop in F1.
    destruct F1 as [F1 _]. clearbody p. clear E2.
    induction p as [|c p IH]; [reflexivity|].
    cbn [forallb] in *. apply andb_prop in F1, F2.
    destruct F1 as [-> F1], F2 as [-> F2]. now rewrite IH.
  - destruct R2 as [->|(r2' & ->)].
    + destruct R1 as [->|(r1' & ->)]; [now left | right].
      exists "@"%char, r1'. auto.
    + right. exists "."%char, (r2' ++ r1). auto.
Qed.

(* ====================================================================== *)
(** * More on a run of the campaign: what it needs                        *)
(* ====================================================================== *)

(** X25. Without the configuration file or without a well-formed
    template file the run exits with status 1 right after the banner
    (the error notice is not an event of the trace): the progress file is
    not read, no recipient is fetched, nothing is sent or written,
    whatever the options are. *)
Theorem run_needs_config_and_template (dry_run : bool) (limit : option Z)
    (test_email : option text) (w : world) :
  config_file w = None \/ template_file w = None ->
  run_campaign dry_run limit test_email w
  = Raise (SystemExit 1) w [Print Banner].
Proof.
  intros H. unfold run_campaign. rewrite bind_eq. cbn [print log prepend].
  rewrite bind_eq. unfold load_config at 1.
  destruct (config_file w) as [cfg|] eqn:C.
  - destruct H as [H|H]; [discriminate|]. cbn [prepend app].
    rewrite bind_eq. unfold load_template at 1. now rewrite H.
  - reflexivity.
Qed.

Lemma run_needs_config_and_template_witness :
  run_campaign false None None
               (without_template (sample_world Garbled two_recipients))
  = Raise (SystemExit 1)
          (without_template (sample_world Garbled two_recipients))
          [Print Banner].
Proof.
  apply run_needs_config_and_template. right. reflexivity.
Defined.

(** X26. Without credentials that Gmail accepts a run sends nothing and
    writes nothing: the progress file is after the run what it was
    before. *)
Theorem run_needs_credentials (dry_run : bool) (limit : option Z)
    (test_email : option text) (cfg : config) (l : ledger) (w : world) :
  config_file w = Some cfg -> stored_ledger (progress_file w) = Some l ->
  credentials_ok w = false ->
  sends (events (run_campaign dry_run limit test_email w)) = [] /\
  forallb (fun e => negb (is_write e))
          (events (run_campaign dry_run limit test_email w)) = true /\
  progress_file (final (run_campaign dry_run limit test_email w))
  = progress_file w.
Proof.
  intros Hcfg Hl Hc.
  destruct (run_campaign_detail dry_run limit test_email cfg l w Hcfg Hl)
    as [[H F]|(rs & l' & w' & out & _ & Hcr & _)]; [|congruence].
  split; [now apply harmless_sends|].
  split; [now apply harmless_no_write | exact F].
Qed.

Lemma run_needs_credentials_witness :
  sends (events (run_campaign false None None
                   (without_credentials (sample_world Missing two_recipients))))
  = [].
Proof.
  refine (proj1 (run_needs_credentials false None None sample_config
                   default_data
                   (without_credentials (sample_world Missing two_recipients))
                   eq_refl eq_refl eq_refl)).
Defined.
